(** * Koishi dispatch kernel: scope algebra, hooks, entity cache, command execution

    A shallow embedding of [packages/koishi-core/src/context.ts] and
    [packages/koishi-core/src/command.ts], followed by the properties of
    the specification that were checked against it.

    Conventions of the embedding.
    - A JavaScript [number] used as an id is a [Z]; the embedding is exact
      for integers in the safe range (below [2^53]).
    - A JavaScript string is a [string]; [null]/[undefined] is [None].
    - A [TypeError] raised by the runtime (reading a property of [null] or
      [undefined]) and an [Error] thrown by the code are the [None] of an
      [option] result, unless a function has its own outcome type.
    - Module-level mutable state ([userCache], [app._hooks], ...) is
      threaded explicitly through the functions that touch it. *)

From Stdlib Require Import ZArith List String Ascii Bool Lia.
From Stdlib Require Import DecimalString DecimalZ.
From stdpp Require Import gmap strings list.

Local Open Scope string_scope.
Local Open Scope Z_scope.
Local Open Scope list_scope.

(* ===================================================================== *)
(** * Part I: the embedding *)
(* ===================================================================== *)

(** ** JavaScript built-ins used by the code *)

Module JS.

(** [s.split(sep)] for a separator of one character: a string with [n]
    occurrences of the separator has [n + 1] segments, so the empty
    string splits into one empty segment. *)
Fixpoint split (sep : ascii) (s : string) : list string :=
  match s with
  | EmptyString => [EmptyString]
  | String c s' =>
      if Ascii.eqb c sep then EmptyString :: split sep s'
      else match split sep s' with
           | seg :: rest => String c seg :: rest
           | [] => [String c EmptyString]
           end
  end.

(** [l.join(sep)] on strings. *)
Fixpoint join (sep : string) (l : list string) : string :=
  match l with
  | [] => EmptyString
  | [x] => x
  | x :: rest => String.append x (String.append sep (join sep rest))
  end.

(** [String(n)] for an integer [n]: decimal digits, ["-"] in front of a
    negative one. *)
Definition Number_toString (n : Z) : string :=
  NilZero.string_of_int (Z.to_int n).

(** [+s] for a string of decimal digits (leading zeros allowed).  The
    code applies it only to captures of [\d+]; on any other string
    JavaScript yields [NaN], which has no counterpart here and is
    mapped to [0]. *)
Definition Number_of_string (s : string) : Z :=
  match NilEmpty.uint_of_string s with
  | Some d => Z.of_uint d
  | None => 0
  end.

(** [Number.MAX_SAFE_INTEGER] *)
Definition MAX_SAFE_INTEGER : Z := 2 ^ 53 - 1.

(** [\d] *)
Definition is_digit (c : ascii) : bool :=
  let n := nat_of_ascii c in (48 <=? n)%nat && (n <=? 57)%nat.

(** [s.startsWith(p)], returning the rest of [s] behind the prefix. *)
Fixpoint strip_prefix (p s : string) : option string :=
  match p, s with
  | EmptyString, _ => Some s
  | String a p', String b s' =>
      if Ascii.eqb a b then strip_prefix p' s' else None
  | String _ _, EmptyString => None
  end.

(** [s.indexOf(t)]: the first position at which [t] occurs in [s], or
    [-1]. *)
Fixpoint indexOf_from (t s : string) (i : Z) : Z :=
  match strip_prefix t s with
  | Some _ => i
  | None => match s with
            | EmptyString => -1
            | String _ s' => indexOf_from t s' (i + 1)
            end
  end.

Definition indexOf (s t : string) : Z := indexOf_from t s 0.

(** [s.slice(0, e)]: a negative [e] counts from the end of [s]. *)
Definition slice0 (s : string) (e : Z) : string :=
  let len := Z.of_nat (String.length s) in
  let e' := if e <? 0 then Z.max (len + e) 0 else Z.min e len in
  String.substring 0 (Z.to_nat e') s.

(** [s.toLowerCase()] on the letters of ASCII; every other character is
    kept as it is. *)
Definition toLowerCase_char (c : ascii) : ascii :=
  let n := nat_of_ascii c in
  if (65 <=? n)%nat && (n <=? 90)%nat then ascii_of_nat (n + 32) else c.

Fixpoint toLowerCase (s : string) : string :=
  match s with
  | EmptyString => EmptyString
  | String c s' => String (toLowerCase_char c) (toLowerCase s')
  end.

(** [s.charCodeAt(0)]; [None] is the [NaN] of the empty string. *)
Definition charCodeAt0 (s : string) : option nat :=
  match s with
  | EmptyString => None
  | String c _ => Some (nat_of_ascii c)
  end.

(** [s.slice(b)] for a [b] that is not negative. *)
Fixpoint slice_from (s : string) (b : nat) {struct b} : string :=
  match b, s with
  | O, _ => s
  | S b', String _ s' => slice_from s' b'
  | S _, EmptyString => EmptyString
  end.

(** [s.lastIndexOf(c)] for a character [c]: the last position of [c] in
    [s], or [-1]. *)
Fixpoint lastIndexOf_from (c : ascii) (s : string) (i found : Z) : Z :=
  match s with
  | EmptyString => found
  | String a s' => lastIndexOf_from c s' (i + 1) (if Ascii.eqb a c then i else found)
  end.

Definition lastIndexOf (s : string) (c : ascii) : Z := lastIndexOf_from c s 0 (-1).

(** [s.split(/(?=[...])/)], a split in front of every character of a
    class: the pattern matches the empty string there, and a match at
    the start of [s] splits nothing off. *)
Fixpoint split_before (p : ascii -> bool) (s : string) : list string :=
  match s with
  | EmptyString => [EmptyString]
  | String c s' =>
      match s' with
      | EmptyString => [String c EmptyString]
      | String c' _ =>
          if p c' then String c EmptyString :: split_before p s'
          else match split_before p s' with
               | seg :: rest => String c seg :: rest
               | [] => [String c EmptyString]
               end
      end
  end.

(** [l.indexOf(x)]: the first position of [x] in the array [l], or
    [-1]. *)
Fixpoint Array_indexOf_from {A : Type} `{EqDecision A} (x : A) (l : list A) (i : Z) : Z :=
  match l with
  | [] => -1
  | y :: l' => if decide (y = x) then i else Array_indexOf_from x l' (i + 1)
  end.

Definition Array_indexOf {A : Type} `{EqDecision A} (l : list A) (x : A) : Z :=
  Array_indexOf_from x l 0.

(** [l.splice(index, 1)], as far as the array goes: a negative [index]
    counts from the end, and nothing is removed behind the end. *)
Definition splice1 {A : Type} (index : Z) (l : list A) : list A :=
  let len := Z.of_nat (length l) in
  let start := if index <? 0 then Z.max (len + index) 0 else Z.min index len in
  delete (Z.to_nat start) l.

End JS.

(** ** Regular expressions *)

Module RegExp.

(** The fragment of the regular-expression syntax that the code uses. *)
Inductive regex : Type :=
| Lit (s : string)              (* a literal word *)
| Class (p : ascii -> bool)     (* one character of a class *)
| Cat (r1 r2 : regex)           (* r1r2 *)
| Alt (r1 r2 : regex)           (* r1|r2 *)
| Opt (r : regex)               (* r? *)
| Star (r : regex)              (* r* *)
| Plus (r : regex).             (* r+ *)

Definition concat (l : list string) : string :=
  fold_right String.append EmptyString l.

(** [lang r s]: the whole of [s] matches [r] (an anchored match,
    [^r$]). *)
Fixpoint lang (r : regex) (s : string) : Prop :=
  match r with
  | Lit w => s = w
  | Class p => exists c, s = String c EmptyString /\ p c = true
  | Cat r1 r2 => exists s1 s2, s = String.append s1 s2 /\ lang r1 s1 /\ lang r2 s2
  | Alt r1 r2 => lang r1 s \/ lang r2 s
  | Opt r1 => s = EmptyString \/ lang r1 s
  | Star r1 => exists l, s = concat l /\ Forall (lang r1) l
  | Plus r1 => exists l, l <> [] /\ s = concat l /\ Forall (lang r1) l
  end.

End RegExp.

(** ** koishi-utils: operations on id lists *)

Module Utils.

(** [array.includes(x)] *)
Definition includes (l : list Z) (x : Z) : bool := existsb (Z.eqb x) l.

(** Modelled from the spec: [contain], [intersection], [difference] and
    [union] of koishi-utils, which the scope combinators import, are
    not among the sources; they are the set operations of those names
    on id lists, keeping the order of their first argument. *)
Definition contain (array1 array2 : list Z) : bool :=
  forallb (includes array1) array2.

Definition intersection (array1 array2 : list Z) : list Z :=
  List.filter (fun item => includes array2 item) array1.

Definition difference (array1 array2 : list Z) : list Z :=
  List.filter (fun item => negb (includes array2 item)) array1.

Fixpoint uniq (seen l : list Z) : list Z :=
  match l with
  | [] => []
  | x :: l' => if includes seen x then uniq seen l' else x :: uniq (x :: seen) l'
  end.

Definition union (array1 array2 : list Z) : list Z :=
  uniq [] (array1 ++ array2).

End Utils.

(** ** Events *)

(** [ContextType] of meta.ts and the two directions of the [contextTypes]
    table (a TypeScript enum, mapping names to indices and back). *)
Inductive ContextType : Type := user | group | discuss.

Module contextTypes.

(** Modelled from the spec: the [contextTypes] table of meta.ts is not
    among the sources; the dimensions are ordered direct (named [user]
    by the code), group, discussion. *)
Definition index (t : ContextType) : nat :=
  match t with user => 0 | group => 1 | discuss => 2 end.

Definition of_name (s : string) : option ContextType :=
  if String.eqb s "user" then Some user
  else if String.eqb s "group" then Some group
  else if String.eqb s "discuss" then Some discuss
  else None.

(** [`${contextTypes[index]}`]: an index outside the table
    interpolates as ["undefined"]. *)
Definition name (i : nat) : string :=
  match i with
  | 0%nat => "user"
  | 1%nat => "group"
  | 2%nat => "discuss"
  | _ => "undefined"
  end.

End contextTypes.

(** ** Records, observed entities and events *)

(** A thrown value: an [Error] object, reduced to its [stack]. *)
Record Error : Type := { stack : string }.

(** The [TypeError] of the runtime. *)
Definition TypeError : Error := {| stack := "TypeError" |}.

(** A user or group record ([UserData], [GroupData]): a JavaScript object
    from field names to values, [_timestamp] being one of its enumerable
    properties.  Field values are opaque to the kernel; they are numbers
    here. *)
Abbreviation Data := (gmap string Z).

(** Objects are shared by reference: the keyed cache, an observed entity
    and the caller of a fetch can hold the same record.  A reference is
    an index into the heap of records. *)
Abbreviation Ref := nat.

(** The write-back target of an observed entity: the closure
    [diff => this.database.setUser(userId, diff)] or its group
    counterpart. *)
Inductive WriteBack : Type :=
| setUser_of (userId : Z)
| setGroup_of (groupId : Z).

(** Modelled from the spec: [observe] of koishi-utils is not among the
    sources.  An observed entity is a live binding of one record: it
    holds the record ([target]), a pending-mutation [diff], and the
    write-back function through which the diff is flushed ([None] when
    [observe] is called without one). *)
Record Observed : Type := {
  target : Ref;
  diff : Data;
  update : option WriteBack;
}.

(** Modelled from the spec: what [Command.collectFields] adds to the
    requested fields for the command that [meta.$argv] names; the
    function is not in the command.ts among the sources. *)
Record ArgvFields : Type := {
  collected_user : list string;
  collected_group : list string;
}.

(** The part of [Meta] that the kernel reads and writes. *)
Record Meta : Type := {
  ctxType : option ContextType;     (* meta.$ctxType *)
  ctxId : Z;                        (* meta.$ctxId *)
  userId : Z;
  groupId : Z;
  anonymous : bool;                 (* truthiness of meta.anonymous *)
  _argv : option ArgvFields;        (* meta.$argv *)
  _user : option Observed;          (* meta.$user *)
  _group : option Observed;         (* meta.$group *)
}.

(** ** The storage collaborator, the heap of records and the keyed caches *)

(** Calls of the storage collaborator, in the order they are made.
    [getUser] is called with or without a default authority. *)
Inductive DbCall : Type :=
| getUser (userId : Z) (authority : option Z) (fields : list string)
| getGroup (groupId : Z) (fields : list string)
| setUser (userId : Z) (diff : Data)
| setGroup (groupId : Z) (diff : Data).

(** What a fetch returns, which may depend on the calls made before. *)
Record Database : Type := {
  user_record : list DbCall -> Z -> list string -> Data;
  group_record : list DbCall -> Z -> list string -> Data;
}.

(** The records that exist, the module-level [userCache] and
    [groupCache], which hold references to records, and the calls of the
    storage collaborator so far. *)
Record World : Type := {
  heap : list Data;
  userCache : gmap Z Ref;
  groupCache : gmap Z Ref;
  calls : list DbCall;
}.

(** The record behind a reference (references are never dangling; an
    unknown one reads as the empty record). *)
Definition deref (w : World) (ref : Ref) : Data := default ∅ (heap w !! ref).

(** A new object. *)
Definition alloc (data : Data) (w : World) : Ref * World :=
  (length (heap w),
   {| heap := heap w ++ [data]; userCache := userCache w;
      groupCache := groupCache w; calls := calls w |}).

(** Assignment to the properties of an object. *)
Definition store (ref : Ref) (data : Data) (w : World) : World :=
  {| heap := <[ref := data]> (heap w); userCache := userCache w;
     groupCache := groupCache w; calls := calls w |}.

Definition set_userCache (userId : Z) (ref : Ref) (w : World) : World :=
  {| heap := heap w; userCache := <[userId := ref]> (userCache w);
     groupCache := groupCache w; calls := calls w |}.

Definition set_groupCache (groupId : Z) (ref : Ref) (w : World) : World :=
  {| heap := heap w; userCache := userCache w;
     groupCache := <[groupId := ref]> (groupCache w); calls := calls w |}.

Definition call_db (c : DbCall) (w : World) : World :=
  {| heap := heap w; userCache := userCache w;
     groupCache := groupCache w; calls := calls w ++ [c] |}.

(** Modelled from the spec: the operations of an observed entity
    ([observe] of koishi-utils is not among the sources).  A mutation
    writes through to the record and accumulates in the diff; [_update]
    flushes a non-empty diff through the write-back function, if there is
    one, and empties it; [_merge] merges fetched fields into the
    record. *)
Definition observe (ref : Ref) (update : option WriteBack) : Observed :=
  {| target := ref; diff := ∅; update := update |}.

Definition Observed_set (key : string) (value : Z) (o : Observed) (w : World)
    : Observed * World :=
  ({| target := target o; diff := <[key := value]> (diff o); update := update o |},
   store (target o) (<[key := value]> (deref w (target o))) w).

Definition Observed_update (o : Observed) (w : World) : Observed * World :=
  if decide (diff o = ∅) then (o, w)
  else ({| target := target o; diff := ∅; update := update o |},
        match update o with
        | Some (setUser_of userId) => call_db (setUser userId (diff o)) w
        | Some (setGroup_of groupId) => call_db (setGroup groupId (diff o)) w
        | None => w
        end).

Definition Observed_merge (data : Data) (o : Observed) (w : World) : World :=
  store (target o) (data ∪ deref w (target o)) w.

(** Modelled from the spec: [createUser] of database.ts is not among the
    sources; it synthesizes a record for the id with the given
    authority. *)
Definition createUser (userId authority : Z) : Data :=
  {[ "id" := userId; "authority" := authority ]}.

(** [new Set(fields)], [fieldSet.add] and [[...fieldSet]]: a set of field
    names in insertion order. *)
Definition Set_add (field : string) (fieldSet : list string) : list string :=
  if bool_decide (field ∈ fieldSet) then fieldSet else fieldSet ++ [field].

Definition Set_new (fields : list string) : list string :=
  foldl (fun fieldSet field => Set_add field fieldSet) [] fields.

(** [app.options], as far as the cache reads it. *)
Inductive DefaultAuthority : Type :=
| authority_value (v : option Z)
| authority_function (f : Meta -> Z).

Record AppOptions : Type := {
  userCacheTimeout : Z;
  groupCacheTimeout : Z;
  defaultAuthority : DefaultAuthority;
}.

(** ** Scope descriptors: [ContextScope.stringify] and [ContextScope.parse] *)

(** [type Subscope = [number[], number[]]], either side possibly [null]. *)
Definition Subscope : Type := option (list Z) * option (list Z).

Module ContextScope.

Definition t : Type := list Subscope.

Definition noopScope : t :=
  [(Some [], None); (Some [], None); (Some [], None)].

(** The callback of [scope.map] in [stringify]; [null.join] throws. *)
Definition stringify_sub (index : nat) (s : Subscope) : option string :=
  let '(include, exclude) := s in
  let type := contextTypes.name index in
  let sign := match include with Some _ => "+" | None => "-" end in
  let idList := match include with Some _ => include | None => exclude end in
  match idList with
  | Some ids =>
      Some (String.append type
             (String.append sign (JS.join "," (map JS.Number_toString ids))))
  | None => None
  end.

Definition nonempty (a : string) : bool :=
  match a with EmptyString => false | _ => true end.

Fixpoint stringify_from (index : nat) (scope : t) : option (list string) :=
  match scope with
  | [] => Some []
  | s :: rest =>
      segment ← stringify_sub index s;
      segments ← stringify_from (S index) rest;
      Some (segment :: segments)
  end.

Definition stringify (scope : t) : option string :=
  segments ← stringify_from 0 scope;
  Some (JS.join ";" (List.filter nonempty segments)).

(** The pattern of [parse]:
    [/^(user|group|discuss)(?:([+-])(\d+(?:,\d+)* ))?$/]. *)
Definition identifier_re : RegExp.regex :=
  let digits := RegExp.Plus (RegExp.Class JS.is_digit) in
  RegExp.Cat
    (RegExp.Alt (RegExp.Lit "user")
       (RegExp.Alt (RegExp.Lit "group") (RegExp.Lit "discuss")))
    (RegExp.Opt
       (RegExp.Cat
          (RegExp.Alt (RegExp.Lit "+") (RegExp.Lit "-"))
          (RegExp.Cat digits
             (RegExp.Star (RegExp.Cat (RegExp.Lit ",") digits))))).

(** A recogniser for [\d+(?:,\d+)* ] up to the end of the string:
    [expect_digit] holds at the start and right behind a comma. *)
Fixpoint id_list (expect_digit : bool) (s : string) : bool :=
  match s with
  | EmptyString => negb expect_digit
  | String c s' =>
      if JS.is_digit c then id_list false s'
      else if Ascii.eqb c "," then negb expect_digit && id_list true s'
      else false
  end.

(** The captures [type], [sign] and [list] of a successful match; the
    last two are [undefined] together. *)
Definition Capture : Type := string * option (string * string).

Definition exec_tail (type rest : string) : option Capture :=
  match rest with
  | EmptyString => Some (type, None)
  | String c list =>
      if (Ascii.eqb c "+" || Ascii.eqb c "-") && id_list true list
      then Some (type, Some (String c EmptyString, list))
      else None
  end.

(** [identifier_re.exec(segment)] *)
Definition exec (segment : string) : option Capture :=
  match JS.strip_prefix "user" segment with
  | Some rest => exec_tail "user" rest
  | None =>
      match JS.strip_prefix "group" segment with
      | Some rest => exec_tail "group" rest
      | None =>
          match JS.strip_prefix "discuss" segment with
          | Some rest => exec_tail "discuss" rest
          | None => None
          end
      end
  end.

(** The body of the [forEach] in [parse]; [None] is the thrown
    [INVALID_IDENTIFIER]. *)
Definition parse_segment (scope : t) (segment : string) : option t :=
  capture ← exec segment;
  let '(type, rest) := capture in
  let sign := match rest with Some (sign, _) => sign | None => "-" end in
  let idList :=
    match rest with
    | Some (_, list) => map JS.Number_of_string (JS.split "," list)
    | None => []
    end in
  type' ← contextTypes.of_name type;
  Some (<[contextTypes.index type' :=
            if String.eqb sign "+" then (Some idList, None)
            else (None, Some idList)]> scope).

Definition parse (identifier : string) : option t :=
  foldl (fun acc segment => scope ← acc; parse_segment scope segment)
        (Some noopScope) (JS.split ";" identifier).

End ContextScope.

(** ** [Context]: combinators and [match] *)

Module Context.

(** The fields of a [Context] object that the combinators read. *)
Record t : Type := {
  identifier : string;
  _scope : ContextScope.t;
}.

(** Modelled from the spec: [App.createContext] is not among the sources;
    a context is its scope together with the canonical serialization of
    that scope as identifier. *)
Definition createContext (scope : ContextScope.t) : option t :=
  identifier ← ContextScope.stringify scope;
  Some {| identifier := identifier; _scope := scope |}.

(** [this._scope.map(([include, exclude]) => ...)] of [inverse];
    [null.slice()] throws. *)
Definition inverse_sub (s : Subscope) : option Subscope :=
  match s with
  | (Some include, _) => Some (None, Some include)
  | (None, Some exclude) => Some (Some exclude, Some [])
  | (None, None) => None
  end.

(** The callbacks of [plus], [minus] and [intersect] on the subscopes of
    one dimension.  A list that the chosen branch needs and that is
    [null] is a [TypeError]. *)
Definition plus_sub (s1 s2 : Subscope) : option Subscope :=
  match s1, s2 with
  | (Some include1, _), (Some include2, _) =>
      Some (Some (Utils.union include1 include2), None)
  | (Some include1, _), (None, Some exclude2) =>
      Some (None, Some (Utils.difference exclude2 include1))
  | (None, Some exclude1), (Some include2, _) =>
      Some (None, Some (Utils.difference exclude1 include2))
  | (None, Some exclude1), (None, Some exclude2) =>
      Some (None, Some (Utils.intersection exclude1 exclude2))
  | _, _ => None
  end.

Definition minus_sub (s1 s2 : Subscope) : option Subscope :=
  match s1, s2 with
  | (Some include1, _), (Some include2, _) =>
      Some (Some (Utils.difference include1 include2), None)
  | (Some include1, _), (None, Some exclude2) =>
      Some (Some (Utils.intersection include1 exclude2), None)
  | (None, Some exclude1), (Some include2, _) =>
      Some (None, Some (Utils.union include2 exclude1))
  | (None, Some exclude1), (None, Some exclude2) =>
      Some (Some (Utils.difference exclude2 exclude1), None)
  | _, _ => None
  end.

Definition intersect_sub (s1 s2 : Subscope) : option Subscope :=
  match s1, s2 with
  | (Some include1, _), (Some include2, _) =>
      Some (Some (Utils.intersection include1 include2), None)
  | (Some include1, _), (None, Some exclude2) =>
      Some (Some (Utils.difference include1 exclude2), None)
  | (None, Some exclude1), (Some include2, _) =>
      Some (Some (Utils.difference include2 exclude1), None)
  | (None, Some exclude1), (None, Some exclude2) =>
      Some (None, Some (Utils.union exclude1 exclude2))
  | _, _ => None
  end.

(** [scope1.map((sub1, index) => f(sub1, scope2[index]))]; destructuring
    an [undefined] entry of [scope2] throws. *)
Fixpoint map_with (f : Subscope -> Subscope -> option Subscope)
    (index : nat) (scope1 scope2 : ContextScope.t) : option ContextScope.t :=
  match scope1 with
  | [] => Some []
  | sub1 :: rest =>
      sub2 ← scope2 !! index;
      sub ← f sub1 sub2;
      subs ← map_with f (S index) rest scope2;
      Some (sub :: subs)
  end.

Definition inverse (this : t) : option t :=
  mapM inverse_sub (_scope this) ≫= createContext.

Definition plus (this ctx : t) : option t :=
  map_with plus_sub 0 (_scope this) (_scope ctx) ≫= createContext.

Definition minus (this ctx : t) : option t :=
  map_with minus_sub 0 (_scope this) (_scope ctx) ≫= createContext.

Definition intersect (this ctx : t) : option t :=
  map_with intersect_sub 0 (_scope this) (_scope ctx) ≫= createContext.

(** [include ? include.includes(id) : !exclude.includes(id)] *)
Definition match_sub (s : Subscope) (id : Z) : option bool :=
  match s with
  | (Some include, _) => Some (Utils.includes include id)
  | (None, Some exclude) => Some (negb (Utils.includes exclude id))
  | (None, None) => None
  end.

(** [match (meta)]; [meta] may be [null]. *)
Definition match_ (this : t) (meta : option Meta) : option bool :=
  match meta with
  | None => Some true
  | Some meta =>
      match ctxType meta with
      | None => Some true
      | Some type =>
          sub ← _scope this !! contextTypes.index type;
          match_sub sub (ctxId meta)
      end
  end.

(** The callback of [every] in [contain]:
    [include1 ? include2 && contain(include1, include2)
      : include2 ? !intersection(include2, exclude1).length
                 : contain(exclude2, exclude1)];
    with [include2] missing the first branch is [null], which [every]
    takes for [false].  As for the combinators, a list that the chosen
    branch needs and that is [null] is a [TypeError]. *)
Definition contain_sub (s1 s2 : Subscope) : option bool :=
  match s1, s2 with
  | (Some include1, _), (Some include2, _) => Some (Utils.contain include1 include2)
  | (Some _, _), (None, _) => Some false
  | (None, Some exclude1), (Some include2, _) =>
      Some (bool_decide (length (Utils.intersection include2 exclude1) = 0%nat))
  | (None, Some exclude1), (None, Some exclude2) => Some (Utils.contain exclude2 exclude1)
  | _, _ => None
  end.

(** [scope1.every((sub1, index) => f(sub1, scope2[index]))]: the first
    [false] ends the loop. *)
Fixpoint every_with (f : Subscope -> Subscope -> option bool)
    (index : nat) (scope1 scope2 : ContextScope.t) : option bool :=
  match scope1 with
  | [] => Some true
  | sub1 :: rest =>
      sub2 ← scope2 !! index;
      holds ← f sub1 sub2;
      if holds : bool then every_with f (S index) rest scope2 else Some false
  end.

(** [contain (ctx)] *)
Definition contain (this ctx : t) : option bool :=
  every_with contain_sub 0 (_scope this) (_scope ctx).

(** *** The entity cache: [observeGroup] and [observeUser] *)

(** [contain(Object.keys(cache), fieldArray)] *)
Definition contain_keys (cache : Data) (fieldArray : list string) : bool :=
  forallb (fun field => bool_decide (is_Some (cache !! field))) fieldArray.

(** [cache && contain(Object.keys(cache), fieldArray)
      && timestamp - cache._timestamp < timeout]; without a
    [_timestamp] the difference is [NaN] and the comparison false. *)
Definition isActiveCache (cache : option Data) (fieldArray : list string)
    (timestamp timeout : Z) : bool :=
  match cache with
  | Some cache =>
      contain_keys cache fieldArray &&
      match cache !! "_timestamp" with
      | Some stamp => timestamp - stamp <? timeout
      | None => false
      end
  | None => false
  end.

(** [for (const key in entity) fieldSet.delete(key)] *)
Definition delete_present (record : Data) (fieldSet : list string) : list string :=
  List.filter (fun field => negb (bool_decide (is_Some (record !! field)))) fieldSet.

(** [typeof defaultAuthority === 'function' ? defaultAuthority(meta)
      : defaultAuthority || 0] *)
Definition resolve_authority (options : AppOptions) (meta : Meta) : Z :=
  match defaultAuthority options with
  | authority_function f => f meta
  | authority_value (Some v) => v
  | authority_value None => 0
  end.

(** [data = await this.database.getGroup(groupId, fieldArray);
     data._timestamp = timestamp; groupCache[groupId] = data] *)
Definition fetch_group (db : Database) (groupId : Z) (fieldArray : list string)
    (timestamp : Z) (w : World) : Ref * World :=
  let fetched := group_record db (calls w) groupId fieldArray in
  let '(data, w) := alloc fetched (call_db (getGroup groupId fieldArray) w) in
  let w := store data (<["_timestamp" := timestamp]> (deref w data)) w in
  (data, set_groupCache groupId data w).

(** [data = await this.database.getUser(userId, defaultAuthority, fieldArray);
     data._timestamp = timestamp; userCache[userId] = data] *)
Definition fetch_user (db : Database) (userId authority : Z) (fieldArray : list string)
    (timestamp : Z) (w : World) : Ref * World :=
  let fetched := user_record db (calls w) userId fieldArray in
  let '(data, w) := alloc fetched (call_db (getUser userId (Some authority) fieldArray) w) in
  let w := store data (<["_timestamp" := timestamp]> (deref w data)) w in
  (data, set_userCache userId data w).

(** [observeGroup(meta, fields)]; [now] is what [Date.now()] returns in
    this call. *)
Definition observeGroup (options : AppOptions) (db : Database) (now : Z)
    (meta : Meta) (fields : list string) (w : World) : World * Meta * Observed :=
  let fieldSet := Set_new fields in
  let fieldSet :=
    match _argv meta with
    | Some argv => foldl (fun s field => Set_add field s) fieldSet (collected_group argv)
    | None => fieldSet
    end in
  match _group meta with
  | Some group_ =>
      let fieldSet := delete_present (deref w (target group_)) fieldSet in
      let w :=
        match fieldSet with
        | [] => w
        | _ =>
            let fetched := group_record db (calls w) (groupId meta) fieldSet in
            let '(data, w) := alloc fetched (call_db (getGroup (groupId meta) fieldSet) w) in
            let w := Observed_merge (deref w data) group_ w in
            let w := store data (<["_timestamp" := now]> (deref w data)) w in
            set_groupCache (groupId meta) data w
        end in
      (w, meta, group_)
  | None =>
      let fieldArray := fieldSet in
      let timestamp := now in
      let '(data, w) :=
        match groupCache w !! groupId meta with
        | Some cache =>
            if isActiveCache (Some (deref w cache)) fieldArray timestamp
                 (groupCacheTimeout options)
            then (cache, w)
            else fetch_group db (groupId meta) fieldArray timestamp w
        | None => fetch_group db (groupId meta) fieldArray timestamp w
        end in
      let group_ := observe data (Some (setGroup_of (groupId meta))) in
      (w,
       {| ctxType := ctxType meta; ctxId := ctxId meta; userId := userId meta;
          groupId := groupId meta; anonymous := anonymous meta; _argv := _argv meta;
          _user := _user meta; _group := Some group_ |},
       group_)
  end.

(** [observeUser(meta, fields)] *)
Definition observeUser (options : AppOptions) (db : Database) (now : Z)
    (meta : Meta) (fields : list string) (w : World) : World * Meta * Observed :=
  let fieldSet := Set_new fields in
  let fieldSet :=
    match _argv meta with
    | Some argv => foldl (fun s field => Set_add field s) fieldSet (collected_user argv)
    | None => fieldSet
    end in
  match _user meta with
  | Some user_ =>
      let w :=
        if anonymous meta then w
        else
          let fieldSet := delete_present (deref w (target user_)) fieldSet in
          match fieldSet with
          | [] => w
          | _ =>
              let fetched := user_record db (calls w) (userId meta) fieldSet in
              let '(data, w) :=
                alloc fetched (call_db (getUser (userId meta) None fieldSet) w) in
              let w := Observed_merge (deref w data) user_ w in
              let w := store data (<["_timestamp" := now]> (deref w data)) w in
              set_userCache (userId meta) data w
          end in
      (w, meta, user_)
  | None =>
      let authority := resolve_authority options meta in
      let '(user_, w) :=
        if anonymous meta then
          let '(data, w) := alloc (createUser (userId meta) authority) w in
          (observe data None, w)
        else
          let fieldArray := fieldSet in
          let timestamp := now in
          let '(data, w) :=
            match userCache w !! userId meta with
            | Some cache =>
                if isActiveCache (Some (deref w cache)) fieldArray timestamp
                     (userCacheTimeout options)
                then (cache, w)
                else fetch_user db (userId meta) authority fieldArray timestamp w
            | None => fetch_user db (userId meta) authority fieldArray timestamp w
            end in
          (observe data (Some (setUser_of (userId meta))), w) in
      (w,
       {| ctxType := ctxType meta; ctxId := ctxId meta; userId := userId meta;
          groupId := groupId meta; anonymous := anonymous meta; _argv := _argv meta;
          _user := Some user_; _group := _group meta |},
       user_)
  end.

(** *** Hooks: registration *)

(** Listeners are functions and are compared by reference:
    [listener f] is a function that plugin code holds, [once_wrapper k]
    the [k]-th closure that [once] has created. *)
Inductive Callback : Type :=
| listener (f : nat)
| once_wrapper (k : nat).

#[global] Instance Callback_eq_dec : EqDecision Callback.
Proof. solve_decision. Defined.

(** A context object: its address, by which [===] compares, and its
    fields. *)
Record Instance : Type := {
  address : nat;
  fields : t;
}.

(** An entry [[context, callback]] of [app._hooks[name]]. *)
Record Hook : Type := {
  hook_context : Instance;
  hook_callback : Callback;
}.

(** What the closure of [once] captures: [this], [name] and
    [listener]. *)
Record Closure : Type := {
  closure_this : Instance;
  closure_name : string;
  closure_listener : nat;
}.

(** [app._hooks], the closures that [once] has created, and a record of
    the callbacks that the dispatchers have called, in order. *)
Record App : Type := {
  _hooks : gmap string (list Hook);
  closures : list Closure;
  invoked : list Callback;
}.

(** [this.app._hooks[name] || []] *)
Definition hooks_of (app : App) (name : string) : list Hook :=
  default [] (_hooks app !! name).

Definition set_hooks (name : string) (hooks : list Hook) (app : App) : App :=
  {| _hooks := <[name := hooks]> (_hooks app); closures := closures app;
     invoked := invoked app |}.

(** [addListener(name, listener)]: [push] *)
Definition addListener (this : Instance) (name : string) (callback : Callback)
    (app : App) : App :=
  set_hooks name
    (hooks_of app name ++ [{| hook_context := this; hook_callback := callback |}]) app.

(** [prependListener(name, listener)]: [unshift] *)
Definition prependListener (this : Instance) (name : string) (callback : Callback)
    (app : App) : App :=
  set_hooks name
    ({| hook_context := this; hook_callback := callback |} :: hooks_of app name) app.

(** [context === this && callback === listener] *)
Definition is_entry (this : Instance) (callback : Callback) (hook : Hook) : bool :=
  bool_decide (address (hook_context hook) = address this) &&
  bool_decide (hook_callback hook = callback).

(** [hooks.splice(hooks.findIndex(p), 1)], nothing when no entry
    satisfies [p]. *)
Fixpoint remove_first (p : Hook -> bool) (hooks : list Hook) : list Hook :=
  match hooks with
  | [] => []
  | hook :: rest => if p hook then rest else hook :: remove_first p rest
  end.

(** [removeListener(name, listener)] *)
Definition removeListener (this : Instance) (name : string) (callback : Callback)
    (app : App) : App :=
  match _hooks app !! name with
  | Some hooks => set_hooks name (remove_first (is_entry this callback) hooks) app
  | None => app
  end.

(** [once(name, listener)]: a new closure, registered with [on]. *)
Definition once (this : Instance) (name : string) (f : nat) (app : App) : App :=
  let k := length (closures app) in
  addListener this name (once_wrapper k)
    {| _hooks := _hooks app;
       closures := closures app ++
         [{| closure_this := this; closure_name := name; closure_listener := f |}];
       invoked := invoked app |}.

(** What [removeListener] returns: [true] when it has removed an entry,
    [undefined] otherwise. *)
Definition removeListener_result (this : Instance) (name : string) (callback : Callback)
    (app : App) : option bool :=
  if existsb (is_entry this callback) (hooks_of app name) then Some true else None.

(** [on], [before] and [off] are the short names of [addListener],
    [prependListener] and [removeListener]. *)
Definition on := addListener.

Definition before := prependListener.

Definition off := removeListener.

Definition record_invocation (callback : Callback) (app : App) : App :=
  {| _hooks := _hooks app; closures := closures app;
     invoked := invoked app ++ [callback] |}.

(** *** Hooks: dispatch *)

(** What listeners do, as far as the hooks are concerned: they register
    and remove listeners, and dispatch events themselves.
    [dispatch_turn meta name i] is one turn of the loop of a dispatcher
    at position [i] of the list: [serialize] awaits between its turns,
    so that other code runs in between. *)
Inductive Op : Type :=
| call_on (this : Instance) (name : string) (f : nat)
| call_before (this : Instance) (name : string) (f : nat)
| call_once (this : Instance) (name : string) (f : nat)
| call_off (this : Instance) (name : string) (callback : Callback)
| call_bail (meta : option Meta) (name : string)
| call_emit (meta : option Meta) (name : string)
| dispatch_turn (meta : option Meta) (name : string) (i : nat)
| try_catch (op : Op).

(** How the body of a listener ends: it returns a value, of which the
    dispatchers test the truthiness, or throws. *)
Inductive Completion : Type :=
| returns_ (truthy : bool)
| throws.

Record Body : Type := {
  steps : list Op;
  completion : Completion;
}.

Inductive Outcome : Type :=
| normal (truthy : bool)
| exception
| out_of_fuel.

(** The dispatchers read the list of hooks anew at every turn: the loop
    [for (const [context, callback] of hooks)] runs on the array itself,
    which listeners change while it runs. *)
Fixpoint run_ops (fuel : nat) (bodies : nat -> Body) (ops : list Op) (app : App)
    {struct fuel} : App * Outcome :=
  match fuel with
  | O => (app, out_of_fuel)
  | S fuel =>
      match ops with
      | [] => (app, normal false)
      | op :: rest =>
          let '(app, out) := run_op fuel bodies op app in
          match out with
          | normal _ => run_ops fuel bodies rest app
          | _ => (app, out)
          end
      end
  end

with run_op (fuel : nat) (bodies : nat -> Body) (op : Op) (app : App)
    {struct fuel} : App * Outcome :=
  match fuel with
  | O => (app, out_of_fuel)
  | S fuel =>
      match op with
      | call_on this name f => (addListener this name (listener f) app, normal true)
      | call_before this name f => (prependListener this name (listener f) app, normal true)
      | call_once this name f => (once this name f app, normal true)
      | call_off this name callback => (removeListener this name callback app, normal true)
      | call_bail meta name => bail_from fuel bodies meta name 0 app
      | call_emit meta name => emit_from fuel bodies meta name 0 app
      | dispatch_turn meta name i =>
          match hooks_of app name !! i with
          | None => (app, normal false)
          | Some hook =>
              match match_ (fields (hook_context hook)) meta with
              | None => (app, exception)
              | Some false => (app, normal false)
              | Some true => invoke fuel bodies hook app
              end
          end
      | try_catch op =>
          let '(app, out) := run_op fuel bodies op app in
          match out with
          | exception => (app, normal false)
          | _ => (app, out)
          end
      end
  end

(** [bail]: the first truthy result ends the loop, and so does an
    exception. *)
with bail_from (fuel : nat) (bodies : nat -> Body) (meta : option Meta)
    (name : string) (i : nat) (app : App) {struct fuel} : App * Outcome :=
  match fuel with
  | O => (app, out_of_fuel)
  | S fuel =>
      match hooks_of app name !! i with
      | None => (app, normal false)
      | Some hook =>
          match match_ (fields (hook_context hook)) meta with
          | None => (app, exception)
          | Some false => bail_from fuel bodies meta name (S i) app
          | Some true =>
              let '(app, out) := invoke fuel bodies hook app in
              match out with
              | normal false => bail_from fuel bodies meta name (S i) app
              | _ => (app, out)
              end
          end
      end
  end

(** [emit], that is the loop of [parallelize] as its caller sees it: an
    exception ends the loop and turns into a rejected promise. *)
with emit_from (fuel : nat) (bodies : nat -> Body) (meta : option Meta)
    (name : string) (i : nat) (app : App) {struct fuel} : App * Outcome :=
  match fuel with
  | O => (app, out_of_fuel)
  | S fuel =>
      match hooks_of app name !! i with
      | None => (app, normal true)
      | Some hook =>
          match match_ (fields (hook_context hook)) meta with
          | None => (app, normal true)
          | Some false => emit_from fuel bodies meta name (S i) app
          | Some true =>
              let '(app, out) := invoke fuel bodies hook app in
              match out with
              | normal _ => emit_from fuel bodies meta name (S i) app
              | exception => (app, normal true)
              | out_of_fuel => (app, out_of_fuel)
              end
          end
      end
  end

(** A call of the callback of a hook.  The closure of [once] is
    [(...args) => { unsubscribe(); return listener.apply(this, args) }],
    with [unsubscribe = () => this.off(name, wrapper)]. *)
with invoke (fuel : nat) (bodies : nat -> Body) (hook : Hook) (app : App)
    {struct fuel} : App * Outcome :=
  match fuel with
  | O => (app, out_of_fuel)
  | S fuel =>
      let app := record_invocation (hook_callback hook) app in
      match hook_callback hook with
      | listener f => run_body fuel bodies (bodies f) app
      | once_wrapper k =>
          match closures app !! k with
          | Some closure =>
              run_body fuel bodies (bodies (closure_listener closure))
                (removeListener (closure_this closure) (closure_name closure)
                   (once_wrapper k) app)
          | None => (app, exception)
          end
      end
  end

with run_body (fuel : nat) (bodies : nat -> Body) (body : Body) (app : App)
    {struct fuel} : App * Outcome :=
  match fuel with
  | O => (app, out_of_fuel)
  | S fuel =>
      let '(app, out) := run_ops fuel bodies (steps body) app in
      match out with
      | normal _ =>
          (app, match completion body with
                | returns_ truthy => normal truthy
                | throws => exception
                end)
      | _ => (app, out)
      end
  end.

(** *** [parallelize]: the promise it returns *)

(** A promise, as far as its settlement goes: at which tick of the event
    loop after the call it settles, and how. *)
Inductive Settlement : Type :=
| fulfilled
| rejected (reason : Error).

Record Promise : Type := {
  settles_at : nat;
  settlement : Settlement;
}.

(** What a call of a listener yields: it throws, or it returns, an
    asynchronous listener a promise; [Promise.all] takes any other value
    for a promise that is fulfilled already. *)
Inductive Called : Type :=
| threw (error : Error)
| returned (task : Promise).

(** The rejection that comes first, the one in front when several come at
    the same tick. *)
Fixpoint first_rejection (tasks : list Promise) : option (nat * Error) :=
  match tasks with
  | [] => None
  | task :: rest =>
      match settlement task, first_rejection rest with
      | rejected reason, Some (tick, reason') =>
          if (settles_at task <=? tick)%nat then Some (settles_at task, reason)
          else Some (tick, reason')
      | rejected reason, None => Some (settles_at task, reason)
      | fulfilled, later => later
      end
  end.

(** [Promise.all(tasks)]: fulfilled when all of [tasks] are, rejected as
    soon as one of them is, with its reason. *)
Definition Promise_all (tasks : list Promise) : Promise :=
  match first_rejection tasks with
  | Some (tick, reason) => {| settles_at := tick; settlement := rejected reason |}
  | None =>
      {| settles_at := foldr Nat.max 0%nat (map settles_at tasks);
         settlement := fulfilled |}
  end.

(** The loop of [parallelize], over hooks that the listeners leave as
    they are: the callbacks called and the tasks collected, or the error
    that ended the loop. *)
Fixpoint parallelize_loop (call : Callback -> Called) (meta : option Meta)
    (hooks : list Hook) (tasks : list Promise) (called : list Callback)
    : list Callback * (Error + list Promise) :=
  match hooks with
  | [] => (called, inr tasks)
  | hook :: rest =>
      match match_ (fields (hook_context hook)) meta with
      | None => (called, inl TypeError)
      | Some false => parallelize_loop call meta rest tasks called
      | Some true =>
          match call (hook_callback hook) with
          | threw error => (called ++ [hook_callback hook], inl error)
          | returned task =>
              parallelize_loop call meta rest (tasks ++ [task])
                (called ++ [hook_callback hook])
          end
      end
  end.

(** [parallelize(meta, name, ...args)]: an error in the loop rejects the
    promise of this [async] function at once; otherwise it settles as
    [Promise.all(tasks)] does. *)
Definition parallelize (call : Callback -> Called) (meta : option Meta)
    (name : string) (app : App) : list Callback * Promise :=
  let '(called, result) := parallelize_loop call meta (hooks_of app name) [] [] in
  (called,
   match result with
   | inl error => {| settles_at := 0; settlement := rejected error |}
   | inr tasks => Promise_all tasks
   end).

(** [emit(...args)] is [this.parallelize(...args)] without [await]: the
    call returns at once and the promise is dropped.  What is left of it
    here are the callbacks called. *)
Definition emit (call : Callback -> Called) (meta : option Meta)
    (name : string) (app : App) : list Callback :=
  fst (parallelize call meta name app).

End Context.

(** ** [Command]: the action chain and [execute] *)

Module Command.

(** What awaiting a call yields: a value, of which the code only asks
    whether it is a string ([None] stands for [undefined] and any other
    non-string), or a thrown error. *)
Inductive Settled : Type :=
| Resolved (result : option string)
| Rejected (error : Error).

(** What an action or a [before-command] listener does when called, as
    far as [execute] can tell: it ends by returning or throwing, possibly
    after awaiting [argv.next(...)], in which case it goes on differently
    when the continuation resolves and when it throws (an action that
    does not catch goes on with [fun e => Finish (Rejected e)]). *)
Inductive Behaviour : Type :=
| Finish (outcome : Settled)
| AwaitNext (resolved : Behaviour) (rejected : Error -> Behaviour).

(** The part of [Argv] that [execute] reads.  [stringified] is what
    [this.stringify(args, options)] returns ([Domain.CommandBase] is not
    among the sources). *)
Record Argv : Type := {
  options : list string;          (* the keys of argv.options *)
  source : string;
  stringified : string;
}.

(** [Command.Action]: a function of [argv]; the [label] names it in the
    record of executed actions. *)
Record Action : Type := {
  label : string;
  call : Argv -> Behaviour;
}.

Record t : Type := {
  _actions : list Action;
}.

(** [action(callback, prepend = false)] *)
Definition action (callback : Action) (prepend : bool) (this : t) : t :=
  if prepend then {| _actions := callback :: _actions this |}
  else {| _actions := _actions this ++ [callback] |}.

(** [option(name, desc, config, action)], as far as the action chain is
    concerned: the action is guarded by [name in argv.options] and put
    in front. *)
Definition option (name : string) (action : Datatypes.option Action) (this : t) : t :=
  match action with
  | Some action =>
      {| _actions :=
           {| label := label action;
              call := fun argv =>
                if bool_decide (name ∈ options argv) then call action argv
                else Finish (Resolved None) |}
           :: _actions this |}
  | None => this
  end.

(** What surrounds one invocation of [execute]: the outcome of
    [app.serial(session, 'before-command', argv)], the continuation
    [next] (its [n]-th call resolves, [None], or throws), and [lastCall]
    (the empty string when [prettyErrors] is off). *)
Record Env : Type := {
  before_command : Argv -> Behaviour;
  next : nat -> Datatypes.option Error;
  lastCall : string;
}.

(** The local variable [state] of an invocation, and what the invocation
    leaves behind: how often the continuation was called, the actions
    that were called, and the lines given to [logger.warn]. *)
Record Run : Type := {
  state : string;
  calls_of_next : nat;
  executed : list string;
  warnings : list string;
}.

Definition set_state (s : string) (r : Run) : Run :=
  {| state := s; calls_of_next := calls_of_next r;
     executed := executed r; warnings := warnings r |}.

Definition count_call (r : Run) : Run :=
  {| state := state r; calls_of_next := S (calls_of_next r);
     executed := executed r; warnings := warnings r |}.

Definition record_action (a : Action) (r : Run) : Run :=
  {| state := state r; calls_of_next := calls_of_next r;
     executed := executed r ++ [label a]; warnings := warnings r |}.

Definition warn (line : string) (r : Run) : Run :=
  {| state := state r; calls_of_next := calls_of_next r;
     executed := executed r; warnings := warnings r ++ [line] |}.

(** Running a behaviour.  [AwaitNext] is a call of the wrapped
    continuation
    [async (fallback) => { const oldState = state; state = '';
       await next(fallback); state = oldState }]:
    when [next] throws, the last assignment is skipped. *)
Fixpoint run (env : Env) (b : Behaviour) (r : Run) : Run * Settled :=
  match b with
  | Finish outcome => (r, outcome)
  | AwaitNext resolved rejected =>
      let oldState := state r in
      let r1 := count_call (set_state "" r) in
      match next env (calls_of_next r) with
      | None => run env resolved (set_state oldState r1)
      | Some error => run env (rejected error) r1
      end
  end.

(** [for (const action of this._actions) { ... } return ''] *)
Fixpoint run_actions (env : Env) (argv : Argv) (actions : list Action) (r : Run)
    : Run * Settled :=
  match actions with
  | [] => (r, Resolved (Some ""))
  | a :: rest =>
      let '(r1, result) := run env (call a argv) (record_action a r) in
      match result with
      | Resolved (Some s) => (r1, Resolved (Some s))
      | Resolved None => run_actions env argv rest r1
      | Rejected error => (r1, Rejected error)
      end
  end.

(** The body of the [try] block. *)
Definition attempt (this : t) (env : Env) (argv : Argv) : Run * Settled :=
  let r0 := {| state := "before command"; calls_of_next := 0;
               executed := []; warnings := [] |} in
  let '(r1, result) := run env (before_command env argv) r0 in
  match result with
  | Resolved (Some s) => (r1, Resolved (Some s))
  | Resolved None => run_actions env argv (_actions this) r1
  | Rejected error => (r1, Rejected error)
  end.

(** Modelled from the spec: [coerce] of koishi-utils is not among the
    sources; for an error object it is its call stack. *)
Definition coerce (error : Error) : string := stack error.

(** The line of the [catch] block: the stack, cut in front of the line of
    the original call site when [lastCall] is set. *)
Definition trimmed (env : Env) (error : Error) : string :=
  if ContextScope.nonempty (lastCall env)
  then JS.slice0 (coerce error) (JS.indexOf (stack error) (lastCall env) - 1)
  else coerce error.

Definition source_of (argv : Argv) : string :=
  if ContextScope.nonempty (source argv) then source argv else stringified argv.

Definition warning (env : Env) (argv : Argv) (error : Error) : string :=
  String.append (source_of argv) (String.append (String "010" "") (trimmed env error)).

(** [execute(argv, next)]: the [try] block and its [catch]. *)
Definition execute (this : t) (env : Env) (argv : Argv) : Run * Settled :=
  let '(r, result) := attempt this env argv in
  match result with
  | Resolved v => (r, Resolved v)
  | Rejected error =>
      if ContextScope.nonempty (state r)
      then (warn (warning env argv error) r, Resolved None)
      else (r, Rejected error)
  end.

End Command.

(** ** The registry of commands: [command], [alias], [shortcut], [dispose] *)

Module Registry.

(** References to [Command] objects and to the configuration objects of
    shortcuts; both are compared by reference. *)
Abbreviation CommandRef := nat.

Abbreviation ShortcutRef := nat.

(** A configuration value (values that are functions of the user are
    left out). *)
Inductive ConfigValue : Type :=
| config_number (n : Z)
| config_infinity
| config_boolean (b : bool)
| config_string (s : string).

Abbreviation Config := (gmap string ConfigValue).

(** [Command.defaultConfig] *)
Definition defaultConfig : Config :=
  {[ "authority" := config_number 1; "showWarning" := config_boolean true;
     "maxUsage" := config_infinity; "minInterval" := config_number 0 ]}.

(** The fields of a [Command] object that registration and disposal
    read and write (the action chain is [Command.t]).  [_shortcuts] is
    an object from names to configuration objects; its keys are kept in
    the order of their creation, in which [for ... in] goes through
    them (names that are array indices would come first). *)
Record Command : Type := {
  name : string;
  declaration : string;
  context : Context.t;
  config : Config;
  children : list CommandRef;
  parent : option CommandRef;
  _aliases : list string;
  _shortcuts : list (string * ShortcutRef);
}.

(** The configuration object of a shortcut:
    [{ name, command: this, authority: this.config.authority, ...config }]. *)
Inductive ShortcutValue : Type :=
| shortcut_string (s : string)
| shortcut_command (command : CommandRef)
| shortcut_value (v : option ConfigValue)
| shortcut_strings (l : list string).

Abbreviation Shortcut := (gmap string ShortcutValue).

(** The [Command] objects and the configuration objects of shortcuts
    that exist, and the registries of the application:
    [app._commandMap], [app._commands], [app._shortcutMap] and
    [app._shortcuts] (here [shortcutList]).  The two maps are objects
    used as maps: they hold the keys that were assigned to them (the
    keys that every object inherits, like [constructor], are left
    out). *)
Record App : Type := {
  objects : list Command;
  shortcutObjects : list Shortcut;
  _commandMap : gmap string CommandRef;
  _commands : list CommandRef;
  _shortcutMap : gmap string CommandRef;
  shortcutList : list ShortcutRef;
}.

(** What registration throws: the errors [INVALID_SUBCOMMAND] and
    [INVALID_CONTEXT] of shared.ts, the error of [_registerAlias], and
    the [TypeError] of the runtime. *)
Inductive Thrown : Type :=
| INVALID_SUBCOMMAND
| INVALID_CONTEXT
| duplicate_command_names (name : string)
| type_error.

(** How a call ends; [unfinished] is a run that the fuel given does not
    bring to its end. *)
Inductive Result (A : Type) : Type :=
| returned (a : A)
| threw (e : Thrown)
| unfinished.

Arguments returned {A} a.
Arguments threw {A} e.
Arguments unfinished {A}.

(** Code that reads and writes the registries and can throw. *)
Definition M (A : Type) : Type := App -> App * Result A.

#[global] Instance M_ret : MRet M := fun A a app => (app, returned a).

#[global] Instance M_bind : MBind M := fun A B f m app =>
  match m app with
  | (app', returned a) => f a app'
  | (app', threw e) => (app', threw e)
  | (app', unfinished) => (app', unfinished)
  end.

Definition throw {A : Type} (e : Thrown) : M A := fun app => (app, threw e).

Definition get : M App := fun app => (app, returned app).

Definition modify (f : App -> App) : M unit := fun app => (f app, returned tt).

(** [l.forEach(f)] and the like: the first call that throws ends the
    loop. *)
Fixpoint forEach {A : Type} (f : A -> M unit) (l : list A) : M unit :=
  match l with
  | [] => mret tt
  | x :: rest => f x ;; forEach f rest
  end.

(** Reading the fields of an object (references are never dangling; one
    that is reads as a [TypeError]). *)
Definition read (c : CommandRef) : M Command := fun app =>
  match objects app !! c with
  | Some obj => (app, returned obj)
  | None => (app, threw type_error)
  end.

(** Assignments to the fields of an object and to the registries. *)
Definition set_objects (objects' : list Command) (app : App) : App :=
  {| objects := objects'; shortcutObjects := shortcutObjects app;
     _commandMap := _commandMap app; _commands := _commands app;
     _shortcutMap := _shortcutMap app; shortcutList := shortcutList app |}.

Definition set_commandMap (map : gmap string CommandRef) (app : App) : App :=
  {| objects := objects app; shortcutObjects := shortcutObjects app;
     _commandMap := map; _commands := _commands app;
     _shortcutMap := _shortcutMap app; shortcutList := shortcutList app |}.

Definition set_commands (commands : list CommandRef) (app : App) : App :=
  {| objects := objects app; shortcutObjects := shortcutObjects app;
     _commandMap := _commandMap app; _commands := commands;
     _shortcutMap := _shortcutMap app; shortcutList := shortcutList app |}.

Definition set_shortcuts (objects' : list Shortcut) (map : gmap string CommandRef)
    (list : list ShortcutRef) (app : App) : App :=
  {| objects := objects app; shortcutObjects := objects';
     _commandMap := _commandMap app; _commands := _commands app;
     _shortcutMap := map; shortcutList := list |}.

Definition write (c : CommandRef) (f : Command -> Command) : M unit :=
  modify (fun app => set_objects (alter f c (objects app)) app).

Definition with_config (config' : Config) (c : Command) : Command :=
  {| name := name c; declaration := declaration c; context := context c;
     config := config'; children := children c; parent := parent c;
     _aliases := _aliases c; _shortcuts := _shortcuts c |}.

Definition with_children (children' : list CommandRef) (c : Command) : Command :=
  {| name := name c; declaration := declaration c; context := context c;
     config := config c; children := children'; parent := parent c;
     _aliases := _aliases c; _shortcuts := _shortcuts c |}.

Definition with_parent (parent' : option CommandRef) (c : Command) : Command :=
  {| name := name c; declaration := declaration c; context := context c;
     config := config c; children := children c; parent := parent';
     _aliases := _aliases c; _shortcuts := _shortcuts c |}.

Definition with_aliases (aliases : list string) (c : Command) : Command :=
  {| name := name c; declaration := declaration c; context := context c;
     config := config c; children := children c; parent := parent c;
     _aliases := aliases; _shortcuts := _shortcuts c |}.

Definition with_shortcuts (shortcuts : list (string * ShortcutRef)) (c : Command) : Command :=
  {| name := name c; declaration := declaration c; context := context c;
     config := config c; children := children c; parent := parent c;
     _aliases := _aliases c; _shortcuts := shortcuts |}.

(** [_registerAlias (name)]: the name goes into [_aliases] before the
    registry is looked at. *)
Definition _registerAlias (this : CommandRef) (name : string) : M unit :=
  let name := JS.toLowerCase name in
  write this (fun c => with_aliases (_aliases c ++ [name]) c) ;;
  app ← get;
  match _commandMap app !! name with
  | None => modify (set_commandMap (<[name := this]> (_commandMap app)))
  | Some previous =>
      if decide (previous = this) then mret tt
      else throw (duplicate_command_names name)
  end.

(** [alias (...names)] *)
Definition alias (this : CommandRef) (names : list string) : M CommandRef :=
  forEach (_registerAlias this) names ;; mret this.

(** [new Command(name, declaration, context, config)].
    Modelled from the spec: [Domain.CommandBase], the class that
    [Command] extends, is not among the sources; its constructor keeps
    the name and the declaration, and the help option that the
    constructor of [Command] declares is an option without an action. *)
Definition new_Command (name declaration : string) (context : Context.t) (config : Config)
    : M CommandRef :=
  app ← get;
  let this := length (objects app) in
  modify (set_objects
            (objects app ++
               [{| name := name; declaration := declaration; context := context;
                   config := config ∪ defaultConfig; children := []; parent := None;
                   _aliases := []; _shortcuts := [] |}])) ;;
  _registerAlias this name ;;
  modify (fun app => set_commands (_commands app ++ [this]) app) ;;
  mret this.

(** [this._shortcuts[name] = config]: a new key goes behind the others,
    an old one keeps its place. *)
Fixpoint assign_shortcut (name : string) (shortcut : ShortcutRef)
    (shortcuts : list (string * ShortcutRef)) : list (string * ShortcutRef) :=
  match shortcuts with
  | [] => [(name, shortcut)]
  | (name', shortcut') :: rest =>
      if String.eqb name' name then (name, shortcut) :: rest
      else (name', shortcut') :: assign_shortcut name shortcut rest
  end.

(** [shortcut (name, config)] *)
Definition shortcut (this : CommandRef) (name : string) (config : option Shortcut)
    : M CommandRef :=
  obj ← read this;
  app ← get;
  let object : Shortcut :=
    default ∅ config ∪
    {[ "name" := shortcut_string name; "command" := shortcut_command this;
       "authority" := shortcut_value (Registry.config obj !! "authority") ]} in
  let ref := length (shortcutObjects app) in
  write this (fun c => with_shortcuts (assign_shortcut name ref (_shortcuts c)) c) ;;
  modify (fun app =>
            set_shortcuts (shortcutObjects app ++ [object])
              (<[name := this]> (_shortcutMap app)) (shortcutList app ++ [ref]) app) ;;
  mret this.

(** [noopIdentifier = ContextScope.stringify(noopScope)] *)
Definition noopIdentifier : string :=
  default "" (ContextScope.stringify ContextScope.noopScope).

(** [[\\./]]: the characters in front of which a path is split. *)
Definition is_separator (c : ascii) : bool :=
  Ascii.eqb c "\" || Ascii.eqb c "." || Ascii.eqb c "/".

(** [command.parent = parent; parent.children.push(command)] *)
Definition adopt (parent command : CommandRef) : M unit :=
  write command (with_parent (Some parent)) ;;
  write parent (fun c => with_children (children c ++ [command]) c).

(** The callback of [segments.forEach] in [command], with the variable
    [parent] that it reads and assigns as argument and result. *)
Definition command_segment (this : Context.t) (declaration : string)
    (parent : option CommandRef) (segment : string) : M (option CommandRef) :=
  let code := JS.charCodeAt0 segment in
  name ← (if decide (code = Some 46%nat) then
            match parent with
            | Some parent => obj ← read parent; mret (name obj +:+ segment)
            | None => throw type_error
            end
          else if decide (code = Some 47%nat) then mret (JS.slice_from segment 1)
          else mret segment);
  app ← get;
  match _commandMap app !! name with
  | Some command =>
      match parent with
      | Some parent =>
          if decide (command = parent) then throw INVALID_SUBCOMMAND
          else
            obj ← read command;
            match Registry.parent obj with
            | Some parent' =>
                if decide (parent' = parent) then mret tt else throw INVALID_SUBCOMMAND
            | None =>
                above ← read parent;
                match Context.contain (context above) (context obj) with
                | Some true => adopt parent command
                | Some false => throw INVALID_CONTEXT
                | None => throw type_error
                end
            end
      | None => mret tt
      end ;;
      mret (Some command)
  | None =>
      context ← match parent with
                | Some parent =>
                    above ← read parent;
                    match Context.intersect this (Registry.context above) with
                    | Some context => mret context
                    | None => throw type_error
                    end
                | None => mret this
                end;
      if String.eqb (Context.identifier context) noopIdentifier
      then throw INVALID_CONTEXT
      else
        command ← new_Command name declaration context ∅;
        match parent with
        | Some parent => adopt parent command
        | None => mret tt
        end ;;
        mret (Some command)
  end.

(** The loop over the segments. *)
Fixpoint command_segments (this : Context.t) (declaration : string)
    (parent : option CommandRef) (segments : list string) : M (option CommandRef) :=
  match segments with
  | [] => mret parent
  | segment :: rest =>
      parent ← command_segment this declaration parent segment;
      command_segments this declaration parent rest
  end.

(** [command (rawName, description?, config?)] on the context [this]:
    [description] and [config] are [None] when they are not given. *)
Definition command (this : Context.t) (rawName : string) (description : option string)
    (config : option Config) : M CommandRef :=
  let config := default ∅ config in
  let config :=
    match description with
    | Some description => <["description" := config_string description]> config
    | None => config
    end in
  match take 1 (JS.split " " rawName) with
  | path :: _ =>
      let declaration := JS.slice_from rawName (String.length path) in
      let segments := JS.split_before is_separator (JS.toLowerCase path) in
      parent ← command_segments this declaration None segments;
      match parent with
      | Some parent =>
          write parent (fun c => with_config (config ∪ Registry.config c) c) ;;
          mret parent
      | None => throw type_error
      end
  | [] => throw type_error
  end.

(** [subcommand (rawName, description?, config?)] of a command *)
Definition subcommand (this : CommandRef) (rawName : string) (description : option string)
    (config : option Config) : M CommandRef :=
  obj ← read this;
  let rawName :=
    name obj +:+ (if decide (JS.charCodeAt0 rawName = Some 46%nat) then "" else "/")
             +:+ rawName in
  command (context obj) rawName description config.

(** [_getCommandByRawName (name)] *)
Definition _getCommandByRawName (name : string) (app : App) : option CommandRef :=
  let index := JS.lastIndexOf name "/" in
  _commandMap app !! JS.toLowerCase (JS.slice_from name (Z.to_nat (index + 1))).

(** What [dispose] does once the children are dealt with: the
    shortcuts, the aliases, [app._commands], and the children of the
    parent. *)
Definition unregister (this : CommandRef) : M unit :=
  obj ← read this;
  forEach
    (fun '(name, shortcut) =>
       modify (fun app =>
                 set_shortcuts (shortcutObjects app) (delete name (_shortcutMap app))
                   (JS.splice1 (JS.Array_indexOf (shortcutList app) shortcut)
                               (shortcutList app)) app))
    (_shortcuts obj) ;;
  forEach
    (fun name => modify (fun app => set_commandMap (delete name (_commandMap app)) app))
    (_aliases obj) ;;
  modify (fun app =>
            set_commands (JS.splice1 (JS.Array_indexOf (_commands app) this)
                                     (_commands app)) app) ;;
  match parent obj with
  | Some parent =>
      write parent
        (fun c => with_children
                    (JS.splice1 (JS.Array_indexOf (children c) this) (children c)) c)
  | None => mret tt
  end.

(** [dispose ()].  The loop over [this.children] goes by position
    through the array as it is at each turn, and a child that is
    disposed takes itself out of that array. *)
Fixpoint dispose (fuel : nat) (this : CommandRef) {struct fuel} : M unit :=
  match fuel with
  | O => fun app => (app, unfinished)
  | S fuel => dispose_children fuel this 0 ;; unregister this
  end

with dispose_children (fuel : nat) (this : CommandRef) (i : nat) {struct fuel} : M unit :=
  match fuel with
  | O => fun app => (app, unfinished)
  | S fuel =>
      obj ← read this;
      match children obj !! i with
      | Some cmd => dispose fuel cmd ;; dispose_children fuel this (S i)
      | None => mret tt
      end
  end.

End Registry.

(** ** Vocabulary of the properties, and inputs for their examples *)

(** *** Scope algebra *)

(** A subscope the combinators accept: a list is present on one side at
    least.  (The specification asks for exactly one; [inverse] itself
    returns an empty list next to the include list.) *)
Definition well_formed_sub (s : Subscope) : Prop :=
  is_Some (fst s) \/ is_Some (snd s).

(** A scope descriptor: one well-formed subscope per dimension. *)
Definition well_formed (ctx : Context.t) : Prop :=
  length (Context._scope ctx) = 3%nat /\ Forall well_formed_sub (Context._scope ctx).

(** The event carries a dimension tag. *)
Definition tagged (meta : option Meta) : Prop :=
  exists m type, meta = Some m /\ ctxType m = Some type.

(** What a combinator does on one dimension: it accepts every pair of
    well-formed subscopes and combines their predicates by [op]. *)
Definition combines (f : Subscope -> Subscope -> option Subscope)
    (op : bool -> bool -> bool) : Prop :=
  forall s1 s2, well_formed_sub s1 -> well_formed_sub s2 ->
    exists r, f s1 s2 = Some r /\ well_formed_sub r /\
      forall id, exists a b,
        Context.match_sub s1 id = Some a /\ Context.match_sub s2 id = Some b /\
        Context.match_sub r id = Some (op a b).

(** The context of [app]: nothing excluded in any dimension. *)
Definition everyone : Context.t :=
  {| Context.identifier := "user-;group-;discuss-";
     Context._scope := [(None, Some []); (None, Some []); (None, Some [])] |}.

(** An event without a dimension tag, as lifecycle events are. *)
Definition untagged_event : Meta :=
  {| ctxType := None; ctxId := 0; userId := 1; groupId := 0; anonymous := false;
     _argv := None; _user := None; _group := None |}.

(** Everyone but id 1, and everyone but ids 1 and 2, in each dimension. *)
Definition all_but_1 : Context.t :=
  {| Context.identifier := "user-1;group-1;discuss-1";
     Context._scope := [(None, Some [1]); (None, Some [1]); (None, Some [1])] |}.

Definition all_but_1_2 : Context.t :=
  {| Context.identifier := "user-1,2;group-1,2;discuss-1,2";
     Context._scope := [(None, Some [1; 2]); (None, Some [1; 2]); (None, Some [1; 2])] |}.

(** *** Strings and the identifier pattern *)

(** The characters of a string all satisfy [p]. *)
Fixpoint all_chars (p : ascii -> bool) (s : string) : bool :=
  match s with
  | EmptyString => true
  | String c s' => p c && all_chars p s'
  end.

Definition is_not (sep : ascii) (c : ascii) : bool := negb (Ascii.eqb c sep).

(** A non-empty string of digits: a match of [\d+]. *)
Definition digit_string (s : string) : bool :=
  ContextScope.nonempty s && all_chars JS.is_digit s.

(** What [id_list] accepts, segment by segment: a first segment that may
    be empty unless a digit is expected, then digit strings. *)
Definition first_segment (expect_digit : bool) (seg : string) : bool :=
  all_chars JS.is_digit seg && (negb expect_digit || ContextScope.nonempty seg).

(** The parts of [identifier_re]. *)
Definition digits_re : RegExp.regex := RegExp.Plus (RegExp.Class JS.is_digit).

Definition id_list_re : RegExp.regex :=
  RegExp.Cat digits_re (RegExp.Star (RegExp.Cat (RegExp.Lit ",") digits_re)).

Definition type_re : RegExp.regex :=
  RegExp.Alt (RegExp.Lit "user") (RegExp.Alt (RegExp.Lit "group") (RegExp.Lit "discuss")).

Definition sign_re : RegExp.regex := RegExp.Alt (RegExp.Lit "+") (RegExp.Lit "-").

(** The grammar [(direct|group|discuss)([+-]id(,id)* )?], with [direct]
    as the name of the first dimension and an id a non-empty string of
    digits. *)
Definition claimed_re : RegExp.regex :=
  RegExp.Cat
    (RegExp.Alt (RegExp.Lit "direct")
       (RegExp.Alt (RegExp.Lit "group") (RegExp.Lit "discuss")))
    (RegExp.Opt (RegExp.Cat sign_re id_list_re)).

(** The id list of a subscope in print: [idList.join(',')]. *)
Definition print_ids (ids : list Z) : string :=
  JS.join "," (map JS.Number_toString ids).

(** A subscope that [stringify] prints in a form [parse] reads back: one
    side [null], the other a non-empty list of non-negative safe
    integers. *)
Definition canonical_sub (s : Subscope) : Prop :=
  exists ids, ids <> [] /\ Forall (fun id => 0 <= id <= JS.MAX_SAFE_INTEGER) ids /\
    (s = (Some ids, None) \/ s = (None, Some ids)).

(** *** Command execution *)

(** The state of an invocation tells whether a call of the continuation
    has failed: it is the marker as long as every call so far has
    returned, and empty from the first call that threw. *)
Definition attributed (env : Command.Env) (r : Command.Run) : Prop :=
  (Command.state r = "before command" /\
     forall n, (n < Command.calls_of_next r)%nat -> Command.next env n = None) \/
  (Command.state r = "" /\
     exists n, (n < Command.calls_of_next r)%nat /\ Command.next env n <> None).

(** Registering callbacks in order, none prepended:
    [cmd.action(a1).action(a2)...]. *)
Definition register (callbacks : list Command.Action) (cmd : Command.t) : Command.t :=
  foldl (fun cmd callback => Command.action callback false cmd) cmd callbacks.

(** The behaviour ends by returning [v], whatever the continuation does. *)
Definition returns (env : Command.Env) (b : Command.Behaviour)
    (v : option string) : Prop :=
  forall r, snd (Command.run env b r) = Command.Resolved v.

(** A command without actions, three actions that return on the spot,
    and invocations in which the continuation returns, or throws. *)
Definition no_actions : Command.t := {| Command._actions := [] |}.

Definition returning (label : string) (v : option string) : Command.Action :=
  {| Command.label := label;
     Command.call := fun _ => Command.Finish (Command.Resolved v) |}.

Definition boom : Error := {| stack := "Error: boom" |}.

Definition some_argv : Command.Argv :=
  {| Command.options := []; Command.source := "echo hi"; Command.stringified := "echo hi" |}.

Definition continuation_returns : Command.Env :=
  {| Command.before_command := fun _ => Command.Finish (Command.Resolved None);
     Command.next := fun _ => None;
     Command.lastCall := "" |}.

Definition continuation_throws : Command.Env :=
  {| Command.before_command := fun _ => Command.Finish (Command.Resolved None);
     Command.next := fun _ => Some boom;
     Command.lastCall := "" |}.

(** An action that throws, one that awaits the continuation without
    catching, and one that awaits the continuation and throws once it
    has returned. *)
Definition throwing : Command.Action :=
  {| Command.label := "throwing";
     Command.call := fun _ => Command.Finish (Command.Rejected boom) |}.

Definition forwarding : Command.Action :=
  {| Command.label := "forwarding";
     Command.call := fun _ =>
       Command.AwaitNext (Command.Finish (Command.Resolved None))
                         (fun e => Command.Finish (Command.Rejected e)) |}.

Definition throwing_after_next : Command.Action :=
  {| Command.label := "throwing after next";
     Command.call := fun _ =>
       Command.AwaitNext (Command.Finish (Command.Rejected boom))
                         (fun e => Command.Finish (Command.Rejected e)) |}.

(** An action that awaits the continuation, catches what it throws, and
    then throws an error of its own. *)
Definition late : Error := {| stack := "Error: late" |}.

Definition throwing_after_catch : Command.Action :=
  {| Command.label := "throwing after catch";
     Command.call := fun _ =>
       Command.AwaitNext (Command.Finish (Command.Resolved None))
                         (fun _ => Command.Finish (Command.Rejected late)) |}.

(** *** The entity cache *)

(** What plugin code does with the sender's entity of one event: bind or
    complete it ([observeUser]), assign to a field of [meta.$user], and
    flush it ([meta.$user._update()]). *)
Inductive UserOp : Type :=
| op_observeUser (fields : list string) (now : Z)
| op_set (key : string) (value : Z)
| op_update.

Definition bind_user (meta : Meta) (u : Observed) : Meta :=
  {| ctxType := ctxType meta; ctxId := ctxId meta; userId := userId meta;
     groupId := groupId meta; anonymous := anonymous meta; _argv := _argv meta;
     _user := Some u; _group := _group meta |}.

(** One operation on the world and the event; assigning to a field of an
    unbound [meta.$user] throws and changes nothing. *)
Definition user_step (options : AppOptions) (db : Database) (op : UserOp)
    (st : World * Meta) : World * Meta :=
  let '(w, meta) := st in
  match op with
  | op_observeUser fields now =>
      let '(w, meta, _) := Context.observeUser options db now meta fields w in (w, meta)
  | op_set key value =>
      match _user meta with
      | Some u => let '(u, w) := Observed_set key value u w in (w, bind_user meta u)
      | None => (w, meta)
      end
  | op_update =>
      match _user meta with
      | Some u => let '(u, w) := Observed_update u w in (w, bind_user meta u)
      | None => (w, meta)
      end
  end.

Definition user_steps (options : AppOptions) (db : Database) (ops : list UserOp)
    (st : World * Meta) : World * Meta :=
  foldl (fun st op => user_step options db op st) st ops.

(** A storage that returns the requested fields and nothing else, an
    empty world, and three events of user 7: an ordinary one, one in
    group 3 and an anonymous one. *)
Definition exact_storage : Database :=
  {| user_record := fun _ id fields => list_to_map (map (fun f => (f, id)) fields);
     group_record := fun _ id fields => list_to_map (map (fun f => (f, id)) fields) |}.

Definition one_minute : AppOptions :=
  {| userCacheTimeout := 60000; groupCacheTimeout := 60000;
     defaultAuthority := authority_value (Some 1) |}.

Definition empty_world : World :=
  {| heap := []; userCache := ∅; groupCache := ∅; calls := [] |}.

Definition event_of_7 : Meta :=
  {| ctxType := Some user; ctxId := 7; userId := 7; groupId := 0; anonymous := false;
     _argv := None; _user := None; _group := None |}.

Definition event_in_group_3 : Meta :=
  {| ctxType := Some group; ctxId := 3; userId := 7; groupId := 3; anonymous := false;
     _argv := None; _user := None; _group := None |}.

Definition anonymous_event : Meta :=
  {| ctxType := Some group; ctxId := 3; userId := 7; groupId := 3; anonymous := true;
     _argv := None; _user := None; _group := None |}.

(** What holds of an anonymous event throughout: the bound entity, if
    any, has no write-back target. *)
Definition unwritten (w0 : World) (st : World * Meta) : Prop :=
  anonymous (snd st) = true /\
  calls (fst st) = calls w0 /\
  userCache (fst st) = userCache w0 /\
  groupCache (fst st) = groupCache w0 /\
  forall u, _user (snd st) = Some u -> update u = None.

(** *** Hooks *)

(** How many entries of a list of hooks hold the closure [k] of [once],
    and how often a callback has been called. *)
Definition wrappers_in (k : nat) (hooks : list Context.Hook) : nat :=
  length (List.filter
            (fun hook => bool_decide (Context.hook_callback hook = Context.once_wrapper k))
            hooks).

Definition times_invoked (callback : Context.Callback) (app : Context.App) : nat :=
  count_occ Context.Callback_eq_dec (Context.invoked app) callback.

(** What registration and dispatch maintain: a closure of [once] sits
    only in the list of the event it was registered for, under the
    context it was registered on; it has been called and is still
    registered at most once, all in all; and only closures that exist
    have been called. *)
Definition once_invariant (app : Context.App) : Prop :=
  (forall name hook k,
     hook ∈ Context.hooks_of app name ->
     Context.hook_callback hook = Context.once_wrapper k ->
     exists closure, Context.closures app !! k = Some closure /\
       Context.closure_name closure = name /\
       Context.address (Context.closure_this closure)
         = Context.address (Context.hook_context hook)) /\
  (forall k closure,
     Context.closures app !! k = Some closure ->
     (times_invoked (Context.once_wrapper k) app
      + wrappers_in k (Context.hooks_of app (Context.closure_name closure)) <= 1)%nat) /\
  (forall k, In (Context.once_wrapper k) (Context.invoked app) ->
     (k < length (Context.closures app))%nat).

(** The application before any registration. *)
Definition new_app : Context.App :=
  {| Context._hooks := ∅; Context.closures := []; Context.invoked := [] |}.

(** The states that plugin code can bring about. *)
Definition reachable (app : Context.App) : Prop :=
  exists fuel bodies ops, app = fst (Context.run_ops fuel bodies ops new_app).

(** A context object, listeners that dispatch the event they listen to
    and throw, and a program that registers three listeners, one of them
    with [once], and dispatches the event twice. *)
Definition root : Context.Instance :=
  {| Context.address := 0; Context.fields := everyone |}.

Definition redispatching (f : nat) : Context.Body :=
  match f with
  | 0%nat => {| Context.steps := [Context.call_bail None "ready"];
                Context.completion := Context.throws |}
  | _ => {| Context.steps := []; Context.completion := Context.returns_ false |}
  end.

Definition two_dispatches : list Context.Op :=
  [Context.call_on root "ready" 1; Context.call_once root "ready" 0;
   Context.call_on root "ready" 2;
   Context.try_catch (Context.call_bail None "ready");
   Context.call_bail None "ready"].

(** *** Fan-out dispatch *)

(** The hooks of an event whose context matches [meta], and the tasks
    that their listeners return. *)
Definition matching (meta : option Meta) (hooks : list Context.Hook) : list Context.Hook :=
  List.filter
    (fun hook =>
       bool_decide (Context.match_ (Context.fields (Context.hook_context hook)) meta
                    = Some true))
    hooks.

Definition tasks_of (call : Context.Callback -> Context.Called)
    (hooks : list Context.Hook) : list Context.Promise :=
  omap (fun hook =>
          match call (Context.hook_callback hook) with
          | Context.returned task => Some task
          | Context.threw _ => None
          end) hooks.

(** Two listeners on one event: the operation of the first fails at
    tick 1, that of the second is fulfilled at tick 5; and the same with
    a first listener that throws when called. *)
Definition two_hooks : Context.App :=
  Context.addListener root "message" (Context.listener 1)
    (Context.addListener root "message" (Context.listener 0) new_app).

Definition fails_early (callback : Context.Callback) : Context.Called :=
  match callback with
  | Context.listener 0 =>
      Context.returned {| Context.settles_at := 1; Context.settlement := Context.rejected boom |}
  | _ =>
      Context.returned {| Context.settles_at := 5; Context.settlement := Context.fulfilled |}
  end.

Definition throws_at_once (callback : Context.Callback) : Context.Called :=
  match callback with
  | Context.listener 0 => Context.threw boom
  | _ =>
      Context.returned {| Context.settles_at := 5; Context.settlement := Context.fulfilled |}
  end.

(** *** Identifiers *)

(** A subscope with exactly one side, as [parse] makes them. *)
Definition one_sided (s : Subscope) : Prop :=
  (exists ids, s = (Some ids, None)) \/ (exists ids, s = (None, Some ids)).

(** The characters of a number in print: digits and the minus sign. *)
Definition is_number_char (c : ascii) : bool := JS.is_digit c || Ascii.eqb c "-".

(** The same ids in include form, with and without an empty exclude list
    beside them. *)
Definition only_1 : ContextScope.t :=
  [(Some [1], None); (Some [1], None); (Some [1], None)].

Definition only_1' : ContextScope.t :=
  [(Some [1], Some []); (Some [1], Some []); (Some [1], Some [])].

(** *** Dispatch over listeners that leave the hooks alone *)

(** A hook whose callback is a plain listener that registers, removes
    and dispatches nothing and completes with [c]. *)
Definition plain (bodies : nat -> Context.Body) (hook : Context.Hook)
    (c : Context.Completion) : Prop :=
  exists f, Context.hook_callback hook = Context.listener f /\
    bodies f = {| Context.steps := []; Context.completion := c |}.

(** A hook that [bail] passes over: its context does not match the
    event, or its listener returns a falsy value. *)
Definition passed_over (bodies : nat -> Context.Body) (meta : option Meta)
    (hook : Context.Hook) : Prop :=
  Context.match_ (Context.fields (Context.hook_context hook)) meta = Some false \/
  (Context.match_ (Context.fields (Context.hook_context hook)) meta = Some true /\
   plain bodies hook (Context.returns_ false)).

Definition record_invocations (callbacks : list Context.Callback) (app : Context.App)
    : Context.App :=
  foldl (fun app callback => Context.record_invocation callback app) app callbacks.

Definition outcome_of (c : Context.Completion) : Context.Outcome :=
  match c with
  | Context.returns_ truthy => Context.normal truthy
  | Context.throws => Context.exception
  end.

(** Listeners 1 and 2 return a falsy and a truthy value, any other one
    throws. *)
Definition answering (f : nat) : Context.Body :=
  match f with
  | 1%nat => {| Context.steps := []; Context.completion := Context.returns_ false |}
  | 2%nat => {| Context.steps := []; Context.completion := Context.returns_ true |}
  | _ => {| Context.steps := []; Context.completion := Context.throws |}
  end.

Definition three_hooks : Context.App :=
  Context.on root "message" (Context.listener 3)
    (Context.on root "message" (Context.listener 2)
       (Context.on root "message" (Context.listener 1) new_app)).

(** *** The logged stack *)

(** [t] occurs in [s] at position [n]; it occurs there first; it does
    not occur. *)
Definition occurs_at (t s : string) (n : nat) : Prop :=
  exists pre post, s = pre +:+ t +:+ post /\ String.length pre = n.

Definition first_at (t s : string) (n : nat) : Prop :=
  occurs_at t s n /\ forall m, occurs_at t s m -> (n <= m)%nat.

Definition absent (t s : string) : Prop := forall n, ~ occurs_at t s n.

(** An error whose stack has the line of the call site, an invocation
    with [prettyErrors] on, for that call site and for one that is not
    in the stack, and an action that throws that error. *)
Definition traced : Error :=
  {| stack := "Error: boom" +:+ String "010" "  at action" +:+ String "010" "  at caller"
              +:+ String "010" "  at main" |}.

Definition pretty (lastCall : string) : Command.Env :=
  {| Command.before_command := fun _ => Command.Finish (Command.Resolved None);
     Command.next := fun _ => None;
     Command.lastCall := lastCall |}.

(** An invocation in which a [before-command] listener answers. *)
Definition vetoed : Command.Env :=
  {| Command.before_command := fun _ => Command.Finish (Command.Resolved (Some "denied"));
     Command.next := fun _ => None;
     Command.lastCall := "" |}.

(** *** Requests to the entity cache *)

(** The fields that a call asks for: those of its argument and, when the
    event has a parsed command line, those that the command collects. *)
Definition requested (fields : list string) (collected : option (list string))
    : list string :=
  match collected with
  | Some more => foldl (fun fieldSet field => Set_add field fieldSet) (Set_new fields) more
  | None => Set_new fields
  end.

(** No record that exists in [w], but for [bound], differs in [w']. *)
Definition records_kept (bound : option Observed) (w w' : World) : Prop :=
  forall ref, (ref < length (heap w))%nat ->
    (forall entity, bound = Some entity -> ref <> target entity) ->
    deref w' ref = deref w ref.

(** The calls of the storage collaborator grow by at most one call,
    which is [call]. *)
Definition at_most (call : DbCall -> Prop) (w w' : World) : Prop :=
  calls w' = calls w \/ exists c, calls w' = calls w ++ [c] /\ call c.

(** An event in group 3 whose command collects the field [flag], and a
    world in which user 7 was fetched at time 1000. *)
Definition collecting_event : Meta :=
  {| ctxType := Some group; ctxId := 3; userId := 7; groupId := 3; anonymous := false;
     _argv := Some {| collected_user := ["name"]; collected_group := ["flag"; "x"] |};
     _user := None; _group := None |}.

Definition fetched_at_1000 : World :=
  fst (fst (Context.observeUser one_minute exact_storage 1000 event_of_7 ["x"] empty_world)).

(** *** The registry of commands *)

(** Every name that is registered in [app] is registered in [app'], for
    the same command. *)
Definition names_kept (app app' : Registry.App) : Prop :=
  forall name command,
    Registry._commandMap app !! name = Some command ->
    Registry._commandMap app' !! name = Some command.

(** Every object of [app] is an object of [app'], under the same name
    and with the same context. *)
Definition objects_kept (app app' : Registry.App) : Prop :=
  forall command obj,
    Registry.objects app !! command = Some obj ->
    exists obj', Registry.objects app' !! command = Some obj' /\
      Registry.name obj' = Registry.name obj /\
      Registry.context obj' = Registry.context obj.

(** The registries before any registration. *)
Definition no_commands : Registry.App :=
  {| Registry.objects := []; Registry.shortcutObjects := [];
     Registry._commandMap := ∅; Registry._commands := [];
     Registry._shortcutMap := ∅; Registry.shortcutList := [] |}.

(** Registration only adds: names, objects and the list of commands of
    [app] are kept in [app']. *)
Definition extends (app app' : Registry.App) : Prop :=
  names_kept app app' /\ objects_kept app app' /\
  Registry._commands app `prefix_of` Registry._commands app'.

(** The part of a path behind its last ['/'], the whole path when it has
    none: [name.slice(name.lastIndexOf('/') + 1)]. *)
Definition after_last_slash (path : string) : string :=
  JS.slice_from path (Z.to_nat (JS.lastIndexOf path "/" + 1)).

(** The first word of a declaration: [rawName.split(' ', 1)[0]]. *)
Definition path_of (rawName : string) : string :=
  match take 1 (JS.split " " rawName) with
  | path :: _ => path
  | [] => ""
  end.

(** A path whose segments are set apart by ['/'] alone. *)
Definition slashes_only (path : string) : bool :=
  all_chars (fun c => negb (Ascii.eqb c "." || Ascii.eqb c "\")) path.

(** The last segment of a path: the part from the last separator on,
    the whole path when no separator stands behind its first
    character. *)
Fixpoint last_separator (p : ascii -> bool) (s : string) : option string :=
  match s with
  | EmptyString => None
  | String c s' =>
      match last_separator p s' with
      | Some t => Some t
      | None => if p c then Some (String c s') else None
      end
  end.

(** The name of a segment that does not start with ['.']:
    [code === 47 ? segment.slice(1) : segment]. *)
Definition segment_name (segment : string) : string :=
  if decide (JS.charCodeAt0 segment = Some 47%nat) then JS.slice_from segment 1
  else segment.

(** A string without letters in upper case. *)
Definition lower_case (s : string) : bool :=
  all_chars (fun c => Ascii.eqb (JS.toLowerCase_char c) c) s.

(** The registries after [command("Tools/Echo <text>")] on the context
    of the application: the commands [tools] (object 0) and [echo]
    (object 1). *)
Definition tools_echo : Registry.App :=
  fst (Registry.command everyone "Tools/Echo <text>" None None no_commands).

(** The invariants of the command tree: every command has a well-formed
    context; every registered name stands for a command; the context of
    a parent contains the context of its child, and the child is among
    the children of its parent; the children of a command are listed
    once each and have it as their parent. *)
Definition tree_invariant (app : Registry.App) : Prop :=
  (forall c obj, Registry.objects app !! c = Some obj ->
     well_formed (Registry.context obj)) /\
  (forall n c, Registry._commandMap app !! n = Some c ->
     is_Some (Registry.objects app !! c)) /\
  (forall c obj p,
     Registry.objects app !! c = Some obj -> Registry.parent obj = Some p ->
     exists above, Registry.objects app !! p = Some above /\
       Context.contain (Registry.context above) (Registry.context obj) = Some true /\
       c ∈ Registry.children above) /\
  (forall p above, Registry.objects app !! p = Some above ->
     NoDup (Registry.children above) /\
     forall c, c ∈ Registry.children above ->
       exists obj, Registry.objects app !! c = Some obj /\ Registry.parent obj = Some p).

(** Disposal only removes: a name that is free in [app] is free in
    [app'], and every object of [app] is an object of [app'] with the
    same aliases, shortcuts and parent. *)
Definition only_removes (app app' : Registry.App) : Prop :=
  (forall name, Registry._commandMap app !! name = None ->
                Registry._commandMap app' !! name = None) /\
  (forall command obj,
     Registry.objects app !! command = Some obj ->
     exists obj', Registry.objects app' !! command = Some obj' /\
       Registry._aliases obj' = Registry._aliases obj /\
       Registry._shortcuts obj' = Registry._shortcuts obj /\
       Registry.parent obj' = Registry.parent obj).

(** The elements of a list at its second, fourth, ... place. *)
Fixpoint alternate {A : Type} (l : list A) : list A :=
  match l with
  | _ :: x :: rest => x :: alternate rest
  | _ => []
  end.

(** A command with four subcommands, [a], [b], [c] and [d] (objects 1
    to 4) of [tools] (object 0). *)
Definition four_subcommands : Registry.App :=
  fst (Registry.subcommand 0 "d" None None
    (fst (Registry.subcommand 0 "c" None None
      (fst (Registry.subcommand 0 "b" None None
        (fst (Registry.subcommand 0 "a" None None
          (fst (Registry.command everyone "tools" None None no_commands))))))))).

(* ===================================================================== *)
(** * Part II: properties *)
(* ===================================================================== *)

(** ** Scope algebra *)

Section ScopeAlgebra.

Import Utils.

Lemma includes_In l x : includes l x = true <-> In x l.
Proof.
  unfold includes. rewrite existsb_exists. split.
  - intros (y & Hy & Heq). apply Z.eqb_eq in Heq. now subst.
  - intros H. exists x. split; [assumption | apply Z.eqb_refl].
Qed.

Lemma includes_filter (p : Z -> bool) l x :
  includes (List.filter p l) x = includes l x && p x.
Proof.
  apply eq_true_iff_eq. rewrite andb_true_iff, !includes_In, filter_In. tauto.
Qed.

Lemma includes_intersection a b x :
  includes (intersection a b) x = includes a x && includes b x.
Proof. apply includes_filter. Qed.

Lemma includes_difference a b x :
  includes (difference a b) x = includes a x && negb (includes b x).
Proof. apply (includes_filter (fun item => negb (includes b item))). Qed.

Lemma includes_app a b x : includes (a ++ b) x = includes a x || includes b x.
Proof. apply existsb_app. Qed.

Lemma includes_uniq seen l x :
  includes (uniq seen l) x = includes l x && negb (includes seen x).
Proof.
  revert seen. induction l as [|y l IH]; intros seen; simpl; [reflexivity|].
  destruct (includes seen y) eqn:Hy.
  - rewrite IH. destruct (Z.eqb_spec x y) as [->|]; simpl; [|reflexivity].
    rewrite Hy. simpl. now rewrite andb_false_r.
  - simpl. rewrite IH. simpl.
    destruct (Z.eqb_spec x y) as [->|]; simpl.
    + rewrite Hy. reflexivity.
    + reflexivity.
Qed.

Lemma includes_union a b x : includes (union a b) x = includes a x || includes b x.
Proof.
  unfold union. rewrite includes_uniq, includes_app. simpl. now rewrite andb_true_r.
Qed.

End ScopeAlgebra.

Ltac sub_cases :=
  intros [[i1|] [e1|]] [[i2|] [e2|]] [[? H1]|[? H1]] [[? H2]|[? H2]];
  simpl in H1, H2; try discriminate;
  (eexists; split; [reflexivity | split; [(left + right); simpl; eauto |]]);
  intros id; simpl; do 2 eexists; (split; [reflexivity | split; [reflexivity |]]);
  rewrite ?includes_intersection, ?includes_difference, ?includes_union;
  f_equal;
  repeat match goal with |- context [Utils.includes ?l id] =>
    destruct (Utils.includes l id) end; reflexivity.

Lemma plus_sub_combines : combines Context.plus_sub orb.
Proof. unfold combines. sub_cases. Qed.

Lemma minus_sub_combines : combines Context.minus_sub (fun a b => a && negb b).
Proof. unfold combines. sub_cases. Qed.

Lemma intersect_sub_combines : combines Context.intersect_sub andb.
Proof. unfold combines. sub_cases. Qed.

Lemma inverse_sub_negates s :
  well_formed_sub s ->
  exists r, Context.inverse_sub s = Some r /\ well_formed_sub r /\
    forall id, exists a, Context.match_sub s id = Some a /\
      Context.match_sub r id = Some (negb a).
Proof.
  destruct s as [[i|] [e|]]; intros [[? H]|[? H]]; simpl in H; try discriminate;
    (eexists; split; [reflexivity | split; [(left + right); simpl; eauto |]]);
    intros id; simpl; eexists; (split; [reflexivity |]);
    now rewrite ?negb_involutive.
Qed.

Lemma stringify_sub_wf index s :
  well_formed_sub s -> is_Some (ContextScope.stringify_sub index s).
Proof.
  destruct s as [[i|] [e|]]; intros [[? H]|[? H]]; simpl in H; try discriminate;
    simpl; eauto.
Qed.

Lemma stringify_from_wf scope : forall index,
  Forall well_formed_sub scope -> is_Some (ContextScope.stringify_from index scope).
Proof.
  induction scope as [|s scope IH]; intros index H; simpl; [eauto|].
  inversion H as [|? ? Hs Hrest]; subst.
  destruct (stringify_sub_wf index s Hs) as [seg ->].
  destruct (IH (S index) Hrest) as [segs ->]. simpl. eauto.
Qed.

Lemma createContext_wf scope :
  Forall well_formed_sub scope ->
  exists ctx, Context.createContext scope = Some ctx /\ Context._scope ctx = scope.
Proof.
  intros H. unfold Context.createContext, ContextScope.stringify.
  destruct (stringify_from_wf scope 0 H) as [segs ->]. simpl. eauto.
Qed.

Lemma scope_of_three (ctx : Context.t) :
  well_formed ctx ->
  exists s0 s1 s2, Context._scope ctx = [s0; s1; s2] /\
    well_formed_sub s0 /\ well_formed_sub s1 /\ well_formed_sub s2.
Proof.
  intros [Hlen Hall]. destruct (Context._scope ctx) as [|s0 [|s1 [|s2 [|]]]];
    try discriminate.
  exists s0, s1, s2. repeat (apply Forall_cons_1 in Hall as [? Hall]). auto.
Qed.

Lemma binary_law f op (make : Context.t -> Context.t -> option Context.t) :
  combines f op ->
  (forall A B, make A B =
     Context.map_with f 0 (Context._scope A) (Context._scope B) ≫= Context.createContext) ->
  forall A B, well_formed A -> well_formed B ->
  exists C, make A B = Some C /\ well_formed C /\
    forall m type, ctxType m = Some type ->
    exists a b, Context.match_ A (Some m) = Some a /\
      Context.match_ B (Some m) = Some b /\
      Context.match_ C (Some m) = Some (op a b).
Proof.
  intros Hf Hmake A B HA HB. rewrite Hmake.
  destruct (scope_of_three A HA) as (a0 & a1 & a2 & EA & Ha0 & Ha1 & Ha2).
  destruct (scope_of_three B HB) as (b0 & b1 & b2 & EB & Hb0 & Hb1 & Hb2).
  rewrite EA, EB.
  destruct (Hf a0 b0 Ha0 Hb0) as (r0 & E0 & W0 & M0).
  destruct (Hf a1 b1 Ha1 Hb1) as (r1 & E1 & W1 & M1).
  destruct (Hf a2 b2 Ha2 Hb2) as (r2 & E2 & W2 & M2).
  simpl. rewrite E0. simpl. rewrite E1. simpl. rewrite E2. simpl.
  destruct (createContext_wf [r0; r1; r2]) as (C & -> & HC);
    [repeat (constructor; [assumption|]); constructor|].
  exists C. split; [reflexivity|]. split.
  { unfold well_formed. rewrite HC. split; [reflexivity | repeat (constructor; [assumption|]); constructor]. }
  intros m type Htype. unfold Context.match_. rewrite Htype, HC, EA, EB.
  destruct type; simpl; [apply M0 | apply M1 | apply M2].
Qed.

Lemma inverse_law A :
  well_formed A ->
  exists V, Context.inverse A = Some V /\ well_formed V /\
    forall m type, ctxType m = Some type ->
    exists a, Context.match_ A (Some m) = Some a /\
      Context.match_ V (Some m) = Some (negb a).
Proof.
  intros HA. unfold Context.inverse.
  destruct (scope_of_three A HA) as (a0 & a1 & a2 & EA & Ha0 & Ha1 & Ha2).
  rewrite EA.
  destruct (inverse_sub_negates a0 Ha0) as (r0 & E0 & W0 & M0).
  destruct (inverse_sub_negates a1 Ha1) as (r1 & E1 & W1 & M1).
  destruct (inverse_sub_negates a2 Ha2) as (r2 & E2 & W2 & M2).
  assert (mapM Context.inverse_sub [a0; a1; a2] = Some [r0; r1; r2]) as ->
    by (cbn; rewrite E0; cbn; rewrite E1; cbn; rewrite E2; reflexivity).
  simpl.
  destruct (createContext_wf [r0; r1; r2]) as (C & -> & HC);
    [repeat (constructor; [assumption|]); constructor|].
  exists C. split; [reflexivity|]. split.
  { unfold well_formed. rewrite HC. split; [reflexivity | repeat (constructor; [assumption|]); constructor]. }
  intros m type Htype. unfold Context.match_. rewrite Htype, HC, EA.
  destruct type; simpl; [apply M0 | apply M1 | apply M2].
Qed.

Lemma match_untagged ctx meta : ~ tagged meta -> Context.match_ ctx meta = Some true.
Proof.
  intros H. destruct meta as [m|]; [|reflexivity]. simpl.
  destruct (ctxType m) as [type|] eqn:E; [|reflexivity].
  exfalso. apply H. exists m, type. auto.
Qed.

Lemma tagged_dec meta : tagged meta \/ ~ tagged meta.
Proof.
  destruct meta as [m|].
  - destruct (ctxType m) as [type|] eqn:E.
    + left. exists m, type. auto.
    + right. intros (m' & type & [= <-] & H). congruence.
  - right. intros (m' & type & [=] & _).
Qed.

(** C1 (as amended).  For well-formed contexts [A] and [B] the four
    combinators return contexts, and for every event [e] (a [null] one
    included): [A.plus(B).match(e)] is [A.match(e) || B.match(e)] and
    [A.intersect(B).match(e)] is [A.match(e) && B.match(e)]; when [e]
    carries a dimension tag, [A.minus(B).match(e)] is
    [A.match(e) && !B.match(e)] and [A.inverse().match(e)] is
    [!A.match(e)]. *)
Theorem combinators_match (A B : Context.t) :
  well_formed A -> well_formed B ->
  exists P M I V,
    Context.plus A B = Some P /\ Context.minus A B = Some M /\
    Context.intersect A B = Some I /\ Context.inverse A = Some V /\
    forall e, exists a b,
      Context.match_ A e = Some a /\ Context.match_ B e = Some b /\
      Context.match_ P e = Some (a || b) /\
      Context.match_ I e = Some (a && b) /\
      (tagged e ->
         Context.match_ M e = Some (a && negb b) /\
         Context.match_ V e = Some (negb a)).
Proof.
  intros HA HB.
  destruct (binary_law _ _ Context.plus plus_sub_combines (fun _ _ => eq_refl) A B HA HB)
    as (P & EP & _ & MP).
  destruct (binary_law _ _ Context.minus minus_sub_combines (fun _ _ => eq_refl) A B HA HB)
    as (M & EM & _ & MM).
  destruct (binary_law _ _ Context.intersect intersect_sub_combines (fun _ _ => eq_refl) A B HA HB)
    as (I & EI & _ & MI).
  destruct (inverse_law A HA) as (V & EV & _ & MV).
  exists P, M, I, V. repeat (split; [assumption|]).
  intros e. destruct (tagged_dec e) as [(m & type & -> & Htype)|Hno].
  - destruct (MP m type Htype) as (a & b & Ea & Eb & EPm).
    destruct (MM m type Htype) as (a' & b' & Ea' & Eb' & EMm).
    destruct (MI m type Htype) as (a'' & b'' & Ea'' & Eb'' & EIm).
    destruct (MV m type Htype) as (a''' & Ea''' & EVm).
    assert (a' = a) by congruence. assert (b' = b) by congruence.
    assert (a'' = a) by congruence. assert (b'' = b) by congruence.
    assert (a''' = a) by congruence. subst.
    exists a, b. auto 10.
  - exists true, true. rewrite !match_untagged by assumption.
    repeat (split; [reflexivity|]). intros; contradiction.
Qed.

Lemma combinators_match_witness :
  exists P M I V,
    Context.plus everyone everyone = Some P /\ Context.minus everyone everyone = Some M /\
    Context.intersect everyone everyone = Some I /\ Context.inverse everyone = Some V /\
    forall e, exists a b,
      Context.match_ everyone e = Some a /\ Context.match_ everyone e = Some b /\
      Context.match_ P e = Some (a || b) /\
      Context.match_ I e = Some (a && b) /\
      (tagged e ->
         Context.match_ M e = Some (a && negb b) /\
         Context.match_ V e = Some (negb a)).
Proof.
  apply (combinators_match everyone everyone);
    (split; [reflexivity | repeat (constructor; [right; simpl; eauto|]); constructor]).
Defined.

(** C1 (as stated) fails on an event without a dimension tag: there
    [match] answers [true] for every context, so the inverse of a
    context matches an event that the context matches too, and the
    difference of a context with itself matches it as well. *)
Lemma combinators_match_untagged_counterexample :
  exists V M,
    Context.inverse everyone = Some V /\ Context.minus everyone everyone = Some M /\
    Context.match_ everyone (Some untagged_event) = Some true /\
    Context.match_ V (Some untagged_event) = Some true /\
    Context.match_ V (Some untagged_event) <> Some (negb true) /\
    Context.match_ M (Some untagged_event) = Some true /\
    Context.match_ M (Some untagged_event) <> Some (true && negb true).
Proof. do 2 eexists. repeat split; try reflexivity; discriminate. Qed.

(** The scenario of the specification: the scope ["user+1,2;group-3"]
    matches users 1 and 2 and not user 5, and every group but group 3. *)
Example scope_scenario :
  exists scope ctx,
    ContextScope.parse "user+1,2;group-3" = Some scope /\
    Context.createContext scope = Some ctx /\
    map (fun '(type, id) =>
           Context.match_ ctx
             (Some {| ctxType := Some type; ctxId := id; userId := id; groupId := id;
                      anonymous := false; _argv := None; _user := None; _group := None |}))
        [(user, 1); (user, 2); (user, 5); (group, 7); (group, 3)]
    = [Some true; Some true; Some false; Some true; Some false].
Proof. do 2 eexists. repeat split. Qed.

Lemma map_with_three f a0 a1 a2 b0 b1 b2 :
  Context.map_with f 0 [a0; a1; a2] [b0; b1; b2] =
  r0 ← f a0 b0; r1 ← f a1 b1; r2 ← f a2 b2; Some [r0; r1; r2].
Proof.
  simpl. destruct (f a0 b0); simpl; [|reflexivity].
  destruct (f a1 b1); simpl; [|reflexivity].
  destruct (f a2 b2); reflexivity.
Qed.

(** C8 (as amended).  In a dimension where both operands are in exclude
    form, [A.minus(B)] is in include form, with
    [difference(exclude2, exclude1)] as include list and [null] as
    exclude list; and [A.inverse()] there has a copy of the exclude list
    of [A] as its include list. *)
Theorem minus_inverse_exclude_form (A B : Context.t) (i : nat) (exclude1 exclude2 : list Z) :
  well_formed A -> well_formed B ->
  Context._scope A !! i = Some (None, Some exclude1) ->
  Context._scope B !! i = Some (None, Some exclude2) ->
  exists M V other,
    Context.minus A B = Some M /\
    Context._scope M !! i = Some (Some (Utils.difference exclude2 exclude1), None) /\
    Context.inverse A = Some V /\
    Context._scope V !! i = Some (Some exclude1, other).
Proof.
  intros HA HB HiA HiB.
  destruct (binary_law _ _ Context.minus minus_sub_combines (fun _ _ => eq_refl) A B HA HB)
    as (M & EM & _ & _).
  destruct (inverse_law A HA) as (V & EV & _ & _).
  exists M, V. pose proof EM as EM'. pose proof EV as EV'.
  destruct (scope_of_three A HA) as (a0 & a1 & a2 & EA & Ha0 & Ha1 & Ha2).
  destruct (scope_of_three B HB) as (b0 & b1 & b2 & EB & Hb0 & Hb1 & Hb2).
  unfold Context.minus in EM. unfold Context.inverse in EV.
  rewrite EA in *. rewrite EB in *. rewrite map_with_three in EM.
  destruct (Context.minus_sub a0 b0) as [m0|] eqn:E0; [|discriminate].
  destruct (Context.minus_sub a1 b1) as [m1|] eqn:E1; [|discriminate].
  destruct (Context.minus_sub a2 b2) as [m2|] eqn:E2; [|discriminate].
  cbn in EV.
  destruct (Context.inverse_sub a0) as [v0|] eqn:V0; [|discriminate].
  destruct (Context.inverse_sub a1) as [v1|] eqn:V1; [|discriminate].
  destruct (Context.inverse_sub a2) as [v2|] eqn:V2; [|discriminate].
  change (Context.createContext [m0; m1; m2] = Some M) in EM.
  change (Context.createContext [v0; v1; v2] = Some V) in EV.
  assert (HM : Context._scope M = [m0; m1; m2]).
  { unfold Context.createContext in EM.
    destruct (ContextScope.stringify [m0; m1; m2]); [|discriminate].
    injection EM as <-. reflexivity. }
  assert (HV : Context._scope V = [v0; v1; v2]).
  { unfold Context.createContext in EV.
    destruct (ContextScope.stringify [v0; v1; v2]); [|discriminate].
    injection EV as <-. reflexivity. }
  rewrite HM, HV.
  destruct i as [|[|[|i]]]; simpl in HiA, HiB; try discriminate;
    injection HiA as ->; injection HiB as ->;
    simpl in *;
    repeat match goal with H : Some _ = Some _ |- _ => injection H as <- end;
    eexists; (split; [exact EM'|]); (split; [reflexivity|]);
    (split; [exact EV'|]); reflexivity.
Qed.

Lemma minus_inverse_exclude_form_witness :
  exists M V other,
    Context.minus all_but_1 all_but_1_2 = Some M /\
    Context._scope M !! 0%nat = Some (Some (Utils.difference [1; 2] [1]), None) /\
    Context.inverse all_but_1 = Some V /\
    Context._scope V !! 0%nat = Some (Some [1], other).
Proof.
  apply (minus_inverse_exclude_form all_but_1 all_but_1_2 0 [1] [1; 2]);
    try reflexivity;
    (split; [reflexivity | repeat (constructor; [right; simpl; eauto|]); constructor]).
Defined.

(** C8 (as stated) fails: the difference of two exclude-form subscopes is
    not the exclude-form [(null, difference(exc2, exc1))], and the
    inverse of an exclude-form subscope does not have [null] as its
    second component. *)
Lemma minus_inverse_exclude_form_counterexample :
  Context.minus_sub (None, Some [1]) (None, Some [1; 2])
    <> Some (None, Some (Utils.difference [1; 2] [1])) /\
  Context.minus_sub (None, Some [1]) (None, Some [1; 2]) = Some (Some [2], None) /\
  Context.inverse_sub (None, Some [1]) <> Some (Some [1], None) /\
  Context.inverse_sub (None, Some [1]) = Some (Some [1], Some []).
Proof. repeat split; (reflexivity || discriminate). Qed.

(** ** Strings: [split], [join] and the identifier pattern *)

Lemma string_app_nil_l (s : string) : "" +:+ s = s.
Proof. reflexivity. Qed.

Lemma string_app_cons c (s1 s2 : string) : String c s1 +:+ s2 = String c (s1 +:+ s2).
Proof. reflexivity. Qed.

Ltac app_simpl := rewrite ?string_app_cons, ?string_app_nil_l.

Section Strings.

Import JS.

Lemma string_app_nil_r (s : string) : s +:+ "" = s.
Proof. induction s as [|c s IH]; app_simpl; [reflexivity | now rewrite IH]. Qed.

Lemma all_chars_app p s1 s2 :
  all_chars p (s1 +:+ s2) = all_chars p s1 && all_chars p s2.
Proof.
  induction s1 as [|c s1 IH]; app_simpl; simpl; [reflexivity|].
  now rewrite IH, andb_assoc.
Qed.

Lemma all_chars_impl (p q : ascii -> bool) s :
  (forall c, p c = true -> q c = true) ->
  all_chars p s = true -> all_chars q s = true.
Proof.
  intros Hpq. induction s as [|c s IH]; simpl; [reflexivity|].
  rewrite !andb_true_iff. intros [Hc Hs]. auto.
Qed.

Lemma split_nonempty sep s : split sep s <> [].
Proof.
  induction s as [|c s IH]; simpl; [discriminate|].
  destruct (Ascii.eqb c sep); [discriminate|].
  destruct (split sep s); [contradiction | discriminate].
Qed.

Lemma split_without sep s :
  all_chars (is_not sep) s = true -> split sep s = [s].
Proof.
  induction s as [|c s IH]; simpl; [reflexivity|].
  unfold is_not at 1. rewrite andb_true_iff. intros [Hc Hs].
  apply negb_true_iff in Hc. rewrite Hc, (IH Hs). reflexivity.
Qed.

Lemma split_app sep s rest :
  all_chars (is_not sep) s = true ->
  split sep (s +:+ String sep rest) = s :: split sep rest.
Proof.
  induction s as [|c s IH]; app_simpl; simpl.
  - intros _. now rewrite Ascii.eqb_refl.
  - unfold is_not at 1. rewrite andb_true_iff. intros [Hc Hs].
    apply negb_true_iff in Hc. rewrite Hc, (IH Hs). reflexivity.
Qed.

Lemma split_join sep l :
  l <> [] -> Forall (fun s => all_chars (is_not sep) s = true) l ->
  split sep (join (String sep "") l) = l.
Proof.
  induction l as [|x l IH]; [contradiction|]. intros _ H.
  inversion H as [|? ? Hx Hl]; subst.
  destruct l as [|y l]; simpl.
  - now apply split_without.
  - app_simpl. rewrite split_app by assumption. f_equal. apply IH; [discriminate | assumption].
Qed.

Lemma join_cons2 sep x y l :
  join sep (x :: y :: l) = x +:+ sep +:+ join sep (y :: l).
Proof. reflexivity. Qed.

Lemma join_split sep s : join (String sep "") (split sep s) = s.
Proof.
  induction s as [|c s IH]; simpl; [reflexivity|].
  pose proof (split_nonempty sep s) as Hne.
  destruct (split sep s) as [|y l]; [contradiction|].
  destruct (Ascii.eqb_spec c sep) as [->|Hc].
  - rewrite join_cons2, IH. reflexivity.
  - destruct l as [|z l].
    + simpl in IH |- *. now rewrite IH.
    + rewrite join_cons2 in *.
      rewrite ?string_app_cons, ?string_app_nil_l in *. now rewrite IH.
Qed.

Lemma strip_prefix_app p s : strip_prefix p (p +:+ s) = Some s.
Proof.
  induction p as [|c p IH]; app_simpl; simpl; [reflexivity | now rewrite Ascii.eqb_refl].
Qed.

Lemma strip_prefix_Some p s rest : strip_prefix p s = Some rest -> s = p +:+ rest.
Proof.
  revert s. induction p as [|c p IH]; intros s; simpl.
  - now intros [= ->].
  - destruct s as [|b s]; [discriminate|].
    destruct (Ascii.eqb_spec c b) as [->|]; [|discriminate].
    intros H. app_simpl. now rewrite (IH _ H).
Qed.

End Strings.
#[local] Arguments RegExp.concat : simpl never.

Section IdentifierPattern.

Import JS RegExp ContextScope.

Lemma concat_cons x l : concat (x :: l) = x +:+ concat l.
Proof. reflexivity. Qed.

Lemma lang_digits s : lang digits_re s <-> digit_string s = true.
Proof.
  unfold digit_string. split.
  - intros (l & Hne & -> & Hall). simpl in Hall.
    induction Hall as [|x l (c & -> & Hc) Hl IH]; [contradiction|].
    rewrite concat_cons. app_simpl. simpl. rewrite Hc. simpl.
    destruct l as [|y l]; [reflexivity|].
    specialize (IH ltac:(discriminate)). apply andb_true_iff in IH as [_ IH]. exact IH.
  - rewrite andb_true_iff. intros [Hne Hall].
    exists (map (fun c => String c "") (list_ascii_of_string s)). repeat split.
    + destruct s; [discriminate | simpl; discriminate].
    + clear. induction s as [|c s IH]; simpl; [reflexivity|].
      rewrite concat_cons. app_simpl. now rewrite <- IH.
    + clear Hne. simpl. induction s as [|c s IH]; simpl in *; [constructor|].
      apply andb_true_iff in Hall as [Hc Hs]. constructor; [eauto | auto].
Qed.

Lemma is_digit_not_comma c : is_digit c = true -> is_not "," c = true.
Proof.
  unfold is_not. destruct (Ascii.eqb_spec c ","%char) as [->|]; [discriminate | reflexivity].
Qed.

Lemma is_digit_not_semicolon c : is_digit c = true -> is_not ";" c = true.
Proof.
  unfold is_not. destruct (Ascii.eqb_spec c ";"%char) as [->|]; [discriminate | reflexivity].
Qed.

Lemma digit_string_all s : digit_string s = true -> all_chars is_digit s = true.
Proof. unfold digit_string. rewrite andb_true_iff. tauto. Qed.

Lemma first_segment_true seg : first_segment true seg = digit_string seg.
Proof. unfold first_segment, digit_string. simpl. apply andb_comm. Qed.

Lemma id_list_split expect_digit s :
  id_list expect_digit s =
  match split "," s with
  | seg :: rest => first_segment expect_digit seg && forallb digit_string rest
  | [] => false
  end.
Proof.
  revert expect_digit. induction s as [|c s IH]; intros b; simpl.
  - unfold first_segment. simpl. now rewrite orb_false_r, andb_true_r.
  - pose proof (split_nonempty "," s) as Hne.
    destruct (is_digit c) eqn:Hd.
    + pose proof (is_digit_not_comma c Hd) as Hc. unfold is_not in Hc.
      apply negb_true_iff in Hc. rewrite Hc, IH.
      destruct (split "," s) as [|seg rest]; [contradiction|].
      unfold first_segment. simpl. rewrite Hd. simpl.
      now rewrite orb_true_r, andb_true_r.
    + destruct (Ascii.eqb c ",") eqn:Hc.
      * rewrite IH. destruct (split "," s) as [|seg rest]; [contradiction|].
        unfold first_segment at 2. simpl.
        rewrite orb_false_r, first_segment_true. reflexivity.
      * destruct (split "," s) as [|seg rest]; [contradiction|].
        unfold first_segment. simpl. now rewrite Hd.
Qed.

Lemma id_list_digit_strings s :
  id_list true s = forallb digit_string (split "," s).
Proof.
  rewrite id_list_split. pose proof (split_nonempty "," s).
  destruct (split "," s); [contradiction|]. simpl. now rewrite first_segment_true.
Qed.

Lemma digit_string_no_comma s :
  digit_string s = true -> all_chars (is_not ",") s = true.
Proof.
  intros H. apply (all_chars_impl is_digit); [apply is_digit_not_comma|].
  now apply digit_string_all.
Qed.

Lemma lang_id_list s :
  lang id_list_re s <-> forallb digit_string (split "," s) = true.
Proof.
  split.
  - intros (d & tail & -> & Hd & l & -> & Hl).
    apply lang_digits in Hd.
    enough (split "," (d +:+ concat l) = d :: map (fun x => match x with String _ r => r | _ => "" end) l
            /\ forallb digit_string (map (fun x => match x with String _ r => r | _ => "" end) l) = true)
      as [-> Hall] by (simpl; now rewrite Hd, Hall).
    revert d Hd. change (Forall (lang (Cat (Lit ",") digits_re)) l) in Hl.
    induction Hl as [|x l (s1 & s2 & -> & -> & Hs2) Hl IH]; intros d Hd.
    + simpl. rewrite string_app_nil_r. split; [|reflexivity].
      apply split_without. now apply digit_string_no_comma.
    + apply lang_digits in Hs2. rewrite concat_cons.
      change ("," +:+ s2) with (String "," s2). rewrite string_app_cons.
      rewrite split_app by now apply digit_string_no_comma.
      destruct (IH s2 Hs2) as [-> Hall]. simpl. rewrite Hs2, Hall. split; reflexivity.
  - intros H. rewrite <- (join_split "," s).
    pose proof (split_nonempty "," s) as Hne.
    destruct (split "," s) as [|d ds]; [contradiction|]. clear Hne.
    simpl in H. apply andb_true_iff in H as [Hd Hds].
    exists d, (concat (map (fun x => "," +:+ x) ds)). split; [|split].
    + clear. revert d. induction ds as [|x ds IH]; intros d.
      * simpl. now rewrite string_app_nil_r.
      * rewrite join_cons2. simpl map. rewrite concat_cons.
        rewrite IH. reflexivity.
    + now apply lang_digits.
    + exists (map (fun x => "," +:+ x) ds). split; [reflexivity|].
      change (Forall (lang (Cat (Lit ",") digits_re)) (map (fun x => "," +:+ x) ds)).
      induction ds as [|x ds IH]; simpl; [constructor|].
      simpl in Hds. apply andb_true_iff in Hds as [Hx Hds].
      constructor; [|auto]. exists ",", x. repeat split. now apply lang_digits.
Qed.


Lemma exec_tail_Some type rest :
  is_Some (exec_tail type rest) <->
  rest = "" \/ exists sign list, rest = sign +:+ list /\
    (sign = "+" \/ sign = "-") /\ forallb digit_string (split "," list) = true.
Proof.
  unfold exec_tail. destruct rest as [|c list].
  - split; [auto | eauto].
  - split.
    + intros [x Hx]. right.
      destruct (Ascii.eqb_spec c "+"%char) as [->|]; simpl in Hx.
      * exists "+", list. rewrite <- id_list_digit_strings.
        destruct (id_list true list); [auto | discriminate].
      * destruct (Ascii.eqb_spec c "-"%char) as [->|]; simpl in Hx; [|discriminate].
        exists "-", list. rewrite <- id_list_digit_strings.
        destruct (id_list true list); [auto | discriminate].
    + intros [|(sign & list' & E & Hs & Hl)]; [discriminate|].
      rewrite <- id_list_digit_strings in Hl.
      destruct Hs as [->| ->]; rewrite string_app_cons, string_app_nil_l in E;
        injection E as -> ->; simpl; rewrite Hl; eauto.
Qed.

Lemma exec_tail_type type rest cap : exec_tail type rest = Some cap -> fst cap = type.
Proof.
  unfold exec_tail. destruct rest as [|c list]; [now intros [= <-]|].
  destruct (_ && _); [now intros [= <-] | discriminate].
Qed.

Lemma identifier_re_unfold :
  identifier_re = Cat type_re (Opt (Cat sign_re id_list_re)).
Proof. reflexivity. Qed.

Lemma lang_tail rest :
  lang (Opt (Cat sign_re id_list_re)) rest <->
  rest = "" \/ exists sign list, rest = sign +:+ list /\
    (sign = "+" \/ sign = "-") /\ forallb digit_string (split "," list) = true.
Proof.
  change (lang (Opt (Cat sign_re id_list_re)) rest) with
    (rest = "" \/ exists s1 s2, rest = s1 +:+ s2 /\ (s1 = "+" \/ s1 = "-") /\ lang id_list_re s2).
  split; (intros [H|(s1 & s2 & E & Hs & Hl)]; [now left | right; exists s1, s2]);
    (split; [exact E | split; [exact Hs | now apply lang_id_list]]).
Qed.

(** [exec] recognises the pattern of [parse]. *)
Lemma exec_lang segment : is_Some (exec segment) <-> lang identifier_re segment.
Proof.
  rewrite identifier_re_unfold.
  change (lang (Cat type_re (Opt (Cat sign_re id_list_re))) segment) with
    (exists s1 s2, segment = s1 +:+ s2 /\
       (s1 = "user" \/ s1 = "group" \/ s1 = "discuss") /\
       lang (Opt (Cat sign_re id_list_re)) s2).
  unfold exec. split.
  - destruct (strip_prefix "user" segment) as [rest|] eqn:E1.
    { intros H. apply strip_prefix_Some in E1. exists "user", rest.
      split; [assumption | split; [auto|]]. apply lang_tail, (exec_tail_Some "user"), H. }
    destruct (strip_prefix "group" segment) as [rest|] eqn:E2.
    { intros H. apply strip_prefix_Some in E2. exists "group", rest.
      split; [assumption | split; [auto|]]. apply lang_tail, (exec_tail_Some "group"), H. }
    destruct (strip_prefix "discuss" segment) as [rest|] eqn:E3.
    { intros H. apply strip_prefix_Some in E3. exists "discuss", rest.
      split; [assumption | split; [auto|]]. apply lang_tail, (exec_tail_Some "discuss"), H. }
    intros [x Hx]. discriminate.
  - intros (s1 & s2 & -> & [->|[->| ->]] & Htail); apply lang_tail in Htail.
    + rewrite strip_prefix_app. now apply exec_tail_Some.
    + change (strip_prefix "user" ("group" +:+ s2)) with (@None string).
      rewrite strip_prefix_app. now apply exec_tail_Some.
    + change (strip_prefix "user" ("discuss" +:+ s2)) with (@None string).
      change (strip_prefix "group" ("discuss" +:+ s2)) with (@None string).
      rewrite strip_prefix_app. now apply exec_tail_Some.
Qed.

Lemma exec_type segment cap :
  exec segment = Some cap -> is_Some (contextTypes.of_name (fst cap)).
Proof.
  unfold exec.
  destruct (strip_prefix "user" segment);
    [intros H; apply exec_tail_type in H as ->; simpl; eauto|].
  destruct (strip_prefix "group" segment);
    [intros H; apply exec_tail_type in H as ->; simpl; eauto|].
  destruct (strip_prefix "discuss" segment);
    [intros H; apply exec_tail_type in H as ->; simpl; eauto | discriminate].
Qed.

Lemma parse_segment_Some scope segment :
  is_Some (parse_segment scope segment) <-> is_Some (exec segment).
Proof.
  unfold parse_segment. destruct (exec segment) as [[type rest]|] eqn:E; simpl.
  - destruct (exec_type _ _ E) as [t Ht]. simpl in Ht. rewrite Ht. simpl.
    split; eauto.
  - split; intros [x Hx]; discriminate.
Qed.

Lemma parse_fold_None segments :
  foldl (fun acc segment => scope ← acc; parse_segment scope segment) None segments = None.
Proof. induction segments as [|x l IH]; simpl; [reflexivity | exact IH]. Qed.

Lemma parse_fold_Some segments : forall scope,
  is_Some (foldl (fun acc segment => scope ← acc; parse_segment scope segment)
             (Some scope) segments)
  <-> Forall (fun segment => is_Some (exec segment)) segments.
Proof.
  induction segments as [|x l IH]; intros scope; simpl.
  - split; [constructor | eauto].
  - destruct (parse_segment scope x) as [scope'|] eqn:E.
    + rewrite IH. split.
      * intros H. constructor; [|assumption]. apply (parse_segment_Some scope). eauto.
      * intros H. now inversion H.
    + rewrite parse_fold_None. split.
      * intros [y Hy]. discriminate.
      * intros H. inversion H as [|? ? Hx _]; subst.
        apply (parse_segment_Some scope) in Hx. rewrite E in Hx. destruct Hx; discriminate.
Qed.

End IdentifierPattern.
Lemma some_segment_fails segments :
  ~ Forall (fun segment => is_Some (ContextScope.exec segment)) segments ->
  Exists (fun segment => ~ RegExp.lang ContextScope.identifier_re segment) segments.
Proof.
  induction segments as [|x l IH]; intros H.
  - exfalso. apply H. constructor.
  - destruct (ContextScope.exec x) as [cap|] eqn:E.
    + right. apply IH. intros Hl. apply H. constructor; [rewrite E; eauto | assumption].
    + left. intros Hx. apply exec_lang in Hx. rewrite E in Hx. destruct Hx; discriminate.
Qed.

(** C9 (as amended).  [parse] throws exactly when some [;]-separated
    segment of its argument does not match
    [(user|group|discuss)([+-]id(,id)* )?], an id being a non-empty
    string of digits. *)
Theorem parse_throws_iff (identifier : string) :
  ContextScope.parse identifier = None <->
  Exists (fun segment => ~ RegExp.lang ContextScope.identifier_re segment)
         (JS.split ";" identifier).
Proof.
  unfold ContextScope.parse.
  pose proof (parse_fold_Some (JS.split ";" identifier) ContextScope.noopScope) as H.
  set (r := foldl _ _ _) in *. split.
  - intros Hr. apply some_segment_fails. intros Hall.
    rewrite Hr in H. destruct (proj2 H Hall) as [y Hy]. discriminate.
  - intros Hex. destruct r as [scope|] eqn:Er; [|reflexivity]. exfalso.
    assert (Hall : Forall (fun segment => is_Some (ContextScope.exec segment))
                     (JS.split ";" identifier)) by (apply H; eauto).
    apply Exists_exists in Hex as (x & Hin & Hx).
    rewrite Forall_forall in Hall. apply Hx, exec_lang, Hall, Hin.
Qed.

(** C9 (as stated) fails in both directions: [parse] throws on
    ["direct"], whose only segment matches the claimed grammar, and
    accepts ["user"], which does not match it. *)
Lemma parse_throws_iff_counterexample :
  ContextScope.parse "direct" = None /\
  Forall (RegExp.lang claimed_re) (JS.split ";" "direct") /\
  ContextScope.parse "user"
    = Some [(None, Some []); (Some [], None); (Some [], None)] /\
  Exists (fun segment => ~ RegExp.lang claimed_re segment) (JS.split ";" "user").
Proof.
  split; [reflexivity|]. split.
  { repeat constructor. exists "direct", "". repeat split; simpl; auto. }
  split; [reflexivity|].
  left. intros (s1 & s2 & E & [->|[->| ->]] & _);
    rewrite string_app_cons in E; discriminate E.
Qed.

(** ** Round trip of [stringify] and [parse] *)

Section RoundTrip.

Import JS ContextScope.

Lemma string_of_uint_digits d : all_chars is_digit (NilEmpty.string_of_uint d) = true.
Proof. induction d; simpl; auto. Qed.

Lemma string_of_uint_nonempty d :
  d <> Decimal.Nil -> nonempty (NilEmpty.string_of_uint d) = true.
Proof. destruct d; simpl; intros H; [contradiction | reflexivity ..]. Qed.

Lemma to_int_nonneg n :
  0 <= n -> exists d, Z.to_int n = Decimal.Pos d /\ d <> Decimal.Nil.
Proof.
  destruct n as [|p|p]; intros H.
  - exists (Decimal.D0 Decimal.Nil). split; [reflexivity | discriminate].
  - exists (Pos.to_uint p). split; [reflexivity | apply DecimalPos.Unsigned.to_uint_nonnil].
  - lia.
Qed.

Lemma Number_toString_unsigned n d :
  Z.to_int n = Decimal.Pos d -> d <> Decimal.Nil ->
  Number_toString n = NilEmpty.string_of_uint d.
Proof.
  intros E Hd. unfold Number_toString. rewrite E. simpl.
  destruct d; [contradiction | reflexivity ..].
Qed.

Lemma Number_toString_digits n : 0 <= n -> digit_string (Number_toString n) = true.
Proof.
  intros H. destruct (to_int_nonneg n H) as (d & E & Hd).
  rewrite (Number_toString_unsigned n d E Hd). unfold digit_string.
  now rewrite string_of_uint_digits, string_of_uint_nonempty.
Qed.

Lemma Number_round_trip n : 0 <= n -> Number_of_string (Number_toString n) = n.
Proof.
  intros H. destruct (to_int_nonneg n H) as (d & E & Hd).
  rewrite (Number_toString_unsigned n d E Hd). unfold Number_of_string.
  rewrite NilEmpty.usu.
  transitivity (Z.of_int (Z.to_int n)); [now rewrite E | apply DecimalZ.of_to].
Qed.

Lemma split_print_ids ids :
  ids <> [] -> Forall (fun id => 0 <= id) ids ->
  split "," (print_ids ids) = map Number_toString ids.
Proof.
  intros Hne Hall. apply split_join.
  - destruct ids; [contradiction | discriminate].
  - apply Forall_map. eapply Forall_impl; [exact Hall|]. intros id Hid. simpl.
    apply digit_string_no_comma. now apply Number_toString_digits.
Qed.

Lemma id_list_print_ids ids :
  ids <> [] -> Forall (fun id => 0 <= id) ids -> id_list true (print_ids ids) = true.
Proof.
  intros Hne Hall. rewrite id_list_digit_strings, split_print_ids by assumption.
  apply forallb_forall. intros s Hs. apply in_map_iff in Hs as (id & <- & Hid).
  apply Number_toString_digits. rewrite List.Forall_forall in Hall. auto.
Qed.

Lemma parse_print_ids ids :
  ids <> [] -> Forall (fun id => 0 <= id) ids ->
  map Number_of_string (split "," (print_ids ids)) = ids.
Proof.
  intros Hne Hall. rewrite split_print_ids by assumption. rewrite map_map.
  induction Hall as [|id ids Hid Hids IH]; [contradiction|]. simpl.
  rewrite Number_round_trip by assumption. f_equal.
  destruct ids as [|id' ids']; [reflexivity|]. apply IH. discriminate.
Qed.

Lemma print_ids_no_semicolon ids :
  Forall (fun id => 0 <= id) ids -> all_chars (is_not ";") (print_ids ids) = true.
Proof.
  unfold print_ids. induction 1 as [|id ids Hid Hids IH]; [reflexivity|].
  assert (Hd : all_chars (is_not ";") (Number_toString id) = true).
  { apply (all_chars_impl is_digit); [apply is_digit_not_semicolon|].
    apply digit_string_all. now apply Number_toString_digits. }
  destruct ids as [|id' ids']; [exact Hd|].
  simpl map. rewrite join_cons2, !all_chars_app, Hd. simpl. exact IH.
Qed.


Lemma exec_printed type sign ids :
  (type = "user" \/ type = "group" \/ type = "discuss") ->
  (sign = "+" \/ sign = "-") ->
  ids <> [] -> Forall (fun id => 0 <= id) ids ->
  exec (type +:+ sign +:+ print_ids ids) = Some (type, Some (sign, print_ids ids)).
Proof.
  intros Htype Hsign Hne Hall. pose proof (id_list_print_ids ids Hne Hall) as Hl.
  unfold exec.
  destruct Htype as [->|[->| ->]]; destruct Hsign as [->| ->];
    repeat first
      [ rewrite strip_prefix_app
      | match goal with
        | |- context [strip_prefix ?p (?t +:+ ?r)] =>
            change (strip_prefix p (t +:+ r)) with (@None string)
        end ];
    rewrite string_app_cons, string_app_nil_l; simpl; rewrite Hl; reflexivity.
Qed.

Lemma segment_canonical index s :
  (index < 3)%nat -> canonical_sub s ->
  exists segment,
    stringify_sub index s = Some segment /\
    nonempty segment = true /\
    all_chars (is_not ";") segment = true /\
    forall scope, parse_segment scope segment = Some (<[index := s]> scope).
Proof.
  intros Hi (ids & Hne & Hall & Hs).
  assert (Hpos : Forall (fun id => 0 <= id) ids).
  { eapply Forall_impl; [exact Hall|]. simpl. intros; lia. }
  assert (Htype : contextTypes.name index = "user" /\ index = 0%nat \/
                  contextTypes.name index = "group" /\ index = 1%nat \/
                  contextTypes.name index = "discuss" /\ index = 2%nat).
  { destruct index as [|[|[|index]]]; simpl; auto. lia. }
  pose proof (print_ids_no_semicolon ids Hpos) as Hsemi.
  pose proof (parse_print_ids ids Hne Hpos) as Hback.
  destruct Hs as [-> | ->]; simpl; fold (print_ids ids);
    (eexists; split; [reflexivity|]); (split; [|split]).
  - destruct Htype as [[-> _]|[[-> _]|[-> _]]]; reflexivity.
  - rewrite !all_chars_app, Hsemi.
    destruct Htype as [[-> _]|[[-> _]|[-> _]]]; reflexivity.
  - intros scope. unfold parse_segment.
    rewrite (exec_printed _ "+" ids) by (tauto || auto). simpl. rewrite Hback.
    destruct Htype as [[-> ->]|[[-> ->]|[-> ->]]]; reflexivity.
  - destruct Htype as [[-> _]|[[-> _]|[-> _]]]; reflexivity.
  - rewrite !all_chars_app, Hsemi.
    destruct Htype as [[-> _]|[[-> _]|[-> _]]]; reflexivity.
  - intros scope. unfold parse_segment.
    rewrite (exec_printed _ "-" ids) by (tauto || auto). simpl. rewrite Hback.
    destruct Htype as [[-> ->]|[[-> ->]|[-> ->]]]; reflexivity.
Qed.

End RoundTrip.

(** C2 (as amended).  For every descriptor [S] of three subscopes, each
    with one side [null] and the other a non-empty list of non-negative
    safe integers, [stringify(S)] returns a string and [parse] of that
    string returns [S]. *)
Theorem parse_stringify (S : ContextScope.t) :
  length S = 3%nat -> Forall canonical_sub S ->
  exists identifier,
    ContextScope.stringify S = Some identifier /\
    ContextScope.parse identifier = Some S.
Proof.
  intros Hlen Hall. destruct S as [|s0 [|s1 [|s2 [|]]]]; try discriminate.
  repeat (apply Forall_cons_1 in Hall as [? Hall]).
  destruct (segment_canonical 0 s0) as (seg0 & E0 & N0 & C0 & P0); [lia | assumption |].
  destruct (segment_canonical 1 s1) as (seg1 & E1 & N1 & C1 & P1); [lia | assumption |].
  destruct (segment_canonical 2 s2) as (seg2 & E2 & N2 & C2 & P2); [lia | assumption |].
  unfold ContextScope.stringify. simpl. rewrite E0. simpl. rewrite E1. simpl.
  rewrite E2. simpl. rewrite N0, N1, N2.
  eexists. split; [reflexivity|]. unfold ContextScope.parse.
  rewrite (split_join ";" [seg0; seg1; seg2]);
    [| discriminate | repeat (constructor; [assumption|]); constructor].
  simpl. rewrite P0. simpl. rewrite P1. simpl. rewrite P2. reflexivity.
Qed.

Lemma parse_stringify_witness :
  exists identifier,
    ContextScope.stringify [(Some [1; 2], None); (None, Some [3]); (None, Some [40])]
      = Some identifier /\
    ContextScope.parse identifier
      = Some [(Some [1; 2], None); (None, Some [3]); (None, Some [40])].
Proof.
  apply (parse_stringify [(Some [1; 2], None); (None, Some [3]); (None, Some [40])]).
  - reflexivity.
  - repeat (constructor;
      [eexists; split; [|split; [|(left + right); reflexivity]];
       [discriminate | repeat (constructor; [unfold JS.MAX_SAFE_INTEGER; lia|]); constructor] |]).
    constructor.
Defined.

(** C2 (as stated) fails on the null scope: its include lists are empty,
    [stringify] prints them as ["user+;group+;discuss+"], and [parse]
    rejects a sign that no id follows. *)
Lemma parse_stringify_counterexample :
  ContextScope.stringify ContextScope.noopScope = Some "user+;group+;discuss+" /\
  ContextScope.parse "user+;group+;discuss+" = None /\
  ContextScope.parse "user+;group+;discuss+" <> Some ContextScope.noopScope.
Proof. repeat split; (reflexivity || discriminate). Qed.

(** ** Command execution *)

Section Execute.

Import Command.

Variable env : Env.

Lemma run_attributed b : forall r,
  attributed env r -> attributed env (fst (run env b r)).
Proof.
  induction b as [outcome | resolved IHres rejected IHrej]; intros r Hr; simpl.
  - exact Hr.
  - destruct (next env (calls_of_next r)) as [error|] eqn:E.
    + apply IHrej. right. split; [reflexivity|].
      exists (calls_of_next r). simpl. split; [lia | congruence].
    + apply IHres. destruct Hr as [[Hs Hn]|[Hs (n & Hlt & Hn)]].
      * left. split; [exact Hs|]. simpl. intros n Hlt.
        destruct (decide (n = calls_of_next r)) as [->|]; [exact E | apply Hn; lia].
      * right. split; [exact Hs|]. exists n. simpl. split; [lia | exact Hn].
Qed.

Lemma run_executed b : forall r, executed (fst (run env b r)) = executed r.
Proof.
  induction b as [outcome | resolved IHres rejected IHrej]; intros r; simpl.
  - reflexivity.
  - destruct (next env (calls_of_next r)); [rewrite IHrej | rewrite IHres]; reflexivity.
Qed.

Lemma run_warnings b : forall r, warnings (fst (run env b r)) = warnings r.
Proof.
  induction b as [outcome | resolved IHres rejected IHrej]; intros r; simpl.
  - reflexivity.
  - destruct (next env (calls_of_next r)); [rewrite IHrej | rewrite IHres]; reflexivity.
Qed.

Lemma run_actions_attributed argv actions : forall r,
  attributed env r -> attributed env (fst (run_actions env argv actions r)).
Proof.
  induction actions as [|a rest IH]; intros r Hr; simpl; [exact Hr|].
  pose proof (run_attributed (call a argv) (record_action a r) Hr) as H.
  destruct (run env (call a argv) (record_action a r)) as [r1 [[s|]|error]];
    simpl in *; auto.
Qed.

Lemma attempt_attributed this argv : attributed env (fst (attempt this env argv)).
Proof.
  unfold attempt. set (r0 := Build_Run _ _ _ _).
  assert (H0 : attributed env r0) by (left; split; [reflexivity | simpl; intros; lia]).
  pose proof (run_attributed (before_command env argv) r0 H0) as H.
  destruct (run env (before_command env argv) r0) as [r1 [[s|]|error]]; simpl in *; auto.
  now apply run_actions_attributed.
Qed.

Lemma run_actions_warnings argv actions : forall r,
  warnings (fst (run_actions env argv actions r)) = warnings r.
Proof.
  induction actions as [|a rest IH]; intros r; simpl; [reflexivity|].
  pose proof (run_warnings (call a argv) (record_action a r)) as H.
  destruct (run env (call a argv) (record_action a r)) as [r1 [[s|]|error]];
    simpl in *; auto. now rewrite IH.
Qed.

Lemma attempt_warnings this argv : warnings (fst (attempt this env argv)) = [].
Proof.
  unfold attempt. set (r0 := Build_Run _ _ _ _).
  pose proof (run_warnings (before_command env argv) r0) as H.
  destruct (run env (before_command env argv) r0) as [r1 [[s|]|error]]; simpl in *; auto.
  now rewrite run_actions_warnings.
Qed.

(** Actions that return no string are passed over, one after the
    other. *)
Lemma run_actions_pass argv pre rest : forall r,
  Forall (fun a => returns env (call a argv) None) pre ->
  exists r', run_actions env argv (pre ++ rest) r = run_actions env argv rest r' /\
    executed r' = executed r ++ map label pre.
Proof.
  induction pre as [|a pre IH]; intros r Hpre; simpl.
  - exists r. now rewrite app_nil_r.
  - inversion Hpre as [|? ? Ha Hrest]; subst.
    pose proof (Ha (record_action a r)) as Hres.
    pose proof (run_executed (call a argv) (record_action a r)) as Hex.
    destruct (run env (call a argv) (record_action a r)) as [r1 result].
    simpl in Hres, Hex. subst result.
    destruct (IH r1 Hrest) as (r' & -> & Hr'). exists r'. split; [reflexivity|].
    rewrite Hr', Hex. simpl. now rewrite <- app_assoc.
Qed.

Lemma register_actions callbacks : forall cmd,
  _actions (register callbacks cmd) = _actions cmd ++ callbacks.
Proof.
  induction callbacks as [|a l IH]; intros cmd.
  - simpl. now rewrite app_nil_r.
  - change (register (a :: l) cmd) with (register l (action a false cmd)).
    rewrite IH. simpl. now rewrite <- app_assoc.
Qed.

End Execute.

(** C6 (as amended).  When the body of [execute] throws, the dispatch
    state is either the "before command" marker, and then every call of
    the continuation made so far has returned (none was made, or each
    came back), or empty, and then a call of the continuation has
    thrown.  In the first case the error is caught, trimmed and logged
    (one warning: the source, a newline, the trimmed stack) and the
    invocation resolves with no result; in the second case it is thrown
    again and reaches the caller, with nothing logged. *)
Theorem execute_error_attribution (this : Command.t) (env : Command.Env)
    (argv : Command.Argv) (r : Command.Run) (error : Error) :
  Command.attempt this env argv = (r, Command.Rejected error) ->
  ((forall n, (n < Command.calls_of_next r)%nat -> Command.next env n = None) ->
     Command.state r = "before command" /\
     Command.execute this env argv =
       (Command.warn (Command.warning env argv error) r, Command.Resolved None) /\
     Command.warnings (fst (Command.execute this env argv)) =
       [Command.warning env argv error]) /\
  ((exists n, (n < Command.calls_of_next r)%nat /\ Command.next env n <> None) ->
     Command.state r = "" /\
     Command.execute this env argv = (r, Command.Rejected error) /\
     Command.warnings (fst (Command.execute this env argv)) = []).
Proof.
  intros E. pose proof (attempt_attributed env this argv) as Hattr.
  pose proof (attempt_warnings env this argv) as Hwarn.
  unfold Command.execute. rewrite E in *. simpl in Hattr, Hwarn. split.
  - intros Hall. destruct Hattr as [[Hs _]|[_ (n & Hlt & Hn)]].
    + rewrite Hs. simpl. rewrite Hwarn. auto.
    + exfalso. apply Hn, Hall, Hlt.
  - intros (n & Hlt & Hn). destruct Hattr as [[_ Hall]|[Hs _]].
    + exfalso. apply Hn, Hall, Hlt.
    + rewrite Hs. simpl. auto.
Qed.

Lemma execute_error_attribution_witness :
  (Command.execute (register [throwing] no_actions) continuation_returns some_argv
   = ({| Command.state := "before command"; Command.calls_of_next := 0;
         Command.executed := ["throwing"];
         Command.warnings := [Command.warning continuation_returns some_argv boom] |},
      Command.Resolved None)) /\
  (Command.execute (register [forwarding] no_actions) continuation_throws some_argv
   = ({| Command.state := ""; Command.calls_of_next := 1;
         Command.executed := ["forwarding"]; Command.warnings := [] |},
      Command.Rejected boom)).
Proof.
  split.
  - refine (proj1 (proj2 (proj1
      (execute_error_attribution (register [throwing] no_actions)
         continuation_returns some_argv _ boom eq_refl) _))).
    simpl. intros n Hn. reflexivity.
  - refine (proj1 (proj2 (proj2
      (execute_error_attribution (register [forwarding] no_actions)
         continuation_throws some_argv _ boom eq_refl) _))).
    exists 0%nat. simpl. split; [lia | discriminate].
Defined.

(** C6 (as stated) fails for an error thrown after the continuation has
    been entered and has returned: the state is the marker again, and
    the error is caught and logged instead of reaching the caller. *)
Lemma execute_error_attribution_counterexample :
  Command.calls_of_next
    (fst (Command.execute (register [throwing_after_next] no_actions)
            continuation_returns some_argv)) = 1%nat /\
  snd (Command.execute (register [throwing_after_next] no_actions)
         continuation_returns some_argv) = Command.Resolved None /\
  snd (Command.execute (register [throwing_after_next] no_actions)
         continuation_returns some_argv) <> Command.Rejected boom /\
  Command.warnings
    (fst (Command.execute (register [throwing_after_next] no_actions)
            continuation_returns some_argv))
    = [Command.warning continuation_returns some_argv boom].
Proof. repeat split; (reflexivity || discriminate). Qed.

(** An action that catches the failure of the continuation and then
    throws an error of its own: the state has stayed empty, so this
    error reaches the caller too, and nothing is logged. *)
Example execute_after_failed_continuation :
  Command.execute (register [throwing_after_catch] no_actions) continuation_throws some_argv
  = ({| Command.state := ""; Command.calls_of_next := 1;
        Command.executed := ["throwing after catch"]; Command.warnings := [] |},
     Command.Rejected late).
Proof. reflexivity. Qed.

(** With [prettyErrors], the stack is cut one character in front of the
    line of the call site. *)
Example warning_is_trimmed :
  Command.warning
    {| Command.before_command := fun _ => Command.Finish (Command.Resolved None);
       Command.next := fun _ => None;
       Command.lastCall := "    at caller (app.js:1:1)" |}
    some_argv
    {| stack := "Error: boom
    at action (plugin.js:2:2)
    at caller (app.js:1:1)
    at internal (node.js:3:3)" |}
  = "echo hi
Error: boom
    at action (plugin.js:2:2)".
Proof. reflexivity. Qed.

(** C5 (as amended).  With actions registered in order and none
    prepended, when the [before-command] check and the actions in front
    of [B] return no string and [B] returns a string [s], empty or not,
    the result of [execute] is [s], and the actions called are those up
    to [B]: none behind [B] is.  When no action returns a string, all
    are called and the result is the empty string. *)
Theorem action_chain_halts (cmd : Command.t) (env : Command.Env)
    (argv : Command.Argv) (pre post : list Command.Action)
    (B : Command.Action) (s : string) :
  Command._actions cmd = [] ->
  returns env (Command.before_command env argv) None ->
  Forall (fun A => returns env (Command.call A argv) None) pre ->
  returns env (Command.call B argv) (Some s) ->
  (snd (Command.execute (register (pre ++ B :: post) cmd) env argv)
     = Command.Resolved (Some s) /\
   Command.executed (fst (Command.execute (register (pre ++ B :: post) cmd) env argv))
     = map Command.label pre ++ [Command.label B]) /\
  (snd (Command.execute (register pre cmd) env argv) = Command.Resolved (Some "") /\
   Command.executed (fst (Command.execute (register pre cmd) env argv))
     = map Command.label pre).
Proof.
  intros Hcmd Hbefore Hpre HB.
  assert (Hstart : forall chain,
    Command.attempt (register chain cmd) env argv =
    Command.run_actions env argv chain
      (fst (Command.run env (Command.before_command env argv)
              {| Command.state := "before command"; Command.calls_of_next := 0;
                 Command.executed := []; Command.warnings := [] |}))).
  { intros chain. unfold Command.attempt. rewrite register_actions, Hcmd. simpl.
    pose proof (Hbefore {| Command.state := "before command"; Command.calls_of_next := 0;
                 Command.executed := []; Command.warnings := [] |}) as H.
    destruct (Command.run env _ _) as [r1 result]. simpl in H. now subst. }
  pose proof (run_executed env (Command.before_command env argv)
      {| Command.state := "before command"; Command.calls_of_next := 0;
         Command.executed := []; Command.warnings := [] |}) as Hex0.
  set (r1 := fst (Command.run env _ _)) in *. simpl in Hex0.
  split.
  - destruct (run_actions_pass env argv pre (B :: post) r1 Hpre) as (r' & E & Hr').
    unfold Command.execute. rewrite Hstart, E. simpl.
    pose proof (HB (Command.record_action B r')) as Hres.
    pose proof (run_executed env (Command.call B argv) (Command.record_action B r')) as Hex.
    destruct (Command.run env (Command.call B argv) _) as [r2 result].
    simpl in Hres, Hex. subst result. simpl. split; [reflexivity|].
    now rewrite Hex, Hr', Hex0.
  - destruct (run_actions_pass env argv pre [] r1 Hpre) as (r' & E & Hr').
    unfold Command.execute. rewrite Hstart. rewrite app_nil_r in E. rewrite E. simpl.
    split; [reflexivity|]. now rewrite Hr', Hex0.
Qed.

Lemma action_chain_halts_witness :
  (snd (Command.execute
          (register ([returning "A" None] ++ returning "B" (Some "b") :: [returning "C" None])
             no_actions) continuation_returns some_argv)
     = Command.Resolved (Some "b") /\
   Command.executed
     (fst (Command.execute
          (register ([returning "A" None] ++ returning "B" (Some "b") :: [returning "C" None])
             no_actions) continuation_returns some_argv))
     = map Command.label [returning "A" None] ++ [Command.label (returning "B" (Some "b"))]) /\
  (snd (Command.execute (register [returning "A" None] no_actions)
          continuation_returns some_argv) = Command.Resolved (Some "") /\
   Command.executed
     (fst (Command.execute (register [returning "A" None] no_actions)
          continuation_returns some_argv))
     = map Command.label [returning "A" None]).
Proof.
  apply (action_chain_halts no_actions continuation_returns some_argv
           [returning "A" None] [returning "C" None] (returning "B" (Some "b")) "b").
  - reflexivity.
  - intros r. reflexivity.
  - repeat constructor.
  - intros r. reflexivity.
Defined.

(** C5 (as stated) fails when an action in front of [B] returns the
    empty string: [A] returns no non-empty string and [B] returns
    ["b"], yet the chain halts at [A], the result is the empty string
    and [B] is not called. *)
Lemma action_chain_halts_counterexample :
  Command.execute
    (register [returning "A" (Some ""); returning "B" (Some "b"); returning "C" None]
       no_actions) continuation_returns some_argv
  = ({| Command.state := "before command"; Command.calls_of_next := 0;
        Command.executed := ["A"]; Command.warnings := [] |},
     Command.Resolved (Some "")) /\
  Command.Resolved (Some "") <> Command.Resolved (Some "b").
Proof. split; [reflexivity | discriminate]. Qed.

(** ** The entity cache *)

Section AnonymousSender.

Variables (options : AppOptions) (db : Database).

Lemma user_step_unwritten w0 op st :
  unwritten w0 st -> unwritten w0 (user_step options db op st).
Proof.
  destruct st as [w meta]. intros (Hanon & Hcalls & Huc & Hgc & Hu). simpl in *.
  destruct op as [fields now | key value |]; simpl.
  - unfold Context.observeUser. destruct (_user meta) as [u|] eqn:Eu.
    + rewrite Hanon. repeat split; simpl; auto. rewrite Eu. exact Hu.
    + rewrite Hanon. simpl. repeat split; simpl; auto. now intros u [= <-].
  - destruct (_user meta) as [u|] eqn:Eu; [|repeat split; simpl; auto; now rewrite Eu].
    simpl. repeat split; auto. intros u' [= <-]. simpl. now apply Hu.
  - destruct (_user meta) as [u|] eqn:Eu; [|repeat split; simpl; auto; now rewrite Eu].
    unfold Observed_update. rewrite (Hu u eq_refl).
    destruct (decide (diff u = ∅)); simpl; repeat split; auto;
      intros u' [= <-]; simpl; first [reflexivity | now apply Hu].
Qed.

Lemma user_steps_unwritten w0 ops : forall st,
  unwritten w0 st -> unwritten w0 (user_steps options db ops st).
Proof.
  induction ops as [|op ops IH]; intros st Hst; [exact Hst|].
  apply IH. now apply user_step_unwritten.
Qed.

End AnonymousSender.



(** A bound entity that lacks some of the requested fields: the missing
    fields, and only those, are fetched in one call, and what goes into
    the keyed cache is the fetched record with the time of the call, a
    record of its own and not the one the entity is bound to. *)
Lemma observeUser_bound_fetch (options : AppOptions) (db : Database) (now : Z)
    (meta : Meta) (fields : list string) (w : World) (u : Observed) :
  _user meta = Some u -> anonymous meta = false -> _argv meta = None ->
  (target u < length (heap w))%nat ->
  Context.delete_present (deref w (target u)) (Set_new fields) <> [] ->
  let missing := Context.delete_present (deref w (target u)) (Set_new fields) in
  let fetched := user_record db (calls w) (userId meta) missing in
  let '(w', meta', u') := Context.observeUser options db now meta fields w in
  meta' = meta /\ u' = u /\
  calls w' = calls w ++ [getUser (userId meta) None missing] /\
  deref w' (target u) = fetched ∪ deref w (target u) /\
  userCache w' !! userId meta = Some (length (heap w)) /\
  length (heap w) <> target u /\
  deref w' (length (heap w)) = <["_timestamp" := now]> fetched.
Proof.
  intros Hu Hanon Hargv Hlt Hmiss. unfold Context.observeUser.
  rewrite Hu, Hanon, Hargv.
  destruct (Context.delete_present (deref w (target u)) (Set_new fields))
    as [|f l] eqn:E; [contradiction|]. simpl.
  assert (Hnew : (heap w ++ [user_record db (calls w) (userId meta) (f :: l)])
                   !! length (heap w)
                 = Some (user_record db (calls w) (userId meta) (f :: l))).
  { rewrite lookup_app_r by reflexivity. now rewrite Nat.sub_diag. }
  assert (Hne : length (heap w) <> target u) by lia.
  repeat split; try assumption.
  - unfold deref. simpl. rewrite list_lookup_insert_ne by lia.
    rewrite list_lookup_insert_eq by (rewrite length_app; simpl; lia).
    simpl. rewrite Hnew. unfold deref. simpl.
    rewrite lookup_app_l by assumption. reflexivity.
  - simpl. apply lookup_insert_eq.
  - unfold deref. simpl.
    rewrite list_lookup_insert_eq
      by (rewrite length_insert, length_app; simpl; lia).
    simpl. rewrite list_lookup_insert_ne by lia. now rewrite Hnew.
Qed.

(** An event without a bound entity and without a cache entry for its
    user: one fetch, of the requested fields, and the fetched record,
    stamped, is both cached and bound. *)
Lemma observeUser_miss (options : AppOptions) (db : Database) (now : Z)
    (meta : Meta) (fields : list string) (w : World) :
  _user meta = None -> anonymous meta = false -> _argv meta = None ->
  userCache w !! userId meta = None ->
  let authority := Context.resolve_authority options meta in
  let '(w', meta', u) := Context.observeUser options db now meta fields w in
  calls w' = calls w ++ [getUser (userId meta) (Some authority) (Set_new fields)] /\
  userCache w' !! userId meta = Some (target u) /\
  deref w' (target u)
    = <["_timestamp" := now]> (user_record db (calls w) (userId meta) (Set_new fields)) /\
  update u = Some (setUser_of (userId meta)) /\ _user meta' = Some u.
Proof.
  intros Hu Hanon Hargv Hcache. unfold Context.observeUser.
  rewrite Hu, Hanon, Hargv, Hcache. simpl. repeat split.
  - apply lookup_insert_eq.
  - unfold deref. simpl.
    rewrite list_lookup_insert_eq by (rewrite length_app; simpl; lia).
    simpl. rewrite lookup_app_r by reflexivity. now rewrite Nat.sub_diag.
Qed.

(** An event without a bound entity whose user has a cache entry that
    holds the requested fields and is younger than the timeout: no
    fetch, and the cached record itself is bound. *)
Lemma observeUser_hit (options : AppOptions) (db : Database) (now : Z)
    (meta : Meta) (fields : list string) (w : World) (cache : Ref) :
  _user meta = None -> anonymous meta = false -> _argv meta = None ->
  userCache w !! userId meta = Some cache ->
  Context.isActiveCache (Some (deref w cache)) (Set_new fields) now
    (userCacheTimeout options) = true ->
  let '(w', meta', u) := Context.observeUser options db now meta fields w in
  w' = w /\ target u = cache /\ _user meta' = Some u.
Proof.
  intros Hu Hanon Hargv Hcache Hactive. unfold Context.observeUser.
  rewrite Hu, Hanon, Hargv, Hcache, Hactive. simpl. auto.
Qed.

(** A bound entity that has every requested field: no fetch. *)
Lemma observeUser_bound_complete (options : AppOptions) (db : Database) (now : Z)
    (meta : Meta) (fields : list string) (w : World) (u : Observed) :
  _user meta = Some u -> _argv meta = None ->
  Context.delete_present (deref w (target u)) (Set_new fields) = [] ->
  Context.observeUser options db now meta fields w = (w, meta, u).
Proof.
  intros Hu Hargv Hnone. unfold Context.observeUser. rewrite Hu, Hargv, Hnone.
  now destruct (anonymous meta).
Qed.

(** C3 at user 7, with a storage that returns the requested fields: the
    first request for [x] makes one fetch; a second request for [x] a
    second later, on the same event or on a new one, makes none and
    yields the same record; a request for [x] and [y] on the event with
    the bound entity makes one fetch, for [y] alone, after which the
    bound entity (record 0) has both fields, while the record in the
    keyed cache is another one (record 1), with [y] and the new
    timestamp and without [x].
    [observeGroup] does the same at group 3. *)
Theorem cache_keeps_fetched_record :
  (let '(w1, m1, u1) :=
     Context.observeUser one_minute exact_storage 1000 event_of_7 ["x"] empty_world in
   let '(w2, m2, u2) := Context.observeUser one_minute exact_storage 2000 m1 ["x"] w1 in
   let '(w2', _, u2') :=
     Context.observeUser one_minute exact_storage 2000 event_of_7 ["x"] w1 in
   let '(w3, m3, u3) :=
     Context.observeUser one_minute exact_storage 3000 m2 ["x"; "y"] w2 in
   calls w1 = [getUser 7 (Some 1) ["x"]] /\
   deref w1 (target u1) !! "x" = Some 7 /\
   (calls w2 = calls w1 /\ target u2 = target u1 /\
    deref w2 (target u2) !! "x" = Some 7) /\
   (calls w2' = calls w1 /\ target u2' = target u1 /\
    deref w2' (target u2') !! "x" = Some 7) /\
   calls w3 = calls w2 ++ [getUser 7 None ["y"]] /\
   target u3 = target u1 /\
   deref w3 (target u3) !! "x" = Some 7 /\ deref w3 (target u3) !! "y" = Some 7 /\
   userCache w3 !! 7 = Some 1%nat /\ target u3 = 0%nat /\
   deref w3 1%nat !! "x" = None /\
   deref w3 1%nat !! "y" = Some 7 /\
   deref w3 1%nat !! "_timestamp" = Some 3000) /\
  (let '(w1, m1, g1) :=
     Context.observeGroup one_minute exact_storage 1000 event_in_group_3 ["x"] empty_world in
   let '(w2, m2, g2) := Context.observeGroup one_minute exact_storage 2000 m1 ["x"] w1 in
   let '(w3, m3, g3) :=
     Context.observeGroup one_minute exact_storage 3000 m2 ["x"; "y"] w2 in
   calls w1 = [getGroup 3 ["x"]] /\
   calls w2 = calls w1 /\
   calls w3 = calls w2 ++ [getGroup 3 ["y"]] /\
   deref w3 (target g3) !! "x" = Some 3 /\ deref w3 (target g3) !! "y" = Some 3 /\
   groupCache w3 !! 3 = Some 1%nat /\ target g3 = 0%nat /\
   deref w3 1%nat !! "x" = None /\
   deref w3 1%nat !! "y" = Some 3 /\
   deref w3 1%nat !! "_timestamp" = Some 3000).
Proof. vm_compute. repeat split. Qed.

(** ** Hooks: listeners registered with [once] *)

Section Once.

Import Context.

Lemma hooks_of_set_hooks name hooks app name' :
  hooks_of (set_hooks name hooks app) name' =
  if decide (name = name') then hooks else hooks_of app name'.
Proof.
  unfold hooks_of, set_hooks. simpl. rewrite lookup_insert.
  destruct (decide (name = name')); reflexivity.
Qed.

Lemma wrappers_in_app k l1 l2 :
  wrappers_in k (l1 ++ l2) = (wrappers_in k l1 + wrappers_in k l2)%nat.
Proof. unfold wrappers_in. now rewrite List.filter_app, length_app. Qed.

Lemma wrappers_in_cons k hook l :
  wrappers_in k (hook :: l) =
  ((if bool_decide (hook_callback hook = once_wrapper k) then 1 else 0)
   + wrappers_in k l)%nat.
Proof. unfold wrappers_in. simpl. now destruct (bool_decide _). Qed.

Lemma wrappers_in_none k l :
  (forall hook, hook ∈ l -> hook_callback hook <> once_wrapper k) ->
  wrappers_in k l = 0%nat.
Proof.
  induction l as [|hook l IH]; intros H; [reflexivity|].
  rewrite wrappers_in_cons, IH.
  - rewrite bool_decide_eq_false_2; [reflexivity|]. apply H. left.
  - intros h Hh. apply H. now right.
Qed.

Lemma remove_first_subset p l hook : hook ∈ remove_first p l -> hook ∈ l.
Proof.
  induction l as [|h l IH]; simpl; [auto|].
  destruct (p h); intros H.
  - now right.
  - apply elem_of_cons in H as [->|H]; [left | right; auto].
Qed.

Lemma remove_first_wrappers_le p k l :
  (wrappers_in k (remove_first p l) <= wrappers_in k l)%nat.
Proof.
  induction l as [|h l IH]; simpl; [lia|].
  destruct (p h); rewrite !wrappers_in_cons; lia.
Qed.

Lemma remove_first_wrapper this k l hook :
  hook ∈ l -> is_entry this (once_wrapper k) hook = true ->
  (wrappers_in k (remove_first (is_entry this (once_wrapper k)) l) + 1
   = wrappers_in k l)%nat.
Proof.
  induction l as [|h l IH]; intros Hin Hentry; [inversion Hin|]. simpl.
  destruct (is_entry this (once_wrapper k) h) eqn:E.
  - rewrite wrappers_in_cons. unfold is_entry in E.
    apply andb_true_iff in E as [_ E]. rewrite E. lia.
  - rewrite !wrappers_in_cons.
    apply elem_of_cons in Hin as [->|Hin]; [congruence|].
    specialize (IH Hin Hentry). lia.
Qed.

Lemma times_invoked_record c c' app :
  times_invoked c (record_invocation c' app) =
  (times_invoked c app + (if decide (c' = c) then 1 else 0))%nat.
Proof.
  unfold times_invoked, record_invocation. simpl.
  rewrite count_occ_app. simpl. destruct (Callback_eq_dec c' c), (decide (c' = c));
    try contradiction; reflexivity.
Qed.

(** Registering a plain listener, in front or at the end. *)
Lemma set_hooks_listener_invariant name hooks app :
  once_invariant app ->
  (forall hook, hook ∈ hooks ->
     hook ∈ hooks_of app name \/ exists f, hook_callback hook = listener f) ->
  (forall k, wrappers_in k hooks <= wrappers_in k (hooks_of app name))%nat ->
  once_invariant (set_hooks name hooks app).
Proof.
  intros (I1 & I2 & I3) Hsub Hle. split; [|split].
  - intros name' hook k Hin Hcb. rewrite hooks_of_set_hooks in Hin.
    destruct (decide (name = name')) as [<-|]; [|now apply I1].
    destruct (Hsub hook Hin) as [Hold|[f Hf]]; [now apply I1 | congruence].
  - intros k closure Hk. specialize (I2 k closure Hk).
    rewrite hooks_of_set_hooks. unfold times_invoked in *. simpl.
    destruct (decide (name = closure_name closure)) as [Heq|]; [|exact I2].
    rewrite <- Heq in I2. specialize (Hle k). lia.
  - exact I3.
Qed.

Lemma addListener_invariant this name f app :
  once_invariant app -> once_invariant (addListener this name (listener f) app).
Proof.
  intros H. apply set_hooks_listener_invariant; [exact H | |].
  - intros hook Hin. apply elem_of_app in Hin as [Hin|Hin]; [now left|].
    apply list_elem_of_singleton in Hin as ->. right. now exists f.
  - intros k. rewrite wrappers_in_app. unfold wrappers_in at 2. simpl. lia.
Qed.

Lemma prependListener_invariant this name f app :
  once_invariant app -> once_invariant (prependListener this name (listener f) app).
Proof.
  intros H. apply set_hooks_listener_invariant; [exact H | |].
  - intros hook Hin. apply elem_of_cons in Hin as [->|Hin]; [right; now exists f | now left].
  - intros k. rewrite wrappers_in_cons. simpl. lia.
Qed.

Lemma removeListener_invariant this name callback app :
  once_invariant app -> once_invariant (removeListener this name callback app).
Proof.
  intros H. unfold removeListener. destruct (_hooks app !! name) as [hooks|] eqn:E; [|exact H].
  assert (Hof : hooks_of app name = hooks) by (unfold hooks_of; now rewrite E).
  apply set_hooks_listener_invariant; [exact H | |].
  - intros hook Hin. left. rewrite Hof. eapply remove_first_subset, Hin.
  - intros k. rewrite Hof. apply remove_first_wrappers_le.
Qed.


Lemma once_invariant_once this name f app :
  once_invariant app -> once_invariant (once this name f app).
Proof.
  intros (I1 & I2 & I3). unfold once, addListener.
  set (k := length (closures app)).
  set (closure := Build_Closure this name f).
  assert (Hfresh : wrappers_in k (hooks_of app name) = 0%nat).
  { apply wrappers_in_none. intros hook Hin Hcb.
    destruct (I1 name hook k Hin Hcb) as (c & Hc & _).
    apply lookup_lt_Some in Hc. unfold k in Hc. lia. }
  split; [|split].
  - intros name' hook k' Hin Hcb. rewrite hooks_of_set_hooks in Hin. simpl.
    assert (Hold : hook ∈ hooks_of app name' ->
      exists c, (closures app ++ [closure]) !! k' = Some c /\ closure_name c = name' /\
        address (closure_this c) = address (hook_context hook)).
    { intros Hin'. destruct (I1 name' hook k' Hin' Hcb) as (c & Hc & Hn & Ha).
      exists c. split; [|auto]. rewrite lookup_app_l; [exact Hc|].
      now apply lookup_lt_Some in Hc. }
    destruct (decide (name = name')) as [<-|]; [|now apply Hold].
    unfold hooks_of at 1 in Hin. simpl in Hin. fold (hooks_of app name) in Hin.
    apply elem_of_app in Hin as [Hin|Hin]; [now apply Hold|].
    apply list_elem_of_singleton in Hin as ->. simpl in Hcb. injection Hcb as <-.
    exists closure. split; [|auto].
    rewrite lookup_app_r by (unfold k; lia). unfold k. now rewrite Nat.sub_diag.
  - intros k' c Hc. rewrite hooks_of_set_hooks. simpl in Hc.
    unfold times_invoked. simpl. fold (times_invoked (once_wrapper k') app).
    unfold hooks_of at 1. simpl. fold (hooks_of app name).
    destruct (decide (k' < k)%nat) as [Hlt|Hge].
    + rewrite lookup_app_l in Hc by exact Hlt. specialize (I2 k' c Hc).
      destruct (decide (name = closure_name c)) as [Heq|]; [|exact I2].
      rewrite <- Heq in I2. rewrite wrappers_in_app. unfold wrappers_in at 2. simpl.
      rewrite bool_decide_eq_false_2 by (intros [= ?]; lia). simpl. lia.
    + assert (k' = k) as ->.
      { apply lookup_lt_Some in Hc. rewrite length_app in Hc. simpl in Hc.
        unfold k in *. lia. }
      rewrite lookup_app_r in Hc by (unfold k; lia).
      replace (k - length (closures app))%nat with 0%nat in Hc by (unfold k; lia).
      injection Hc as <-. simpl. rewrite decide_True by reflexivity.
      rewrite wrappers_in_app, Hfresh. unfold wrappers_in. simpl.
      rewrite bool_decide_eq_true_2 by reflexivity. simpl.
      assert (times_invoked (once_wrapper k) app = 0%nat) as ->; [|lia].
      apply count_occ_not_In. intros Hin. apply I3 in Hin. unfold k in Hin. lia.
  - intros k' Hin. simpl in *. rewrite length_app. simpl.
    specialize (I3 k' Hin). lia.
Qed.

Lemma record_listener_invariant f app :
  once_invariant app -> once_invariant (record_invocation (listener f) app).
Proof.
  intros (I1 & I2 & I3). split; [|split].
  - exact I1.
  - intros k c Hc. rewrite times_invoked_record.
    rewrite decide_False by discriminate. specialize (I2 k c Hc).
    change (hooks_of (record_invocation (listener f) app)) with (hooks_of app). lia.
  - intros k Hin. simpl in Hin. apply in_app_or in Hin as [Hin|[Hin|[]]];
      [now apply I3 | discriminate].
Qed.

(** The closure of [once] is called from an entry of the list, and takes
    that entry out before it calls the listener. *)
Lemma wrapper_unsubscribes name hook k closure app :
  once_invariant app ->
  hook ∈ hooks_of app name -> hook_callback hook = once_wrapper k ->
  closures app !! k = Some closure ->
  once_invariant
    (removeListener (closure_this closure) (closure_name closure) (once_wrapper k)
       (record_invocation (once_wrapper k) app)) /\
  wrappers_in k
    (hooks_of
       (removeListener (closure_this closure) (closure_name closure) (once_wrapper k)
          (record_invocation (once_wrapper k) app)) name) = 0%nat.
Proof.
  intros (I1 & I2 & I3) Hin Hcb Hk.
  destruct (I1 name hook k Hin Hcb) as (c & Hc & Hname & Haddr).
  assert (c = closure) as -> by congruence.
  assert (Hentry : is_entry (closure_this closure) (once_wrapper k) hook = true).
  { unfold is_entry. rewrite Hcb, Haddr.
    rewrite !bool_decide_eq_true_2; reflexivity. }
  unfold removeListener. simpl. rewrite Hname.
  destruct (_hooks app !! name) as [hooks|] eqn:E;
    [|unfold hooks_of in Hin; rewrite E in Hin; inversion Hin].
  assert (Hof : hooks_of app name = hooks) by (unfold hooks_of; now rewrite E).
  rewrite Hof in Hin.
  pose proof (remove_first_wrapper (closure_this closure) k hooks hook Hin Hentry) as Hrm.
  pose proof (I2 k closure Hk) as Hone. rewrite Hname, Hof in Hone.
  split.
  - split; [|split].
    + intros name' h k' Hin' Hcb'. rewrite hooks_of_set_hooks in Hin'. simpl.
      destruct (decide (name = name')) as [<-|]; [|now apply (I1 name' h k')].
      apply (I1 name h k'); [|exact Hcb']. rewrite Hof.
      eapply remove_first_subset, Hin'.
    + intros k' c' Hc'. simpl in Hc'. rewrite hooks_of_set_hooks.
      match goal with |- context [times_invoked ?c (set_hooks ?n ?l ?a)] =>
        change (times_invoked c (set_hooks n l a)) with (times_invoked c a) end.
      rewrite times_invoked_record.
      change (hooks_of (record_invocation (once_wrapper k) app)) with (hooks_of app).
      specialize (I2 k' c' Hc').
      destruct (decide (k' = k)) as [->|Hne].
      * assert (c' = closure) as -> by congruence.
        rewrite Hname. rewrite !decide_True by reflexivity. lia.
      * rewrite (decide_False (P := once_wrapper k = once_wrapper k'))
          by (intros [= ?]; congruence).
        destruct (decide (name = closure_name c')) as [Heq|]; [|lia].
        rewrite <- Heq, Hof in I2.
        pose proof (remove_first_wrappers_le (is_entry (closure_this closure) (once_wrapper k))
                      k' hooks). lia.
    + intros k' Hin'. simpl in *. apply in_app_or in Hin' as [Hin'|[[= <-]|[]]].
      * now apply I3.
      * now apply lookup_lt_Some in Hk.
  - rewrite hooks_of_set_hooks, decide_True by reflexivity.
    unfold times_invoked in Hone. lia.
Qed.


Lemma wrappers_in_zero k l hook :
  wrappers_in k l = 0%nat -> hook ∈ l -> hook_callback hook <> once_wrapper k.
Proof.
  induction l as [|h l IH]; intros Hz Hin; [inversion Hin|].
  rewrite wrappers_in_cons in Hz.
  apply elem_of_cons in Hin as [->|Hin].
  - intros Hcb. rewrite bool_decide_eq_true_2 in Hz by exact Hcb. lia.
  - apply IH; [lia | exact Hin].
Qed.

(** Every function of the interpreter maintains the invariant, with any
    amount of fuel, whether it runs to its end or not. *)
Lemma dispatch_invariant bodies : forall fuel,
  (forall ops app, once_invariant app ->
     once_invariant (fst (run_ops fuel bodies ops app))) /\
  (forall op app, once_invariant app ->
     once_invariant (fst (run_op fuel bodies op app))) /\
  (forall meta name i app, once_invariant app ->
     once_invariant (fst (bail_from fuel bodies meta name i app))) /\
  (forall meta name i app, once_invariant app ->
     once_invariant (fst (emit_from fuel bodies meta name i app))) /\
  (forall hook name app, once_invariant app -> hook ∈ hooks_of app name ->
     once_invariant (fst (invoke fuel bodies hook app))) /\
  (forall body app, once_invariant app ->
     once_invariant (fst (run_body fuel bodies body app))).
Proof.
  induction fuel as [|fuel (IHops & IHop & IHbail & IHemit & IHinvoke & IHbody)].
  { split; [|split; [|split; [|split; [|split]]]]; intros; simpl; assumption. }
  split; [|split; [|split; [|split; [|split]]]].
  - intros [|op rest] app H; simpl; [exact H|].
    pose proof (IHop op app H) as H1.
    destruct (run_op fuel bodies op app) as [app1 [b| |]]; simpl in *; auto.
  - intros op app H. destruct op as
      [this name f|this name f|this name f|this name cb|meta name|meta name|meta name i|op];
      simpl.
    + now apply addListener_invariant.
    + now apply prependListener_invariant.
    + now apply once_invariant_once.
    + now apply removeListener_invariant.
    + now apply IHbail.
    + now apply IHemit.
    + destruct (hooks_of app name !! i) as [hook|] eqn:E; [|exact H].
      destruct (match_ (fields (hook_context hook)) meta) as [[|]|]; simpl; auto.
      apply (IHinvoke hook name); [exact H|]. eapply list_elem_of_lookup_2, E.
    + pose proof (IHop op app H) as H1.
      destruct (run_op fuel bodies op app) as [app1 [b| |]]; simpl in *; auto.
  - intros meta name i app H. simpl.
    destruct (hooks_of app name !! i) as [hook|] eqn:E; [|exact H].
    destruct (match_ (fields (hook_context hook)) meta) as [[|]|]; simpl; auto.
    pose proof (IHinvoke hook name app H (list_elem_of_lookup_2 _ _ _ E)) as H1.
    destruct (invoke fuel bodies hook app) as [app1 [[|]| |]]; simpl in *; auto.
  - intros meta name i app H. simpl.
    destruct (hooks_of app name !! i) as [hook|] eqn:E; [|exact H].
    destruct (match_ (fields (hook_context hook)) meta) as [[|]|]; simpl; auto.
    pose proof (IHinvoke hook name app H (list_elem_of_lookup_2 _ _ _ E)) as H1.
    destruct (invoke fuel bodies hook app) as [app1 [b| |]]; simpl in *; auto.
  - intros hook name app H Hin. simpl.
    destruct (hook_callback hook) as [f|k] eqn:Hcb.
    + apply IHbody. now apply record_listener_invariant.
    + destruct H as (I1 & I2 & I3).
      destruct (I1 name hook k Hin Hcb) as (closure & Hk & _).
      rewrite Hk. apply IHbody.
      now apply (wrapper_unsubscribes name hook).
  - intros body app H. simpl.
    pose proof (IHops (steps body) app H) as H1.
    destruct (run_ops fuel bodies (steps body) app) as [app1 [b| |]]; simpl in *; auto.
Qed.

Lemma removeListener_closures this name callback app :
  closures (removeListener this name callback app) = closures app.
Proof. unfold removeListener. now destruct (_hooks app !! name). Qed.

Lemma new_app_invariant : once_invariant new_app.
Proof.
  split; [|split].
  - intros name hook k Hin. inversion Hin.
  - intros k closure Hk. discriminate.
  - intros k [].
Qed.

Lemma reachable_invariant app : reachable app -> once_invariant app.
Proof.
  intros (fuel & bodies & ops & ->).
  apply (dispatch_invariant bodies fuel), new_app_invariant.
Qed.

End Once.

(** C10.  In every state that registrations and dispatches can bring
    about, whatever the listeners do (throw, dispatch the same event
    again, register and remove listeners), a closure created by [once]
    has been called at most one time, so the listener it wraps has run
    at most once for that registration; and when the closure is called
    from its entry in the hook list, the state in which the wrapped
    listener starts no longer has the closure in any hook list. *)
Theorem once_fires_at_most_once (app : Context.App) (k : nat) :
  reachable app ->
  (times_invoked (Context.once_wrapper k) app <= 1)%nat /\
  (forall name hook closure,
     hook ∈ Context.hooks_of app name ->
     Context.hook_callback hook = Context.once_wrapper k ->
     Context.closures app !! k = Some closure ->
     forall name' hook',
       hook' ∈ Context.hooks_of
                 (Context.removeListener (Context.closure_this closure)
                    (Context.closure_name closure) (Context.once_wrapper k)
                    (Context.record_invocation (Context.once_wrapper k) app)) name' ->
       Context.hook_callback hook' <> Context.once_wrapper k).
Proof.
  intros Hreach. pose proof (reachable_invariant app Hreach) as Hinv.
  split.
  - destruct Hinv as (I1 & I2 & I3).
    destruct (Context.closures app !! k) as [closure|] eqn:Hk.
    + specialize (I2 k closure Hk). lia.
    + assert (times_invoked (Context.once_wrapper k) app = 0%nat) as ->; [|lia].
      apply count_occ_not_In. intros Hin. apply I3 in Hin.
      apply lookup_ge_None in Hk. lia.
  - intros name hook closure Hin Hcb Hk name' hook' Hin' Hcb'.
    destruct (wrapper_unsubscribes name hook k closure app Hinv Hin Hcb Hk)
      as [(I1' & _ & _) Hzero].
    destruct (I1' name' hook' k Hin' Hcb') as (c & Hc & Hname' & _).
    rewrite removeListener_closures in Hc. simpl in Hc.
    assert (c = closure) as -> by congruence.
    destruct Hinv as (I1 & _ & _).
    destruct (I1 name hook k Hin Hcb) as (c0 & Hc0 & Hname & _).
    assert (c0 = closure) as -> by congruence.
    assert (name' = name) as -> by congruence.
    exact (wrappers_in_zero k _ hook' Hzero Hin' Hcb').
Qed.

Lemma once_fires_at_most_once_witness :
  times_invoked (Context.once_wrapper 0)
    (fst (Context.run_ops 50 redispatching two_dispatches new_app)) = 1%nat /\
  ((times_invoked (Context.once_wrapper 0)
      (fst (Context.run_ops 50 redispatching two_dispatches new_app)) <= 1)%nat /\
   (forall name hook closure,
      hook ∈ Context.hooks_of
               (fst (Context.run_ops 50 redispatching two_dispatches new_app)) name ->
      Context.hook_callback hook = Context.once_wrapper 0 ->
      Context.closures (fst (Context.run_ops 50 redispatching two_dispatches new_app))
        !! 0%nat = Some closure ->
      forall name' hook',
        hook' ∈ Context.hooks_of
                  (Context.removeListener (Context.closure_this closure)
                     (Context.closure_name closure) (Context.once_wrapper 0)
                     (Context.record_invocation (Context.once_wrapper 0)
                        (fst (Context.run_ops 50 redispatching two_dispatches new_app))))
                  name' ->
        Context.hook_callback hook' <> Context.once_wrapper 0)).
Proof.
  split; [reflexivity|].
  apply (once_fires_at_most_once
           (fst (Context.run_ops 50 redispatching two_dispatches new_app)) 0).
  exists 50%nat, redispatching, two_dispatches. reflexivity.
Defined.

(** ** Fan-out dispatch *)

Section FanOut.

Import Context.

Lemma first_rejection_None tasks :
  first_rejection tasks = None ->
  Forall (fun task => settlement task = fulfilled) tasks.
Proof.
  induction tasks as [|task rest IH]; simpl; intros H; [constructor|].
  destruct (settlement task) eqn:E.
  - constructor; auto.
  - destruct (first_rejection rest) as [[tick reason']|];
      [destruct (_ <=? _)%nat|]; discriminate.
Qed.

Lemma first_rejection_fulfilled tasks :
  Forall (fun task => settlement task = fulfilled) tasks ->
  first_rejection tasks = None.
Proof.
  induction 1 as [|task rest Htask Hrest IH]; simpl; [reflexivity|].
  now rewrite Htask.
Qed.

Lemma first_rejection_Some tasks tick reason :
  first_rejection tasks = Some (tick, reason) ->
  (exists first, first ∈ tasks /\ settles_at first = tick /\
     settlement first = rejected reason) /\
  (forall task reason', task ∈ tasks -> settlement task = rejected reason' ->
     (tick <= settles_at task)%nat).
Proof.
  revert tick reason. induction tasks as [|task rest IH]; simpl; intros tick reason H;
    [discriminate|].
  destruct (settlement task) as [|r] eqn:E.
  - destruct (IH _ _ H) as ((first & Hin & Ht & Hs) & Hle). split.
    + exists first. split; [now right | auto].
    + intros t r' Hin' Hr'. apply elem_of_cons in Hin' as [->|Hin']; [congruence|].
      eapply Hle; eauto.
  - destruct (first_rejection rest) as [[tick' reason']|] eqn:Erest.
    + destruct (IH _ _ eq_refl) as ((first & Hin & Ht & Hs) & Hle).
      destruct (Nat.leb_spec (settles_at task) tick'); injection H as <- <-.
      * split; [exists task; split; [left | auto]|].
        intros t r' Hin' Hr'. apply elem_of_cons in Hin' as [->|Hin']; [lia|].
        specialize (Hle t r' Hin' Hr'). lia.
      * split; [exists first; split; [now right | auto]|].
        intros t r' Hin' Hr'. apply elem_of_cons in Hin' as [->|Hin']; [lia|].
        eapply Hle; eauto.
    + injection H as <- <-. split; [exists task; split; [left | auto]|].
      intros t r' Hin' Hr'. apply elem_of_cons in Hin' as [->|Hin']; [lia|].
      pose proof (first_rejection_None rest Erest) as Hall.
      rewrite Forall_forall in Hall. rewrite (Hall t Hin') in Hr'. discriminate.
Qed.

Lemma max_settles_at tasks task :
  task ∈ tasks -> (settles_at task <= foldr Nat.max 0%nat (map settles_at tasks))%nat.
Proof.
  induction tasks as [|t rest IH]; intros Hin; [inversion Hin|]. simpl.
  apply elem_of_cons in Hin as [->|Hin]; [lia|]. specialize (IH Hin). lia.
Qed.

(** The loop calls the matching listeners in order and collects what
    they return, as long as they return. *)
Lemma parallelize_loop_returns call meta hooks : forall tasks called,
  Forall (fun hook => is_Some (match_ (fields (hook_context hook)) meta)) hooks ->
  Forall (fun hook => exists task, call (hook_callback hook) = returned task)
         (matching meta hooks) ->
  parallelize_loop call meta hooks tasks called =
  (called ++ map hook_callback (matching meta hooks),
   inr (tasks ++ tasks_of call (matching meta hooks))).
Proof.
  induction hooks as [|hook rest IH]; intros tasks called Hsome Hret; simpl.
  - now rewrite !app_nil_r.
  - inversion Hsome as [|? ? [b Hb] Hrest]; subst. unfold matching in *. simpl in *.
    rewrite Hb in *. destruct b; simpl in *.
    + inversion Hret as [|? ? [task Htask] Hret']; subst. rewrite Htask.
      rewrite IH by assumption. unfold tasks_of. simpl. rewrite ?Htask.
      now rewrite <- !app_assoc.
    + now apply IH.
Qed.

(** A listener that throws when called ends the loop: the listeners
    behind it are not called, and the promise is rejected at once. *)
Lemma parallelize_loop_throws call meta before hook behind error : forall tasks called,
  Forall (fun hook => is_Some (match_ (fields (hook_context hook)) meta)) before ->
  Forall (fun hook => exists task, call (hook_callback hook) = returned task)
         (matching meta before) ->
  match_ (fields (hook_context hook)) meta = Some true ->
  call (hook_callback hook) = threw error ->
  parallelize_loop call meta (before ++ hook :: behind) tasks called =
  (called ++ map hook_callback (matching meta before) ++ [hook_callback hook],
   inl error).
Proof.
  induction before as [|h rest IH]; intros tasks called Hsome Hret Hmatch Hthrow; simpl.
  - now rewrite Hmatch, Hthrow.
  - inversion Hsome as [|? ? [b Hb] Hrest]; subst. unfold matching in *. simpl in *.
    rewrite Hb in *. destruct b; simpl in *.
    + inversion Hret as [|? ? [task Htask] Hret']; subst. rewrite Htask.
      rewrite IH by assumption. now rewrite <- !app_assoc.
    + now apply IH.
Qed.

End FanOut.





(** ** Containment of contexts *)

Section Containment.

Import Utils.

Lemma le_fold_max (l : list Z) x : In x l -> x <= foldr Z.max 0 l.
Proof.
  induction l as [|y l IH]; simpl; [contradiction|].
  intros [->|H]; [lia | specialize (IH H); lia].
Qed.

Lemma fresh_id (l : list Z) : exists x, includes l x = false.
Proof.
  exists (foldr Z.max 0 l + 1).
  destruct (includes l (foldr Z.max 0 l + 1)) eqn:E; [|reflexivity].
  apply includes_In, le_fold_max in E. lia.
Qed.

Lemma contain_spec a b :
  contain a b = true <-> forall x, includes b x = true -> includes a x = true.
Proof.
  unfold contain. rewrite forallb_forall. split.
  - intros H x Hx. apply H. now apply includes_In.
  - intros H x Hx. apply H. now apply includes_In.
Qed.

Lemma intersection_empty a b :
  bool_decide (length (intersection a b) = 0%nat) = true <->
  forall x, includes a x = true -> includes b x = false.
Proof.
  rewrite bool_decide_eq_true. unfold intersection. split.
  - intros H x Hx. destruct (includes b x) eqn:E; [|reflexivity].
    apply includes_In in Hx.
    assert (Hin : In x (List.filter (fun item => includes b item) a))
      by (apply filter_In; auto).
    destruct (List.filter (fun item => includes b item) a); [contradiction | discriminate].
  - intros H. induction a as [|y a IH]; [reflexivity|]. simpl.
    rewrite (H y) by (simpl; now rewrite Z.eqb_refl).
    apply IH. intros x Hx. apply H. simpl. rewrite Hx. apply orb_true_r.
Qed.

Lemma well_formed_sub_cases s :
  well_formed_sub s ->
  (exists include exclude, s = (Some include, exclude)) \/
  (exists exclude, s = (None, Some exclude)).
Proof.
  destruct s as [[i|] [e|]]; intros [[? H]|[? H]]; simpl in H; try discriminate; eauto.
Qed.

Lemma contain_sub_spec s1 s2 :
  well_formed_sub s1 -> well_formed_sub s2 ->
  exists holds, Context.contain_sub s1 s2 = Some holds /\
    (holds = true <->
     forall id, Context.match_sub s2 id = Some true -> Context.match_sub s1 id = Some true).
Proof.
  intros H1 H2.
  destruct (well_formed_sub_cases s1 H1) as [(i1 & x1 & ->)|(e1 & ->)],
           (well_formed_sub_cases s2 H2) as [(i2 & x2 & ->)|(e2 & ->)].
  - exists (contain i1 i2). split; [reflexivity|]. rewrite contain_spec. simpl. split.
    + intros H id [= Hid]. f_equal. auto.
    + intros H x Hx. specialize (H x). rewrite Hx in H. specialize (H eq_refl).
      now injection H.
  - exists false. split; [reflexivity|]. split; [discriminate|]. intros H. exfalso.
    destruct (fresh_id (e2 ++ i1)) as [x Hx]. rewrite includes_app in Hx.
    apply orb_false_elim in Hx as [Hx2 Hx1]. specialize (H x). simpl in H.
    rewrite Hx2, Hx1 in H. specialize (H eq_refl). discriminate.
  - exists (bool_decide (length (intersection i2 e1) = 0%nat)). split; [reflexivity|].
    rewrite intersection_empty. simpl. split.
    + intros H id [= Hid]. f_equal. now rewrite (H id Hid).
    + intros H x Hx. specialize (H x). rewrite Hx in H. specialize (H eq_refl).
      injection H as H. now apply negb_true_iff.
  - exists (contain e2 e1). split; [reflexivity|]. rewrite contain_spec. simpl. split.
    + intros H id [= Hid]. f_equal. apply negb_true_iff in Hid. apply negb_true_iff.
      destruct (includes e1 id) eqn:E; [|reflexivity]. rewrite (H id E) in Hid. discriminate.
    + intros H x Hx. specialize (H x). destruct (includes e2 x) eqn:E; [reflexivity|].
      specialize (H eq_refl). rewrite Hx in H. discriminate.
Qed.

End Containment.

Lemma contain_decides (A B : Context.t) :
  well_formed A -> well_formed B ->
  exists holds, Context.contain A B = Some holds /\
    (holds = true <->
     forall e, Context.match_ B e = Some true -> Context.match_ A e = Some true).
Proof.
  intros HA HB.
  destruct (scope_of_three A HA) as (a0 & a1 & a2 & EA & Ha0 & Ha1 & Ha2).
  destruct (scope_of_three B HB) as (b0 & b1 & b2 & EB & Hb0 & Hb1 & Hb2).
  destruct (contain_sub_spec a0 b0 Ha0 Hb0) as (h0 & E0 & S0).
  destruct (contain_sub_spec a1 b1 Ha1 Hb1) as (h1 & E1 & S1).
  destruct (contain_sub_spec a2 b2 Ha2 Hb2) as (h2 & E2 & S2).
  exists (h0 && h1 && h2). split.
  { unfold Context.contain. rewrite EA, EB. simpl. rewrite E0. simpl.
    destruct h0; [|reflexivity]. rewrite E1. simpl.
    destruct h1; [|reflexivity]. rewrite E2. simpl. now destruct h2. }
  rewrite !andb_true_iff, S0, S1, S2. split.
  - intros [[H0 H1] H2] [m|]; [|reflexivity]. simpl.
    destruct (ctxType m) as [[| |]|]; rewrite ?EA, ?EB; simpl; auto.
  - intros H. repeat split; intros id Hid.
    + specialize (H (Some {| ctxType := Some user; ctxId := id; userId := 0;
                             groupId := 0; anonymous := false; _argv := None;
                             _user := None; _group := None |})).
      simpl in H. rewrite EA, EB in H. auto.
    + specialize (H (Some {| ctxType := Some group; ctxId := id; userId := 0;
                             groupId := 0; anonymous := false; _argv := None;
                             _user := None; _group := None |})).
      simpl in H. rewrite EA, EB in H. auto.
    + specialize (H (Some {| ctxType := Some discuss; ctxId := id; userId := 0;
                             groupId := 0; anonymous := false; _argv := None;
                             _user := None; _group := None |})).
      simpl in H. rewrite EA, EB in H. auto.
Qed.

(** X1.  [A.contain(B)] decides containment of the matching predicates:
    for well-formed contexts it returns a boolean, and that boolean is
    [true] exactly when every event that [B] matches is matched by [A]
    as well. *)
Theorem contain_iff_match (A B : Context.t) :
  well_formed A -> well_formed B ->
  exists holds, Context.contain A B = Some holds /\
    (holds = true <->
     forall e, Context.match_ B e = Some true -> Context.match_ A e = Some true).
Proof. exact (contain_decides A B). Qed.

Lemma contain_iff_match_witness :
  exists holds, Context.contain everyone all_but_1 = Some holds /\
    (holds = true <->
     forall e, Context.match_ all_but_1 e = Some true ->
               Context.match_ everyone e = Some true).
Proof.
  apply (contain_iff_match everyone all_but_1);
    (split; [reflexivity | repeat (constructor; [right; simpl; eauto|]); constructor]).
Defined.

(** ** Identifiers and what they determine *)

Section Identifiers.

Import JS ContextScope.

Lemma parse_segment_one_sided scope segment scope' :
  parse_segment scope segment = Some scope' ->
  length scope = 3%nat -> Forall one_sided scope ->
  length scope' = 3%nat /\ Forall one_sided scope'.
Proof.
  unfold parse_segment. intros H Hlen Hall.
  destruct (exec segment) as [[type rest]|]; [|discriminate]. simpl in H.
  destruct (contextTypes.of_name type) as [type'|]; [|discriminate]. simpl in H.
  injection H as <-. split; [etransitivity; [apply length_insert | assumption]|].
  apply Forall_insert; [assumption|].
  destruct (String.eqb _ "+"); [left | right]; eauto.
Qed.

Lemma parse_fold_one_sided segments : forall scope scope',
  foldl (fun acc segment => scope ← acc; parse_segment scope segment)
        (Some scope) segments = Some scope' ->
  length scope = 3%nat -> Forall one_sided scope ->
  length scope' = 3%nat /\ Forall one_sided scope'.
Proof.
  induction segments as [|segment segments IH]; intros scope scope' H Hlen Hall.
  - injection H as <-. auto.
  - simpl in H. destruct (parse_segment scope segment) as [scope1|] eqn:E.
    + destruct (parse_segment_one_sided _ _ _ E Hlen Hall) as [Hlen1 Hall1].
      exact (IH scope1 scope' H Hlen1 Hall1).
    + rewrite parse_fold_None in H. discriminate.
Qed.

Lemma one_sided_well_formed s : one_sided s -> well_formed_sub s.
Proof. intros [[ids ->]|[ids ->]]; [left | right]; simpl; eauto. Qed.

(** Numbers in print *)

Lemma to_int_proper n :
  Z.to_int n <> Decimal.Pos Decimal.Nil /\ Z.to_int n <> Decimal.Neg Decimal.Nil.
Proof.
  destruct n as [|p|p]; simpl; split; try discriminate;
    intros [= H]; exact (DecimalPos.Unsigned.to_uint_nonnil p H).
Qed.

Lemma Number_toString_inj a b : Number_toString a = Number_toString b -> a = b.
Proof.
  unfold Number_toString. intros H.
  apply (f_equal NilZero.int_of_string) in H.
  destruct (to_int_proper a) as [Ha1 Ha2], (to_int_proper b) as [Hb1 Hb2].
  rewrite !NilZero.isi in H by assumption. injection H as H.
  apply (f_equal Z.of_int) in H. now rewrite !DecimalZ.of_to in H.
Qed.

Lemma string_of_uint_number_chars d :
  all_chars is_number_char (NilEmpty.string_of_uint d) = true.
Proof.
  apply (all_chars_impl is_digit); [|apply string_of_uint_digits].
  intros c Hc. unfold is_number_char. now rewrite Hc.
Qed.

Lemma Number_toString_chars n :
  nonempty (Number_toString n) = true /\
  all_chars is_number_char (Number_toString n) = true.
Proof.
  unfold Number_toString.
  destruct n as [|p|p]; simpl; [auto | |];
    pose proof (DecimalPos.Unsigned.to_uint_nonnil p) as Hp;
    destruct (Pos.to_uint p) eqn:E; try contradiction;
    (split; [reflexivity|]);
    try (change (all_chars is_number_char (NilEmpty.string_of_uint (Pos.to_uint p)) = true);
         rewrite ?E; apply string_of_uint_number_chars);
    rewrite <- E; simpl; rewrite E; apply (string_of_uint_number_chars).
Qed.

Lemma number_char_not_comma c : is_number_char c = true -> is_not "," c = true.
Proof.
  unfold is_number_char, is_not. rewrite orb_true_iff. intros [H|H].
  - now apply is_digit_not_comma.
  - apply Ascii.eqb_eq in H. now subst.
Qed.

Lemma number_char_not_semicolon c : is_number_char c = true -> is_not ";" c = true.
Proof.
  unfold is_number_char, is_not. rewrite orb_true_iff. intros [H|H].
  - now apply is_digit_not_semicolon.
  - apply Ascii.eqb_eq in H. now subst.
Qed.

(** [join] can be undone when no element is empty or holds the
    separator. *)
Lemma join_nonempty sep x l : nonempty x = true -> nonempty (join sep (x :: l)) = true.
Proof.
  destruct x as [|c x]; [discriminate|]. intros _.
  destruct l; [reflexivity|]. rewrite join_cons2. reflexivity.
Qed.

Lemma join_inj sep l1 l2 :
  Forall (fun s => nonempty s = true /\ all_chars (is_not sep) s = true) l1 ->
  Forall (fun s => nonempty s = true /\ all_chars (is_not sep) s = true) l2 ->
  join (String sep "") l1 = join (String sep "") l2 -> l1 = l2.
Proof.
  intros H1 H2 E.
  destruct l1 as [|x1 l1], l2 as [|x2 l2]; [reflexivity | | |].
  - exfalso. inversion H2 as [|? ? [Hx _] _]; subst.
    pose proof (join_nonempty (String sep "") x2 l2 Hx) as Hne.
    rewrite <- E in Hne. discriminate.
  - exfalso. inversion H1 as [|? ? [Hx _] _]; subst.
    pose proof (join_nonempty (String sep "") x1 l1 Hx) as Hne.
    rewrite E in Hne. discriminate.
  - rewrite <- (split_join sep (x1 :: l1)), <- (split_join sep (x2 :: l2)), E;
      [reflexivity | discriminate | | discriminate |].
    + eapply Forall_impl; [exact H2|]. simpl. tauto.
    + eapply Forall_impl; [exact H1|]. simpl. tauto.
Qed.

Lemma print_ids_inj ids1 ids2 : print_ids ids1 = print_ids ids2 -> ids1 = ids2.
Proof.
  unfold print_ids. intros E. apply join_inj in E.
  - revert ids2 E. induction ids1 as [|a l IH]; intros [|b l'] E; try discriminate;
      [reflexivity|].
    injection E as Hab Hl. f_equal; [now apply Number_toString_inj | now apply IH].
  - apply Forall_map, Forall_forall. intros id _. simpl.
    destruct (Number_toString_chars id) as [Hne Hch]. split; [assumption|].
    revert Hch. apply all_chars_impl, number_char_not_comma.
  - apply Forall_map, Forall_forall. intros id _. simpl.
    destruct (Number_toString_chars id) as [Hne Hch]. split; [assumption|].
    revert Hch. apply all_chars_impl, number_char_not_comma.
Qed.

Lemma print_ids_no_semicolon' ids : all_chars (is_not ";") (print_ids ids) = true.
Proof.
  unfold print_ids. induction ids as [|id ids IH]; [reflexivity|].
  assert (Hd : all_chars (is_not ";") (Number_toString id) = true).
  { destruct (Number_toString_chars id) as [_ Hch]. revert Hch.
    apply all_chars_impl, number_char_not_semicolon. }
  destruct ids as [|id' ids']; [exact Hd|].
  simpl map. rewrite join_cons2, !all_chars_app, Hd. simpl. exact IH.
Qed.

Lemma name_chars index :
  nonempty (contextTypes.name index) = true /\
  all_chars (is_not ";") (contextTypes.name index) = true.
Proof. destruct index as [|[|[|index]]]; split; reflexivity. Qed.

(** A segment in print: the name of the dimension, the sign, the ids. *)
Lemma stringify_sub_form index s segment :
  stringify_sub index s = Some segment ->
  exists sign ids,
    segment = contextTypes.name index +:+ String sign (print_ids ids) /\
    ((sign = "+"%char /\ fst s = Some ids) \/ (sign = "-"%char /\ s = (None, Some ids))).
Proof.
  destruct s as [[include|] [exclude|]]; simpl; intros [= <-];
    (exists "+"%char, include + exists "-"%char, exclude); split; auto.
Qed.

Lemma segment_chars index s segment :
  stringify_sub index s = Some segment ->
  nonempty segment = true /\ all_chars (is_not ";") segment = true.
Proof.
  intros H. destruct (stringify_sub_form _ _ _ H) as (sign & ids & -> & Hsign).
  destruct (name_chars index) as [Hne Hch]. split.
  - destruct (contextTypes.name index); [discriminate | reflexivity].
  - rewrite all_chars_app, Hch. simpl. rewrite print_ids_no_semicolon'.
    destruct Hsign as [[-> _]|[-> _]]; reflexivity.
Qed.

Lemma append_inv_head (p a b : string) : p +:+ a = p +:+ b -> a = b.
Proof.
  induction p as [|c p IH]; app_simpl; [auto|]. intros [= H]. auto.
Qed.

Lemma stringify_sub_match index s1 s2 segment :
  stringify_sub index s1 = Some segment -> stringify_sub index s2 = Some segment ->
  forall id, Context.match_sub s1 id = Context.match_sub s2 id.
Proof.
  intros H1 H2 id.
  destruct (stringify_sub_form _ _ _ H1) as (sign1 & ids1 & E1 & F1).
  destruct (stringify_sub_form _ _ _ H2) as (sign2 & ids2 & E2 & F2).
  rewrite E1 in E2. apply append_inv_head in E2. injection E2 as Hsign Hids.
  apply print_ids_inj in Hids. subst ids2 sign2.
  destruct s1 as [i1 e1], s2 as [i2 e2].
  destruct F1 as [[-> F1]|[-> F1]], F2 as [[? F2]|[? F2]]; try discriminate;
    simpl in F1, F2.
  - subst. reflexivity.
  - injection F1 as -> ->. injection F2 as -> ->. reflexivity.
Qed.

Lemma stringify_from_match S1 : forall S2 index segments,
  stringify_from index S1 = Some segments ->
  stringify_from index S2 = Some segments ->
  Forall2 (fun s1 s2 => forall id, Context.match_sub s1 id = Context.match_sub s2 id) S1 S2.
Proof.
  induction S1 as [|s1 S1 IH]; intros [|s2 S2] index segments H1 H2; simpl in H1, H2.
  - constructor.
  - injection H1 as <-.
    destruct (stringify_sub index s2); [|discriminate]. simpl in H2.
    destruct (stringify_from (S index) S2); discriminate.
  - injection H2 as <-.
    destruct (stringify_sub index s1); [|discriminate]. simpl in H1.
    destruct (stringify_from (S index) S1); discriminate.
  - destruct (stringify_sub index s1) as [seg1|] eqn:E1; [|discriminate]. simpl in H1.
    destruct (stringify_from (S index) S1) as [segs1|] eqn:F1; [|discriminate].
    destruct (stringify_sub index s2) as [seg2|] eqn:E2; [|discriminate]. simpl in H2.
    destruct (stringify_from (S index) S2) as [segs2|] eqn:F2; [|discriminate].
    simpl in H1, H2. injection H1 as <-. injection H2 as H2a H2b. subst.
    constructor.
    + exact (stringify_sub_match index s1 s2 seg1 E1 E2).
    + exact (IH S2 (S index) segs1 F1 F2).
Qed.

Lemma stringify_from_chars scope : forall index segments,
  stringify_from index scope = Some segments ->
  Forall (fun s => nonempty s = true /\ all_chars (is_not ";") s = true) segments.
Proof.
  induction scope as [|s scope IH]; intros index segments H; simpl in H.
  - injection H as <-. constructor.
  - destruct (stringify_sub index s) as [seg|] eqn:E; [|discriminate]. simpl in H.
    destruct (stringify_from (S index) scope) as [segs|] eqn:F; [|discriminate].
    simpl in H. injection H as <-. constructor; [exact (segment_chars _ _ _ E) | eauto].
Qed.

Lemma filter_nonempty segments :
  Forall (fun s => nonempty s = true /\ all_chars (is_not ";") s = true) segments ->
  List.filter nonempty segments = segments.
Proof.
  induction 1 as [|s l [Hs _] _ IH]; simpl; [reflexivity|]. now rewrite Hs, IH.
Qed.

Lemma stringify_segments scope identifier :
  stringify scope = Some identifier ->
  exists segments, stringify_from 0 scope = Some segments /\
    identifier = join ";" segments /\
    Forall (fun s => nonempty s = true /\ all_chars (is_not ";") s = true) segments.
Proof.
  unfold stringify. destruct (stringify_from 0 scope) as [segments|] eqn:E; [|discriminate].
  simpl. intros [= <-]. pose proof (stringify_from_chars scope 0 segments E) as H.
  exists segments. rewrite (filter_nonempty segments H). auto.
Qed.

Lemma createContext_Some scope ctx :
  Context.createContext scope = Some ctx ->
  stringify scope = Some (Context.identifier ctx) /\ Context._scope ctx = scope.
Proof.
  unfold Context.createContext. destruct (stringify scope); [|discriminate].
  simpl. intros [= <-]. auto.
Qed.

End Identifiers.

(** X2.  What [parse] returns is a scope descriptor of three subscopes,
    each with exactly one side, whatever the identifier; such a
    descriptor is one that [createContext] accepts. *)
Theorem parse_one_sided (identifier : string) (scope : ContextScope.t) :
  ContextScope.parse identifier = Some scope ->
  length scope = 3%nat /\ Forall one_sided scope /\
  is_Some (Context.createContext scope).
Proof.
  unfold ContextScope.parse. intros H.
  destruct (parse_fold_one_sided _ _ _ H) as [Hlen Hall];
    [reflexivity | repeat (constructor; [left; eauto|]); constructor |].
  split; [assumption|]. split; [assumption|].
  destruct (createContext_wf scope) as (ctx & -> & _); [|eauto].
  eapply Forall_impl; [exact Hall|]. apply one_sided_well_formed.
Qed.

Lemma parse_one_sided_witness :
  length [(Some [1; 2], None); (None, Some [3]); (Some [], None)] = 3%nat /\
  Forall one_sided [(Some [1; 2], None); (None, Some [3]); (Some [], None)] /\
  is_Some (Context.createContext [(Some [1; 2], None); (None, Some [3]); (Some [], None)]).
Proof. apply (parse_one_sided "user+1,2;group-3"). reflexivity. Defined.

(** X3.  The identifier determines what a context matches: two contexts
    made by [createContext] with the same identifier give the same
    answer on every event, also when their scopes differ (as
    [[ids], null] and [[ids], []] do). *)
Theorem identifier_determines_match (scope1 scope2 : ContextScope.t) (A B : Context.t) :
  Context.createContext scope1 = Some A ->
  Context.createContext scope2 = Some B ->
  Context.identifier A = Context.identifier B ->
  forall e, Context.match_ A e = Context.match_ B e.
Proof.
  intros HA HB Hid. apply createContext_Some in HA as [HA SA], HB as [HB SB].
  destruct (stringify_segments _ _ HA) as (segs1 & F1 & J1 & C1).
  destruct (stringify_segments _ _ HB) as (segs2 & F2 & J2 & C2).
  assert (segs1 = segs2) as <-.
  { apply (join_inj ";"); [assumption | assumption | congruence]. }
  pose proof (stringify_from_match _ _ _ _ F1 F2) as Hall.
  intros [m|]; [|reflexivity]. simpl. destruct (ctxType m) as [type|]; [|reflexivity].
  rewrite SA, SB.
  destruct (scope1 !! contextTypes.index type) as [s1|] eqn:E1;
    destruct (scope2 !! contextTypes.index type) as [s2|] eqn:E2; simpl.
  - destruct (Forall2_lookup_l _ _ _ _ _ Hall E1) as (s2' & E2' & Hs).
    pose proof (eq_trans (eq_sym E2) E2') as [= ->]. apply Hs.
  - destruct (Forall2_lookup_l _ _ _ _ _ Hall E1) as (s2' & E2' & _).
    pose proof (eq_trans (eq_sym E2) E2') as [=].
  - destruct (Forall2_lookup_r _ _ _ _ _ Hall E2) as (s1' & E1' & _).
    pose proof (eq_trans (eq_sym E1) E1') as [=].
  - reflexivity.
Qed.

Lemma identifier_determines_match_witness :
  Context.match_ {| Context.identifier := "user+1;group+1;discuss+1";
                    Context._scope := only_1 |} (Some event_of_7)
  = Context.match_ {| Context.identifier := "user+1;group+1;discuss+1";
                      Context._scope := only_1' |} (Some event_of_7).
Proof.
  apply (identifier_determines_match only_1 only_1'); reflexivity.
Defined.

Section InverseTwice.

Import ContextScope.

Lemma inverse_sub_twice index s segment :
  stringify_sub index s = Some segment ->
  exists s' s'' segment',
    Context.inverse_sub s = Some s' /\ Context.inverse_sub s' = Some s'' /\
    stringify_sub index s' = Some segment' /\
    stringify_sub index s'' = Some segment.
Proof.
  destruct s as [[include|] [exclude|]]; simpl; intros [= <-];
    do 3 eexists; repeat split.
Qed.

Lemma inverse_scope_twice scope : forall index segments,
  stringify_from index scope = Some segments ->
  exists scope' scope'' segments',
    mapM Context.inverse_sub scope = Some scope' /\
    mapM Context.inverse_sub scope' = Some scope'' /\
    stringify_from index scope' = Some segments' /\
    stringify_from index scope'' = Some segments.
Proof.
  induction scope as [|s scope IH]; intros index segments H; simpl in H.
  - injection H as <-. exists [], [], []. repeat split.
  - destruct (stringify_sub index s) as [seg|] eqn:E; [|discriminate]. simpl in H.
    destruct (stringify_from (S index) scope) as [segs|] eqn:F; [|discriminate].
    simpl in H. injection H as <-.
    destruct (inverse_sub_twice _ _ _ E) as (s' & s'' & seg' & I1 & I2 & P1 & P2).
    destruct (IH _ _ F) as (scope' & scope'' & segs' & M1 & M2 & Q1 & Q2).
    exists (s' :: scope'), (s'' :: scope''), (seg' :: segs'). repeat split.
    + cbn. rewrite I1. cbn. rewrite M1. reflexivity.
    + cbn. rewrite I2. cbn. rewrite M2. reflexivity.
    + simpl. rewrite P1. simpl. rewrite Q1. reflexivity.
    + simpl. rewrite P2. simpl. rewrite Q2. reflexivity.
Qed.

End InverseTwice.

(** X4.  Inverting twice gives back the identifier: for a context [A]
    made by [createContext], [A.inverse().inverse()] is a context with
    the identifier of [A] (its scope can differ from that of [A] by an
    empty exclude list beside an include list). *)
Theorem inverse_twice_identifier (scope : ContextScope.t) (A : Context.t) :
  Context.createContext scope = Some A ->
  exists V W, Context.inverse A = Some V /\ Context.inverse V = Some W /\
    Context.identifier W = Context.identifier A.
Proof.
  intros HA. apply createContext_Some in HA as [HA SA].
  unfold ContextScope.stringify in HA.
  destruct (ContextScope.stringify_from 0 scope) as [segments|] eqn:F; [|discriminate].
  simpl in HA. injection HA as HA.
  destruct (inverse_scope_twice _ _ _ F) as (scope' & scope'' & segs' & M1 & M2 & Q1 & Q2).
  exists {| Context.identifier :=
              JS.join ";" (List.filter ContextScope.nonempty segs');
            Context._scope := scope' |},
         {| Context.identifier :=
              JS.join ";" (List.filter ContextScope.nonempty segments);
            Context._scope := scope'' |}.
  unfold Context.inverse. rewrite SA, M1. simpl.
  unfold Context.createContext, ContextScope.stringify. rewrite Q1. simpl.
  split; [reflexivity|]. rewrite M2. simpl. rewrite Q2. simpl.
  split; [reflexivity | exact HA].
Qed.

Lemma inverse_twice_identifier_witness :
  exists V W,
    Context.inverse {| Context.identifier := "user+1;group+1;discuss+1";
                       Context._scope := only_1 |} = Some V /\
    Context.inverse V = Some W /\
    Context.identifier W = "user+1;group+1;discuss+1".
Proof. apply (inverse_twice_identifier only_1). reflexivity. Defined.


(** ** Hooks: registration and removal *)

Section Registration.

Import Context.

Lemma is_entry_refl this callback :
  is_entry this callback {| hook_context := this; hook_callback := callback |} = true.
Proof. unfold is_entry. simpl. now rewrite !bool_decide_eq_true_2. Qed.

Lemma remove_first_app p l1 l2 :
  remove_first p (l1 ++ l2) =
  if existsb p l1 then remove_first p l1 ++ l2 else l1 ++ remove_first p l2.
Proof.
  induction l1 as [|hook l1 IH]; simpl; [reflexivity|].
  destruct (p hook); simpl; [reflexivity|]. rewrite IH. now destruct (existsb p l1).
Qed.

Lemma remove_first_length p l :
  length (remove_first p l) = (length l - (if existsb p l then 1 else 0))%nat.
Proof.
  induction l as [|hook l IH]; simpl; [reflexivity|].
  destruct (p hook); simpl; [lia|]. rewrite IH.
  destruct (existsb p l) eqn:E; [|lia].
  destruct l; [discriminate | simpl; lia].
Qed.

Lemma remove_first_others p l :
  List.filter (fun hook => negb (p hook)) (remove_first p l)
  = List.filter (fun hook => negb (p hook)) l.
Proof.
  induction l as [|hook l IH]; simpl; [reflexivity|].
  destruct (p hook) eqn:E; simpl; [reflexivity|]. now rewrite E, IH.
Qed.

Lemma remove_first_absent p l : existsb p l = false -> remove_first p l = l.
Proof.
  induction l as [|hook l IH]; simpl; [reflexivity|].
  destruct (p hook); simpl; [discriminate|]. intros H. now rewrite IH.
Qed.

Lemma hooks_of_removeListener this name callback app name' :
  hooks_of (removeListener this name callback app) name' =
  if decide (name = name')
  then remove_first (is_entry this callback) (hooks_of app name')
  else hooks_of app name'.
Proof.
  unfold removeListener. destruct (_hooks app !! name) as [hooks|] eqn:E.
  - rewrite hooks_of_set_hooks. destruct (decide (name = name')) as [<-|]; [|reflexivity].
    unfold hooks_of. now rewrite E.
  - destruct (decide (name = name')) as [<-|]; [|reflexivity].
    unfold hooks_of. now rewrite E.
Qed.

End Registration.

(** X5.  Taking back a registration.  [off] right after [before], with
    the same context, event and listener, leaves the hooks of every
    event as they were.  After [on] it removes the oldest entry of that
    listener on that context: the new one only if there was none, and
    else an earlier one, so that the listener moves to the end of the
    list. *)
Theorem off_takes_back (this : Context.Instance) (name : string)
    (callback : Context.Callback) (app : Context.App) :
  (forall name',
     Context.hooks_of
       (Context.off this name callback (Context.before this name callback app)) name'
     = Context.hooks_of app name') /\
  Context.hooks_of (Context.off this name callback (Context.on this name callback app)) name
  = (if existsb (Context.is_entry this callback) (Context.hooks_of app name)
     then Context.remove_first (Context.is_entry this callback) (Context.hooks_of app name)
          ++ [{| Context.hook_context := this; Context.hook_callback := callback |}]
     else Context.hooks_of app name).
Proof.
  unfold Context.off, Context.before, Context.on. split.
  - intros name'. rewrite hooks_of_removeListener.
    unfold Context.prependListener. rewrite hooks_of_set_hooks.
    destruct (decide (name = name')) as [<-|]; [|reflexivity].
    simpl. now rewrite is_entry_refl.
  - rewrite hooks_of_removeListener. unfold Context.addListener.
    rewrite hooks_of_set_hooks, !decide_True by reflexivity.
    rewrite remove_first_app. simpl. rewrite is_entry_refl. simpl.
    destruct (existsb _ _); [reflexivity | apply app_nil_r].
Qed.


Section OnceRemoval.

Import Context.

Lemma existsb_is_entry_wrapper this k hooks :
  (forall hook, hook ∈ hooks -> hook_callback hook <> once_wrapper k) ->
  existsb (is_entry this (once_wrapper k)) hooks = false.
Proof.
  intros H. induction hooks as [|hook hooks IH]; [reflexivity|]. simpl.
  rewrite IH by (intros h Hh; apply H; now right).
  unfold is_entry. rewrite (bool_decide_eq_false_2 (hook_callback hook = once_wrapper k)).
  - now rewrite andb_false_r.
  - apply H. now left.
Qed.

Lemma hooks_of_once this name f app name' :
  hooks_of (once this name f app) name' =
  if decide (name = name')
  then hooks_of app name' ++
       [{| hook_context := this; hook_callback := once_wrapper (length (closures app)) |}]
  else hooks_of app name'.
Proof.
  unfold once, addListener. rewrite hooks_of_set_hooks.
  destruct (decide (name = name')) as [<-|]; reflexivity.
Qed.

End OnceRemoval.

(** X7.  Taking back a registration made with [once].  In every state
    that registrations and dispatches bring about, the function that
    [once] returns, which is [off] of the closure that [once] has
    registered, leaves the hooks of every event as they were before the
    call of [once]; but [off] of the listener itself does not take the
    registration back: when the listener is not registered on its own,
    it finds nothing and the closure stays where it is. *)
Theorem once_taken_back_by_its_closure (this : Context.Instance) (name : string)
    (f : nat) (app : Context.App) :
  reachable app ->
  let wrapper := Context.once_wrapper (length (Context.closures app)) in
  let app' := Context.once this name f app in
  (forall name',
     Context.hooks_of (Context.off this name wrapper app') name'
     = Context.hooks_of app name') /\
  (existsb (Context.is_entry this (Context.listener f)) (Context.hooks_of app name) = false ->
   Context.removeListener_result this name (Context.listener f) app' = None /\
   Context.hooks_of (Context.off this name (Context.listener f) app') name
   = Context.hooks_of app name
     ++ [{| Context.hook_context := this; Context.hook_callback := wrapper |}]).
Proof.
  intros Hreach. cbv zeta. apply reachable_invariant in Hreach as (I1 & _ & _).
  assert (Hfresh : existsb (Context.is_entry this
                              (Context.once_wrapper (length (Context.closures app))))
                           (Context.hooks_of app name) = false).
  { apply existsb_is_entry_wrapper. intros hook Hin Hcb.
    destruct (I1 name hook _ Hin Hcb) as (closure & Hk & _).
    apply lookup_lt_Some in Hk. lia. }
  unfold Context.off. split.
  - intros name'. rewrite hooks_of_removeListener, hooks_of_once.
    destruct (decide (name = name')) as [<-|]; [|reflexivity].
    rewrite remove_first_app, Hfresh. simpl. rewrite is_entry_refl. apply app_nil_r.
  - intros Habsent. unfold Context.removeListener_result.
    rewrite hooks_of_removeListener, hooks_of_once, !decide_True by reflexivity.
    rewrite existsb_app, Habsent. simpl.
    assert (Hother : Context.is_entry this (Context.listener f)
                       {| Context.hook_context := this;
                          Context.hook_callback :=
                            Context.once_wrapper (length (Context.closures app)) |}
                     = false).
    { unfold Context.is_entry. apply andb_false_intro2, bool_decide_eq_false_2.
      discriminate. }
    rewrite Hother. split; [reflexivity|].
    rewrite remove_first_app, Habsent. simpl. now rewrite Hother.
Qed.

Lemma once_taken_back_by_its_closure_witness :
  let wrapper := Context.once_wrapper (length (Context.closures new_app)) in
  let app' := Context.once root "ready" 0 new_app in
  (forall name',
     Context.hooks_of (Context.off root "ready" wrapper app') name'
     = Context.hooks_of new_app name') /\
  (existsb (Context.is_entry root (Context.listener 0)) (Context.hooks_of new_app "ready")
   = false ->
   Context.removeListener_result root "ready" (Context.listener 0) app' = None /\
   Context.hooks_of (Context.off root "ready" (Context.listener 0) app') "ready"
   = Context.hooks_of new_app "ready"
     ++ [{| Context.hook_context := root; Context.hook_callback := wrapper |}]).
Proof.
  apply (once_taken_back_by_its_closure root "ready" 0 new_app).
  exists 0%nat, redispatching, []. reflexivity.
Defined.

(** ** [bail]: the first result *)

Section Bail.

Import Context.

Variable bodies : nat -> Body.
Variable meta : option Meta.
Variable name : string.

Lemma hooks_of_record callback app name' :
  hooks_of (record_invocation callback app) name' = hooks_of app name'.
Proof. reflexivity. Qed.

Lemma hooks_of_records callbacks : forall app name',
  hooks_of (record_invocations callbacks app) name' = hooks_of app name'.
Proof.
  induction callbacks as [|callback callbacks IH]; intros app name'; [reflexivity|].
  simpl. now rewrite IH.
Qed.

Lemma record_invocations_app l1 l2 app :
  record_invocations (l1 ++ l2) app = record_invocations l2 (record_invocations l1 app).
Proof. unfold record_invocations. apply foldl_app. Qed.

Lemma matching_cons_true hook hooks :
  match_ (fields (hook_context hook)) meta = Some true ->
  matching meta (hook :: hooks) = hook :: matching meta hooks.
Proof. intros H. unfold matching. simpl. now rewrite H. Qed.

Lemma matching_cons_false hook hooks :
  match_ (fields (hook_context hook)) meta = Some false ->
  matching meta (hook :: hooks) = matching meta hooks.
Proof. intros H. unfold matching. simpl. now rewrite H. Qed.

(** A call of a plain listener records the call and completes. *)
Lemma invoke_plain fuel hook c app :
  plain bodies hook c ->
  invoke (S (S (S fuel))) bodies hook app
  = (record_invocation (hook_callback hook) app, outcome_of c).
Proof.
  intros (f & Hcb & Hbody). simpl. rewrite Hcb, Hbody. simpl. now destruct c.
Qed.

Lemma bail_from_step fuel i app :
  bail_from (S fuel) bodies meta name i app =
  match hooks_of app name !! i with
  | None => (app, normal false)
  | Some hook =>
      match match_ (fields (hook_context hook)) meta with
      | None => (app, exception)
      | Some false => bail_from fuel bodies meta name (S i) app
      | Some true =>
          let '(app, out) := invoke fuel bodies hook app in
          match out with
          | normal false => bail_from fuel bodies meta name (S i) app
          | _ => (app, out)
          end
      end
  end.
Proof. reflexivity. Qed.

Lemma bail_passes_over pre : forall done rest app fuel,
  hooks_of app name = done ++ pre ++ rest ->
  Forall (passed_over bodies meta) pre ->
  (3 <= fuel)%nat ->
  bail_from (length pre + fuel) bodies meta name (length done) app
  = bail_from fuel bodies meta name (length done + length pre)
      (record_invocations (map hook_callback (matching meta pre)) app).
Proof.
  induction pre as [|hook pre IH]; intros done rest app fuel Hhooks Hall Hfuel.
  - simpl. now rewrite Nat.add_0_r.
  - inversion Hall as [|? ? Hhook Hpre]; subst.
    assert (Hlook : hooks_of app name !! length done = Some hook).
    { rewrite Hhooks. rewrite lookup_app_r by reflexivity.
      now rewrite Nat.sub_diag. }
    assert (Hnext : forall app', hooks_of app' name = hooks_of app name ->
              bail_from (length pre + fuel) bodies meta name (S (length done)) app'
              = bail_from fuel bodies meta name (length done + length (hook :: pre))
                  (record_invocations (map hook_callback (matching meta pre)) app')).
    { intros app' Happ'.
      pose proof (IH (done ++ [hook]) rest app' fuel) as E.
      rewrite length_app in E. simpl in E.
      replace (length done + 1)%nat with (S (length done)) in E by lia.
      rewrite E; [f_equal; simpl; lia | | assumption | assumption].
      rewrite Happ', Hhooks, <- app_assoc. reflexivity. }
    change (length (hook :: pre) + fuel)%nat with (S (length pre + fuel)).
    rewrite bail_from_step, Hlook.
    destruct Hhook as [Hno|[Hyes Hplain]].
    + rewrite Hno, (matching_cons_false _ _ Hno). now apply Hnext.
    + rewrite Hyes, (matching_cons_true _ _ Hyes).
      destruct (length pre + fuel)%nat as [|[|[|fuel']]] eqn:Efuel; try lia.
      rewrite (invoke_plain fuel' hook _ app Hplain). cbn [outcome_of].
      rewrite Hnext by reflexivity. reflexivity.
Qed.

End Bail.

(** X8.  [bail] stops at the first result.  When the hooks of the event
    are [pre ++ hook :: post], every hook of [pre] is passed over (its
    context does not match the event, or its listener returns a falsy
    value), and [hook] matches and its listener returns a truthy value
    or throws, then [bail] returns that value, or throws, having called
    the matching listeners of [pre] and then that of [hook], in this
    order, and none of [post].  (Listeners that leave the hooks alone;
    any fuel from [length pre + 4] on.) *)
Theorem bail_first_result (bodies : nat -> Context.Body) (meta : option Meta)
    (name : string) (app : Context.App) (pre post : list Context.Hook)
    (hook : Context.Hook) (c : Context.Completion) (fuel : nat) :
  Context.hooks_of app name = pre ++ hook :: post ->
  Forall (passed_over bodies meta) pre ->
  Context.match_ (Context.fields (Context.hook_context hook)) meta = Some true ->
  plain bodies hook c -> c <> Context.returns_ false ->
  (length pre + 4 <= fuel)%nat ->
  Context.bail_from fuel bodies meta name 0 app
  = (record_invocations
       (map Context.hook_callback (matching meta pre) ++ [Context.hook_callback hook]) app,
     outcome_of c).
Proof.
  intros Hhooks Hpre Hmatch Hplain Hc Hfuel.
  replace fuel with (length pre + (fuel - length pre))%nat by lia.
  rewrite (bail_passes_over bodies meta name pre [] (hook :: post) app) by (auto; lia).
  destruct (fuel - length pre)%nat as [|[|[|[|fuel']]]] eqn:E; try lia.
  rewrite bail_from_step. simpl length. rewrite Nat.add_0_l.
  rewrite hooks_of_records, Hhooks, lookup_app_r by reflexivity. rewrite Nat.sub_diag.
  simpl lookup. cbv iota beta.
  rewrite Hmatch, (invoke_plain bodies fuel' hook c _ Hplain).
  rewrite record_invocations_app. simpl.
  destruct c as [[|]|]; [reflexivity | contradiction | reflexivity].
Qed.

Lemma bail_first_result_witness :
  Context.bail_from 5 answering None "message" 0 three_hooks
  = (record_invocations [Context.listener 1; Context.listener 2] three_hooks,
     Context.normal true).
Proof.
  apply (bail_first_result answering None "message" three_hooks
           [{| Context.hook_context := root; Context.hook_callback := Context.listener 1 |}]
           [{| Context.hook_context := root; Context.hook_callback := Context.listener 3 |}]
           {| Context.hook_context := root; Context.hook_callback := Context.listener 2 |}
           (Context.returns_ true) 5).
  - reflexivity.
  - constructor; [|constructor]. right. split; [reflexivity|].
    exists 1%nat. split; reflexivity.
  - reflexivity.
  - exists 2%nat. split; reflexivity.
  - discriminate.
  - vm_compute. lia.
Defined.

(** X9.  [bail] without a result.  When every hook of the event is
    passed over, [bail] returns no value ([undefined]), having called
    every listener whose context matches the event, in the order of the
    list. *)
Theorem bail_no_result (bodies : nat -> Context.Body) (meta : option Meta)
    (name : string) (app : Context.App) (fuel : nat) :
  Forall (passed_over bodies meta) (Context.hooks_of app name) ->
  (length (Context.hooks_of app name) + 4 <= fuel)%nat ->
  Context.bail_from fuel bodies meta name 0 app
  = (record_invocations
       (map Context.hook_callback (matching meta (Context.hooks_of app name))) app,
     Context.normal false).
Proof.
  intros Hall Hfuel. set (hooks := Context.hooks_of app name) in *.
  replace fuel with (length hooks + (fuel - length hooks))%nat by lia.
  rewrite (bail_passes_over bodies meta name hooks [] [] app)
    by (rewrite ?app_nil_r; auto; lia).
  destruct (fuel - length hooks)%nat as [|fuel'] eqn:E; [lia|].
  rewrite bail_from_step. simpl length. rewrite Nat.add_0_l.
  rewrite hooks_of_records. fold hooks.
  rewrite lookup_ge_None_2 by lia. reflexivity.
Qed.

Lemma bail_no_result_witness :
  Context.bail_from 5 answering None "message" 0
    (Context.on root "message" (Context.listener 1) new_app)
  = (record_invocations [Context.listener 1]
       (Context.on root "message" (Context.listener 1) new_app),
     Context.normal false).
Proof.
  apply (bail_no_result answering None "message"
           (Context.on root "message" (Context.listener 1) new_app) 5).
  - constructor; [|constructor]. right. split; [reflexivity|].
    exists 1%nat. split; reflexivity.
  - vm_compute. lia.
Defined.


(** ** [execute]: outcomes, the [before-command] check, option actions *)

Section Outcomes.

Import Command.

Variable env : Env.

Lemma run_actions_result argv actions : forall r,
  snd (run_actions env argv actions r) <> Resolved None.
Proof.
  induction actions as [|a rest IH]; intros r; simpl; [discriminate|].
  destruct (run env (call a argv) (record_action a r)) as [r1 [[s|]|error]];
    simpl; [discriminate | apply IH | discriminate].
Qed.

Lemma attempt_result this argv : snd (attempt this env argv) <> Resolved None.
Proof.
  unfold attempt.
  destruct (run env (before_command env argv) _) as [r1 [[s|]|error]];
    simpl; [discriminate | apply run_actions_result | discriminate].
Qed.

Lemma nonempty_false s : ContextScope.nonempty s = false -> s = "".
Proof. destruct s; [reflexivity | discriminate]. Qed.

(** What an invocation does next depends on its state and on the calls
    of the continuation so far, not on the actions recorded. *)
Lemma run_alike b : forall r r',
  state r = state r' -> calls_of_next r = calls_of_next r' -> warnings r = warnings r' ->
  snd (run env b r) = snd (run env b r') /\
  state (fst (run env b r)) = state (fst (run env b r')) /\
  calls_of_next (fst (run env b r)) = calls_of_next (fst (run env b r')) /\
  warnings (fst (run env b r)) = warnings (fst (run env b r')).
Proof.
  induction b as [outcome | resolved IHres rejected IHrej]; intros r r' Hs Hc Hw; simpl.
  - auto.
  - rewrite <- Hc. destruct (next env (calls_of_next r)) as [error|].
    + apply IHrej; simpl; congruence.
    + apply IHres; simpl; congruence.
Qed.

Lemma run_actions_alike argv actions : forall r r',
  state r = state r' -> calls_of_next r = calls_of_next r' -> warnings r = warnings r' ->
  snd (run_actions env argv actions r) = snd (run_actions env argv actions r') /\
  state (fst (run_actions env argv actions r))
    = state (fst (run_actions env argv actions r')) /\
  calls_of_next (fst (run_actions env argv actions r))
    = calls_of_next (fst (run_actions env argv actions r')) /\
  warnings (fst (run_actions env argv actions r))
    = warnings (fst (run_actions env argv actions r')).
Proof.
  induction actions as [|a rest IH]; intros r r' Hs Hc Hw; simpl; [auto|].
  destruct (run_alike (call a argv) (record_action a r) (record_action a r') Hs Hc Hw)
    as (Hres & Hs1 & Hc1 & Hw1).
  destruct (run env (call a argv) (record_action a r)) as [r1 result].
  destruct (run env (call a argv) (record_action a r')) as [r1' result'].
  simpl in Hres, Hs1, Hc1, Hw1. subst result'.
  destruct result as [[s|]|error]; simpl; auto.
Qed.

End Outcomes.


(** X11.  The [before-command] check.  When the listeners of
    [before-command] answer with a string, [execute] resolves with that
    string, no action of the command is called, and nothing is
    logged. *)
Theorem before_command_answers (this : Command.t) (env : Command.Env)
    (argv : Command.Argv) (answer : string) :
  returns env (Command.before_command env argv) (Some answer) ->
  let '(r, result) := Command.execute this env argv in
  result = Command.Resolved (Some answer) /\
  Command.executed r = [] /\ Command.warnings r = [].
Proof.
  intros Hret. unfold Command.execute, Command.attempt.
  set (r0 := Command.Build_Run _ _ _ _).
  pose proof (Hret r0) as Hres.
  pose proof (run_executed env (Command.before_command env argv) r0) as Hex.
  pose proof (run_warnings env (Command.before_command env argv) r0) as Hw.
  destruct (Command.run env (Command.before_command env argv) r0) as [r1 result].
  simpl in Hres, Hex, Hw. subst result. auto.
Qed.

Lemma before_command_answers_witness :
  let '(r, result) := Command.execute (register [throwing] no_actions) vetoed some_argv in
  result = Command.Resolved (Some "denied") /\
  Command.executed r = [] /\ Command.warnings r = [].
Proof.
  apply (before_command_answers (register [throwing] no_actions) vetoed some_argv "denied").
  intros r. reflexivity.
Defined.



(** ** [execute]: the stack in the warning *)

Section LoggedStack.

Import JS.

Lemma string_length_app (a b : string) :
  String.length (a +:+ b) = (String.length a + String.length b)%nat.
Proof. induction a as [|x a IH]; app_simpl; simpl; [reflexivity | now rewrite IH]. Qed.

Lemma occurs_at_0 t s : occurs_at t s 0 <-> is_Some (strip_prefix t s).
Proof.
  split.
  - intros (pre & post & -> & Hlen). destruct pre; [|discriminate].
    app_simpl. rewrite strip_prefix_app. eauto.
  - intros [rest H]. apply strip_prefix_Some in H. exists "", rest. now app_simpl.
Qed.

Lemma occurs_at_S t c s n : occurs_at t (String c s) (S n) <-> occurs_at t s n.
Proof.
  split.
  - intros (pre & post & E & Hlen). destruct pre as [|c' pre]; [discriminate|].
    rewrite string_app_cons in E. injection E as -> ->. injection Hlen as Hlen.
    now exists pre, post.
  - intros (pre & post & -> & Hlen). exists (String c pre), post.
    app_simpl. simpl. auto.
Qed.

Lemma occurs_at_empty t n : occurs_at t "" (S n) -> False.
Proof.
  intros (pre & post & E & Hlen). destruct pre; discriminate.
Qed.

Lemma indexOf_from_first t s : forall n i,
  first_at t s n -> indexOf_from t s i = i + Z.of_nat n.
Proof.
  induction s as [|c s IH]; intros n i [Hocc Hmin].
  - destruct n; [|now apply occurs_at_empty in Hocc].
    apply occurs_at_0 in Hocc as [rest Hrest]. simpl. rewrite Hrest. lia.
  - destruct n as [|n].
    + apply occurs_at_0 in Hocc as [rest Hrest]. simpl. rewrite Hrest. lia.
    + simpl. destruct (strip_prefix t (String c s)) as [rest|] eqn:E.
      * assert (H0 : occurs_at t (String c s) 0) by (apply occurs_at_0; eauto).
        apply Hmin in H0. lia.
      * rewrite (IH n (i + 1)); [lia|]. split; [now apply occurs_at_S in Hocc|].
        intros m Hm. apply (occurs_at_S t c) in Hm. apply Hmin in Hm. lia.
Qed.

Lemma indexOf_from_absent t s : forall i, absent t s -> indexOf_from t s i = -1.
Proof.
  induction s as [|c s IH]; intros i Habs; simpl.
  - destruct (strip_prefix t "") as [rest|] eqn:E; [|reflexivity].
    exfalso. apply (Habs 0%nat), occurs_at_0. eauto.
  - destruct (strip_prefix t (String c s)) as [rest|] eqn:E.
    + exfalso. apply (Habs 0%nat), occurs_at_0. eauto.
    + apply IH. intros n Hn. apply (Habs (S n)). now apply occurs_at_S.
Qed.

(** What [indexOf] returns is the first position. *)
Lemma indexOf_from_least t s : forall i n,
  occurs_at t s n -> 0 <= indexOf_from t s i - i <= Z.of_nat n.
Proof.
  induction s as [|c s IH]; intros i n Hocc.
  - destruct n; [|now apply occurs_at_empty in Hocc].
    apply occurs_at_0 in Hocc as [rest Hrest]. simpl. rewrite Hrest. lia.
  - simpl. destruct (strip_prefix t (String c s)) as [rest|] eqn:E; [lia|].
    destruct n as [|n].
    + apply occurs_at_0 in Hocc as [rest Hrest]. congruence.
    + apply occurs_at_S in Hocc. specialize (IH (i + 1) n Hocc). lia.
Qed.

Lemma first_at_indexOf t s n :
  occurs_at t s n -> indexOf s t = Z.of_nat n -> first_at t s n.
Proof.
  intros Hocc Hidx. split; [assumption|]. intros m Hm.
  pose proof (indexOf_from_least t s 0 m Hm) as H. unfold indexOf in Hidx. lia.
Qed.

Lemma absent_indexOf t s : indexOf s t = -1 -> absent t s.
Proof.
  intros Hidx n Hn. pose proof (indexOf_from_least t s 0 n Hn) as H.
  unfold indexOf in Hidx. lia.
Qed.

End LoggedStack.

(** X13.  The warning is cut at the call site.  With [prettyErrors] on,
    when the line of the original call site occurs in the stack of a
    caught error, first at position [n + 1], the warning holds the
    first [n] characters of the stack: what stands before that line,
    without the line break in front of it. *)
Theorem warning_cut_at_call_site (env : Command.Env) (argv : Command.Argv)
    (error : Error) (n : nat) :
  Command.lastCall env <> "" ->
  first_at (Command.lastCall env) (stack error) (S n) ->
  Command.warning env argv error
  = Command.source_of argv +:+ String "010" "" +:+ String.substring 0 n (stack error).
Proof.
  intros Hset Hfirst. unfold Command.warning, Command.trimmed, Command.coerce.
  destruct (Command.lastCall env) as [|c l] eqn:E; [contradiction|]. simpl ContextScope.nonempty.
  cbv iota. unfold JS.indexOf. rewrite (indexOf_from_first _ _ (S n) 0 Hfirst).
  destruct Hfirst as [(pre & post & Hs & Hlen) _].
  unfold JS.slice0.
  assert (Hle : (S n <= String.length (stack error))%nat).
  { rewrite Hs, !string_length_app. simpl. lia. }
  replace (0 + Z.of_nat (S n) - 1) with (Z.of_nat n) by lia.
  destruct (Z.ltb_spec (Z.of_nat n) 0) as [?|_]; [lia|].
  rewrite Z.min_l by lia. rewrite Nat2Z.id. reflexivity.
Qed.

Lemma warning_cut_at_call_site_witness :
  Command.warning (pretty "  at caller") some_argv traced
  = Command.source_of some_argv +:+ String "010" ""
    +:+ String.substring 0 23 (stack traced).
Proof.
  apply (warning_cut_at_call_site (pretty "  at caller") some_argv traced 23).
  - discriminate.
  - apply first_at_indexOf; [|reflexivity].
    exists ("Error: boom" +:+ String "010" "  at action" +:+ String "010" ""),
           (String "010" "  at main").
    split; reflexivity.
Defined.

(** X14.  A call site that is not in the stack.  With [prettyErrors]
    on, when the line of the original call site does not occur in the
    stack of a caught error, [indexOf] returns [-1] and the warning
    holds the stack without its last two characters. *)
Theorem warning_without_call_site (env : Command.Env) (argv : Command.Argv)
    (error : Error) :
  Command.lastCall env <> "" ->
  absent (Command.lastCall env) (stack error) ->
  Command.warning env argv error
  = Command.source_of argv +:+ String "010" ""
    +:+ String.substring 0 (String.length (stack error) - 2) (stack error).
Proof.
  intros Hset Habs. unfold Command.warning, Command.trimmed, Command.coerce.
  destruct (Command.lastCall env) as [|c l] eqn:E; [contradiction|]. simpl ContextScope.nonempty.
  cbv iota. unfold JS.indexOf. rewrite (indexOf_from_absent _ _ 0 Habs).
  unfold JS.slice0. change (-1 - 1 <? 0) with true. cbv iota.
  do 3 f_equal. lia.
Qed.

Lemma warning_without_call_site_witness :
  Command.warning (pretty "  at elsewhere") some_argv traced
  = Command.source_of some_argv +:+ String "010" ""
    +:+ String.substring 0 (String.length (stack traced) - 2) (stack traced).
Proof.
  apply (warning_without_call_site (pretty "  at elsewhere") some_argv traced).
  - discriminate.
  - apply absent_indexOf. reflexivity.
Defined.


(** ** The entity cache: footprint, expiry, requested fields *)

Section Footprint.

Variables (options : AppOptions) (db : Database).

Lemma deref_alloc data w ref :
  (ref < length (heap w))%nat -> deref (snd (alloc data w)) ref = deref w ref.
Proof. intros H. unfold deref. simpl. now rewrite lookup_app_l. Qed.

Lemma deref_store_ne ref' data w ref :
  ref <> ref' -> deref (store ref' data w) ref = deref w ref.
Proof. intros H. unfold deref. simpl. now rewrite list_lookup_insert_ne by congruence. Qed.

Lemma fetch_user_footprint userId authority fieldArray timestamp w :
  let '(data, w') := Context.fetch_user db userId authority fieldArray timestamp w in
  data = length (heap w) /\
  calls w' = calls w ++ [getUser userId (Some authority) fieldArray] /\
  groupCache w' = groupCache w /\
  userCache w' = <[userId := data]> (userCache w) /\
  (forall ref, (ref < length (heap w))%nat -> deref w' ref = deref w ref).
Proof.
  unfold Context.fetch_user. simpl. repeat split.
  intros ref Hlt. unfold deref. simpl.
  rewrite list_lookup_insert_ne by lia. now rewrite lookup_app_l.
Qed.

Lemma fetch_group_footprint groupId fieldArray timestamp w :
  let '(data, w') := Context.fetch_group db groupId fieldArray timestamp w in
  data = length (heap w) /\
  calls w' = calls w ++ [getGroup groupId fieldArray] /\
  userCache w' = userCache w /\
  groupCache w' = <[groupId := data]> (groupCache w) /\
  (forall ref, (ref < length (heap w))%nat -> deref w' ref = deref w ref).
Proof.
  unfold Context.fetch_group. simpl. repeat split.
  intros ref Hlt. unfold deref. simpl.
  rewrite list_lookup_insert_ne by lia. now rewrite lookup_app_l.
Qed.

End Footprint.

(** X15.  What [observeUser] and [observeGroup] leave alone.  A call of
    [observeUser] makes at most one call of the storage collaborator,
    a [getUser] for the user of the event, and never a write; it leaves
    the group cache, the cache entries of other users, the group entity
    of the event and every record but the one its user entity is bound
    to as they are.  [observeGroup] likewise, with users and groups
    exchanged. *)
Theorem observe_footprint (options : AppOptions) (db : Database) (now : Z)
    (meta : Meta) (fields : list string) (w : World) :
  (let '(w', meta', entity) := Context.observeUser options db now meta fields w in
   at_most (fun c => exists authority fs, c = getUser (userId meta) authority fs) w w' /\
   groupCache w' = groupCache w /\
   (forall id, id <> userId meta -> userCache w' !! id = userCache w !! id) /\
   _group meta' = _group meta /\ _user meta' = Some entity /\
   records_kept (_user meta) w w') /\
  (let '(w', meta', entity) := Context.observeGroup options db now meta fields w in
   at_most (fun c => exists fs, c = getGroup (groupId meta) fs) w w' /\
   userCache w' = userCache w /\
   (forall id, id <> groupId meta -> groupCache w' !! id = groupCache w !! id) /\
   _user meta' = _user meta /\ _group meta' = Some entity /\
   records_kept (_group meta) w w').
Proof.
  split.
  - unfold Context.observeUser.
    set (fieldSet := match _argv meta with Some _ => _ | None => _ end).
    destruct (_user meta) as [u|] eqn:Hu.
    + destruct (anonymous meta).
      { repeat split; auto; try (now left); intros ref _ _; reflexivity. }
      destruct (Context.delete_present (deref w (target u)) fieldSet) as [|f l] eqn:E.
      { repeat split; auto; try (now left); intros ref _ _; reflexivity. }
      simpl. repeat split; auto.
      * right. eexists. split; [reflexivity | eauto].
      * intros id Hid. simpl. now rewrite lookup_insert_ne by congruence.
      * intros ref Hlt Hne. specialize (Hne u eq_refl).
        unfold deref. simpl.
        rewrite list_lookup_insert_ne by lia.
        rewrite list_lookup_insert_ne by congruence.
        now rewrite lookup_app_l.
    + destruct (anonymous meta).
      { simpl. repeat split; auto; try (now left).
        intros ref Hlt _. unfold deref. simpl. now rewrite lookup_app_l. }
      pose proof (fetch_user_footprint db (userId meta)
                    (Context.resolve_authority options meta) fieldSet now w) as Hfetch.
      destruct (Context.fetch_user db (userId meta) _ fieldSet now w) as [data w1].
      destruct Hfetch as (Hdata & Hcalls & Hgroup & Huser & Hkept).
      assert (Hmiss :
        at_most (fun c => exists authority fs, c = getUser (userId meta) authority fs) w w1 /\
        groupCache w1 = groupCache w /\
        (forall id, id <> userId meta -> userCache w1 !! id = userCache w !! id) /\
        records_kept None w w1).
      { split; [right; eexists; split; [exact Hcalls | eauto]|].
        split; [assumption|]. split.
        - intros id Hid. rewrite Huser. now rewrite lookup_insert_ne by congruence.
        - intros ref Hlt _. now apply Hkept. }
      destruct (userCache w !! userId meta) as [cache|].
      * destruct (Context.isActiveCache _ _ _ _).
        { simpl. repeat split; auto; try (now left); intros ref _ _; reflexivity. }
        simpl. destruct Hmiss as (? & ? & ? & ?). repeat split; auto.
      * simpl. destruct Hmiss as (? & ? & ? & ?). repeat split; auto.
  - unfold Context.observeGroup.
    set (fieldSet := match _argv meta with Some _ => _ | None => _ end).
    destruct (_group meta) as [g|] eqn:Hg.
    + destruct (Context.delete_present (deref w (target g)) fieldSet) as [|f l] eqn:E.
      { repeat split; auto; try (now left); intros ref _ _; reflexivity. }
      simpl. repeat split; auto.
      * right. eexists. split; [reflexivity | eauto].
      * intros id Hid. simpl. now rewrite lookup_insert_ne by congruence.
      * intros ref Hlt Hne. specialize (Hne g eq_refl).
        unfold deref. simpl.
        rewrite list_lookup_insert_ne by lia.
        rewrite list_lookup_insert_ne by congruence.
        now rewrite lookup_app_l.
    + pose proof (fetch_group_footprint db (groupId meta) fieldSet now w) as Hfetch.
      destruct (Context.fetch_group db (groupId meta) fieldSet now w) as [data w1].
      destruct Hfetch as (Hdata & Hcalls & Huser & Hgroup & Hkept).
      assert (Hmiss :
        at_most (fun c => exists fs, c = getGroup (groupId meta) fs) w w1 /\
        userCache w1 = userCache w /\
        (forall id, id <> groupId meta -> groupCache w1 !! id = groupCache w !! id) /\
        records_kept None w w1).
      { split; [right; eexists; split; [exact Hcalls | eauto]|].
        split; [assumption|]. split.
        - intros id Hid. rewrite Hgroup. now rewrite lookup_insert_ne by congruence.
        - intros ref Hlt _. now apply Hkept. }
      destruct (groupCache w !! groupId meta) as [cache|].
      * destruct (Context.isActiveCache _ _ _ _).
        { simpl. repeat split; auto; try (now left); intros ref _ _; reflexivity. }
        simpl. destruct Hmiss as (? & ? & ? & ?). repeat split; auto.
      * simpl. destruct Hmiss as (? & ? & ? & ?). repeat split; auto.
Qed.

Section Requested.

Lemma Set_add_spec field fieldSet :
  NoDup fieldSet ->
  NoDup (Set_add field fieldSet) /\
  forall f, f ∈ Set_add field fieldSet <-> f = field \/ f ∈ fieldSet.
Proof.
  intros Hnd. unfold Set_add. destruct (bool_decide (field ∈ fieldSet)) eqn:E.
  - apply bool_decide_eq_true in E. split; [assumption|].
    intros f. split; [auto | intros [->|H]; assumption].
  - apply bool_decide_eq_false in E. split.
    + apply NoDup_app. split; [assumption|]. split.
      * intros x Hx Hx'. apply list_elem_of_singleton in Hx'. now subst.
      * apply NoDup_singleton.
    + intros f. rewrite elem_of_app, list_elem_of_singleton. tauto.
Qed.

Lemma Set_adds_spec more : forall fieldSet,
  NoDup fieldSet ->
  NoDup (foldl (fun s field => Set_add field s) fieldSet more) /\
  forall f, f ∈ foldl (fun s field => Set_add field s) fieldSet more
            <-> f ∈ fieldSet \/ f ∈ more.
Proof.
  induction more as [|field more IH]; intros fieldSet Hnd; simpl.
  - split; [assumption|]. intros f. rewrite elem_of_nil. tauto.
  - destruct (Set_add_spec field fieldSet Hnd) as [Hnd1 Hin1].
    destruct (IH _ Hnd1) as [Hnd2 Hin2]. split; [assumption|].
    intros f. rewrite Hin2, Hin1, elem_of_cons. tauto.
Qed.

Lemma requested_spec fields collected :
  NoDup (requested fields collected) /\
  forall f, f ∈ requested fields collected
            <-> f ∈ fields \/ exists more, collected = Some more /\ f ∈ more.
Proof.
  destruct (Set_adds_spec fields [] (NoDup_nil_2 (A:=string))) as [Hnd Hin].
  fold (Set_new fields) in Hnd, Hin.
  destruct collected as [more|]; simpl.
  - destruct (Set_adds_spec more (Set_new fields) Hnd) as [Hnd' Hin']. split; [assumption|].
    intros f. rewrite Hin', Hin, elem_of_nil. split.
    + intros [[[]|H]|H]; eauto.
    + intros [H|(more' & [= <-] & H)]; auto.
  - split; [assumption|]. intros f. rewrite Hin, elem_of_nil. split.
    + intros [[]|H]; auto.
    + intros [H|(more' & [=] & _)]; auto.
Qed.

Lemma requested_user meta fields :
  match _argv meta with
  | Some argv => foldl (fun s field => Set_add field s) (Set_new fields) (collected_user argv)
  | None => Set_new fields
  end = requested fields (collected_user <$> _argv meta).
Proof. now destruct (_argv meta). Qed.

Lemma requested_group meta fields :
  match _argv meta with
  | Some argv => foldl (fun s field => Set_add field s) (Set_new fields) (collected_group argv)
  | None => Set_new fields
  end = requested fields (collected_group <$> _argv meta).
Proof. now destruct (_argv meta). Qed.

End Requested.

(** X16.  The time to live of a cache entry.  For an event without a
    bound user entity, not anonymous, whose user has a cache entry
    stamped at [stamp] that holds every requested field (those of the
    call and those the command collects): while
    [now - stamp < userCacheTimeout], [observeUser] changes nothing and
    binds the cached record; from [now - stamp = userCacheTimeout] on it
    fetches the requested fields, once, and caches and binds a new
    record, stamped [now]. *)
Theorem cache_entry_expires (options : AppOptions) (db : Database) (now : Z)
    (meta : Meta) (fields : list string) (w : World) (cache : Ref) (stamp : Z) :
  _user meta = None -> anonymous meta = false ->
  userCache w !! userId meta = Some cache ->
  deref w cache !! "_timestamp" = Some stamp ->
  Context.contain_keys (deref w cache) (requested fields (collected_user <$> _argv meta))
    = true ->
  let '(w', meta', entity) := Context.observeUser options db now meta fields w in
  if now - stamp <? userCacheTimeout options
  then w' = w /\ target entity = cache
  else calls w' = calls w ++
         [getUser (userId meta) (Some (Context.resolve_authority options meta))
            (requested fields (collected_user <$> _argv meta))] /\
       target entity = length (heap w) /\
       userCache w' !! userId meta = Some (target entity) /\
       deref w' (target entity) !! "_timestamp" = Some now.
Proof.
  intros Hu Hanon Hcache Hstamp Hkeys. unfold Context.observeUser.
  rewrite requested_user, Hu, Hanon, Hcache. unfold Context.isActiveCache.
  rewrite Hkeys, Hstamp. simpl andb.
  destruct (now - stamp <? userCacheTimeout options); simpl; [auto|].
  repeat split.
  - apply lookup_insert_eq.
  - unfold deref. simpl.
    rewrite list_lookup_insert_eq by (rewrite length_app; simpl; lia).
    simpl. apply lookup_insert_eq.
Qed.

Lemma cache_entry_expires_witness :
  let '(w', meta', entity) :=
    Context.observeUser one_minute exact_storage 61000 event_of_7 ["x"] fetched_at_1000 in
  if 61000 - 1000 <? userCacheTimeout one_minute
  then w' = fetched_at_1000 /\ target entity = 0%nat
  else calls w' = calls fetched_at_1000 ++
         [getUser (userId event_of_7) (Some (Context.resolve_authority one_minute event_of_7))
            (requested ["x"] (collected_user <$> _argv event_of_7))] /\
       target entity = length (heap fetched_at_1000) /\
       userCache w' !! userId event_of_7 = Some (target entity) /\
       deref w' (target entity) !! "_timestamp" = Some 61000.
Proof.
  apply (cache_entry_expires one_minute exact_storage 61000 event_of_7 ["x"]
           fetched_at_1000 0%nat 1000); reflexivity.
Defined.

(** X17.  The fields of a fetch.  For an event without a bound group
    entity whose group has no cache entry, [observeGroup] makes one
    fetch, for the fields of the call and the fields that the command of
    the event collects, each of them once; the fetched record is cached
    and bound, with the group's write-back function. *)
Theorem fetch_asks_for_collected_fields (options : AppOptions) (db : Database) (now : Z)
    (meta : Meta) (fields : list string) (w : World) :
  _group meta = None -> groupCache w !! groupId meta = None ->
  let '(w', meta', entity) := Context.observeGroup options db now meta fields w in
  exists fs,
    calls w' = calls w ++ [getGroup (groupId meta) fs] /\
    NoDup fs /\
    (forall f, f ∈ fs <->
       f ∈ fields \/ exists argv, _argv meta = Some argv /\ f ∈ collected_group argv) /\
    groupCache w' !! groupId meta = Some (target entity) /\
    update entity = Some (setGroup_of (groupId meta)) /\
    _group meta' = Some entity.
Proof.
  intros Hg Hcache. unfold Context.observeGroup.
  rewrite requested_group, Hg, Hcache. simpl.
  destruct (requested_spec fields (collected_group <$> _argv meta)) as [Hnd Hin].
  eexists. split; [reflexivity|]. split; [exact Hnd|]. split.
  - intros f. rewrite Hin. split.
    + intros [H|(more & Hmore & H)]; [now left | right].
      destruct (_argv meta) as [argv|]; [|discriminate].
      injection Hmore as <-. eauto.
    + intros [H|(argv & Hargv & H)]; [now left | right].
      rewrite Hargv. simpl. eauto.
  - repeat split. apply lookup_insert_eq.
Qed.

Lemma fetch_asks_for_collected_fields_witness :
  let '(w', meta', entity) :=
    Context.observeGroup one_minute exact_storage 1000 collecting_event ["x"] empty_world in
  exists fs,
    calls w' = calls empty_world ++ [getGroup (groupId collecting_event) fs] /\
    NoDup fs /\
    (forall f, f ∈ fs <->
       f ∈ ["x"] \/ exists argv, _argv collecting_event = Some argv /\
                                 f ∈ collected_group argv) /\
    groupCache w' !! groupId collecting_event = Some (target entity) /\
    update entity = Some (setGroup_of (groupId collecting_event)) /\
    _group meta' = Some entity.
Proof.
  apply (fetch_asks_for_collected_fields one_minute exact_storage 1000 collecting_event
           ["x"] empty_world); reflexivity.
Defined.


(** ** The registry of commands *)

Section RegistryBasics.

Import Registry.

Lemma names_kept_refl app : names_kept app app.
Proof. intros n c H. exact H. Qed.

Lemma names_kept_trans app1 app2 app3 :
  names_kept app1 app2 -> names_kept app2 app3 -> names_kept app1 app3.
Proof. intros H1 H2 n c H. auto. Qed.

Lemma objects_kept_refl app : objects_kept app app.
Proof. intros c obj H. eauto. Qed.

Lemma objects_kept_trans app1 app2 app3 :
  objects_kept app1 app2 -> objects_kept app2 app3 -> objects_kept app1 app3.
Proof.
  intros H1 H2 c obj H. destruct (H1 c obj H) as (obj' & E' & Hn' & Hc').
  destruct (H2 c obj' E') as (obj'' & E'' & Hn'' & Hc''). exists obj''.
  repeat split; congruence.
Qed.

Lemma bind_returned {A B} (m : M A) (f : A -> M B) app app' a :
  m app = (app', returned a) -> (m ≫= f) app = f a app'.
Proof. intros H. unfold mbind, M_bind. now rewrite H. Qed.

Lemma bind_inv {A B} (m : M A) (f : A -> M B) app app'' b :
  (m ≫= f) app = (app'', returned b) ->
  exists app' a, m app = (app', returned a) /\ f a app' = (app'', returned b).
Proof.
  unfold mbind, M_bind. destruct (m app) as [app' [a|e|]]; intros H;
    [eauto | discriminate | discriminate].
Qed.

Lemma get_bind {B} (f : App -> M B) app : (get ≫= f) app = f app app.
Proof. reflexivity. Qed.

(** A property of the registries that each step of a computation keeps
    is kept by the computation, however it ends. *)
Lemma bind_keeps {A B} (R : App -> App -> Prop) (m : M A) (f : A -> M B) app :
  (forall a b c, R a b -> R b c -> R a c) ->
  R app (fst (m app)) ->
  (forall a app', m app = (app', returned a) -> R app' (fst (f a app'))) ->
  R app (fst ((m ≫= f) app)).
Proof.
  intros Htrans Hm Hf. unfold mbind, M_bind.
  destruct (m app) as [app' [a|e|]] eqn:E; simpl in *; [|assumption ..].
  eapply Htrans; [exact Hm | now apply Hf].
Qed.

Lemma forEach_keeps {A} (R : App -> App -> Prop) (f : A -> M unit) l :
  (forall a, R a a) -> (forall a b c, R a b -> R b c -> R a c) ->
  (forall x app, R app (fst (f x app))) ->
  forall app, R app (fst (forEach f l app)).
Proof.
  intros Hrefl Htrans Hf. induction l as [|x l IH]; intros app; simpl; [apply Hrefl|].
  apply bind_keeps; auto.
Qed.

End RegistryBasics.

Section Extends.

Import Registry.

Lemma extends_refl app : extends app app.
Proof. split; [apply names_kept_refl | split; [apply objects_kept_refl | reflexivity]]. Qed.

Lemma extends_trans app1 app2 app3 :
  extends app1 app2 -> extends app2 app3 -> extends app1 app3.
Proof.
  intros (N1 & O1 & P1) (N2 & O2 & P2). split; [|split].
  - eapply names_kept_trans; eassumption.
  - eapply objects_kept_trans; eassumption.
  - etransitivity; eassumption.
Qed.

Lemma write_extends c f app :
  (forall obj, name (f obj) = name obj /\ context (f obj) = context obj) ->
  extends app (fst (write c f app)).
Proof.
  intros Hf. split; [intros ? ? H; exact H | split; [|reflexivity]].
  intros c' obj H. simpl. destruct (decide (c = c')) as [<-|Hne].
  - exists (f obj). rewrite list_lookup_alter, H. simpl.
    rewrite decide_True by reflexivity. destruct (Hf obj). auto.
  - exists obj. rewrite list_lookup_alter_ne by assumption. auto.
Qed.

Lemma read_extends c app : extends app (fst (read c app)).
Proof. unfold read. destruct (objects app !! c); apply extends_refl. Qed.

Lemma registerAlias_extends this n app : extends app (fst (_registerAlias this n app)).
Proof.
  unfold _registerAlias.
  apply bind_keeps; [apply extends_trans | now apply write_extends |].
  intros [] app1 _. rewrite get_bind.
  destruct (_commandMap app1 !! JS.toLowerCase n) as [previous|] eqn:E.
  - destruct (decide (previous = this)); apply extends_refl.
  - simpl. split; [|split; [intros ? ? H; eauto | reflexivity]].
    intros n' c H. simpl. rewrite lookup_insert_ne; [assumption|]. congruence.
Qed.

Lemma alias_extends this names app : extends app (fst (alias this names app)).
Proof.
  unfold alias. apply bind_keeps; [apply extends_trans | | intros; apply extends_refl].
  apply forEach_keeps; [apply extends_refl | apply extends_trans |].
  intros; apply registerAlias_extends.
Qed.

Lemma new_Command_extends n d ctx cfg app :
  extends app (fst (new_Command n d ctx cfg app)).
Proof.
  unfold new_Command. rewrite get_bind.
  apply bind_keeps; [apply extends_trans | |].
  { simpl. split; [intros ? ? H; exact H | split; [|reflexivity]].
    intros c obj H. exists obj. simpl. rewrite lookup_app_l; [auto|].
    now apply lookup_lt_Some in H. }
  intros [] app1 _.
  apply bind_keeps; [apply extends_trans | apply registerAlias_extends |].
  intros [] app2 _.
  apply bind_keeps; [apply extends_trans | | intros; apply extends_refl].
  simpl. split; [intros ? ? H; exact H | split; [intros ? ? H; eauto|]].
  simpl. now apply prefix_app_r.
Qed.

Lemma adopt_extends p c app : extends app (fst (adopt p c app)).
Proof.
  unfold adopt. apply bind_keeps; [apply extends_trans | now apply write_extends |].
  intros [] app1 _. now apply write_extends.
Qed.

Lemma command_segment_extends this d parent segment app :
  extends app (fst (command_segment this d parent segment app)).
Proof.
  unfold command_segment.
  apply bind_keeps; [apply extends_trans | |].
  { destruct (decide (_ = Some 46%nat)).
    - destruct parent as [p|]; [|apply extends_refl].
      apply bind_keeps; [apply extends_trans | apply read_extends |].
      intros; apply extends_refl.
    - destruct (decide (_ = Some 47%nat)); apply extends_refl. }
  intros n app1 _. rewrite get_bind.
  destruct (_commandMap app1 !! n) as [c|].
  - apply bind_keeps; [apply extends_trans | | intros; apply extends_refl].
    destruct parent as [p|]; [|apply extends_refl].
    destruct (decide (c = p)); [apply extends_refl|].
    apply bind_keeps; [apply extends_trans | apply read_extends |].
    intros obj app2 _. destruct (Registry.parent obj) as [p'|].
    + destruct (decide (p' = p)); apply extends_refl.
    + apply bind_keeps; [apply extends_trans | apply read_extends |].
      intros above app3 _.
      destruct (Context.contain _ _) as [[|]|]; [apply adopt_extends | apply extends_refl ..].
  - apply bind_keeps; [apply extends_trans | |].
    { destruct parent as [p|]; [|apply extends_refl].
      apply bind_keeps; [apply extends_trans | apply read_extends |].
      intros above app2 _. destruct (Context.intersect _ _); apply extends_refl. }
    intros ctx app2 _. destruct (String.eqb _ _); [apply extends_refl|].
    apply bind_keeps; [apply extends_trans | apply new_Command_extends |].
    intros c app3 _.
    apply bind_keeps; [apply extends_trans | | intros; apply extends_refl].
    destruct parent as [p|]; [apply adopt_extends | apply extends_refl].
Qed.

Lemma command_segments_extends this d segments : forall parent app,
  extends app (fst (command_segments this d parent segments app)).
Proof.
  induction segments as [|segment rest IH]; intros parent app; simpl; [apply extends_refl|].
  apply bind_keeps; [apply extends_trans | apply command_segment_extends |].
  intros; apply IH.
Qed.

Lemma command_extends this rawName description config app :
  extends app (fst (command this rawName description config app)).
Proof.
  unfold command. destruct (take 1 (JS.split " " rawName)) as [|path ?]; [apply extends_refl|].
  apply bind_keeps; [apply extends_trans | apply command_segments_extends |].
  intros [p|] app1 _; [|apply extends_refl].
  apply bind_keeps; [apply extends_trans | now apply write_extends |].
  intros; apply extends_refl.
Qed.

End Extends.

(** X18.  Registration only adds.  Whether it returns or throws,
    [command], [subcommand] and [alias] leave every registered name
    bound to the command it was bound to, keep every command object
    with its name and its context, and keep [app._commands] as the
    beginning of the new list. *)
Theorem registration_only_adds (app : Registry.App) :
  (forall this rawName description config,
     extends app (fst (Registry.command this rawName description config app))) /\
  (forall this rawName description config,
     extends app (fst (Registry.subcommand this rawName description config app))) /\
  (forall this names, extends app (fst (Registry.alias this names app))).
Proof.
  split; [|split].
  - intros. apply command_extends.
  - intros. unfold Registry.subcommand.
    apply bind_keeps; [apply extends_trans | apply read_extends |].
    intros. apply command_extends.
  - intros. apply alias_extends.
Qed.

Section Paths.

Import JS.

Lemma slice_from_app pre s : slice_from (pre +:+ s) (String.length pre) = s.
Proof. induction pre as [|c pre IH]; app_simpl; simpl; [reflexivity | exact IH]. Qed.

Lemma lastIndexOf_from_without c s : forall i found,
  all_chars (is_not c) s = true -> lastIndexOf_from c s i found = found.
Proof.
  induction s as [|a s IH]; intros i found H; simpl in *; [reflexivity|].
  apply andb_true_iff in H as [Ha Hs]. unfold is_not in Ha.
  apply negb_true_iff in Ha. rewrite Ha. now apply IH.
Qed.

Lemma lastIndexOf_from_app c pre rest : forall i found,
  all_chars (is_not c) rest = true ->
  lastIndexOf_from c (pre +:+ String c rest) i found = i + Z.of_nat (String.length pre).
Proof.
  induction pre as [|a pre IH]; intros i found H; app_simpl; simpl.
  - rewrite Ascii.eqb_refl, lastIndexOf_from_without by assumption. lia.
  - rewrite IH by assumption. lia.
Qed.

Lemma after_last_slash_without path :
  all_chars (is_not "/") path = true -> after_last_slash path = path.
Proof.
  intros H. unfold after_last_slash, lastIndexOf.
  now rewrite lastIndexOf_from_without.
Qed.

Lemma after_last_slash_app pre rest :
  all_chars (is_not "/") rest = true ->
  after_last_slash (pre +:+ String "/" rest) = rest.
Proof.
  intros H. unfold after_last_slash, lastIndexOf.
  rewrite lastIndexOf_from_app by assumption.
  replace (Z.to_nat (0 + Z.of_nat (String.length pre) + 1))
    with (String.length (pre +:+ "/")) by (rewrite string_length_app; simpl; lia).
  replace (pre +:+ String "/" rest) with ((pre +:+ "/") +:+ rest).
  - apply slice_from_app.
  - clear. induction pre as [|c pre IH]; app_simpl; [reflexivity | now rewrite IH].
Qed.

(** Lower case *)

Lemma toLowerCase_char_slash c :
  Ascii.eqb (toLowerCase_char c) "/" = Ascii.eqb c "/".
Proof.
  unfold toLowerCase_char.
  destruct ((65 <=? nat_of_ascii c)%nat && (nat_of_ascii c <=? 90)%nat) eqn:E;
    [|reflexivity].
  apply andb_true_iff in E as [E1 E2].
  apply Nat.leb_le in E1. apply Nat.leb_le in E2.
  destruct (Ascii.eqb_spec c "/") as [->|Hc];
    [change (nat_of_ascii "/") with 47%nat in E1; lia|].
  apply Ascii.eqb_neq. intros H. apply (f_equal nat_of_ascii) in H.
  rewrite nat_ascii_embedding in H by lia.
  change (nat_of_ascii "/") with 47%nat in H. lia.
Qed.

Lemma toLowerCase_app a b : toLowerCase (a +:+ b) = toLowerCase a +:+ toLowerCase b.
Proof. induction a as [|c a IH]; app_simpl; simpl; [reflexivity | now rewrite IH]. Qed.

Lemma toLowerCase_length s : String.length (toLowerCase s) = String.length s.
Proof. induction s as [|c s IH]; simpl; [reflexivity | now rewrite IH]. Qed.

Lemma toLowerCase_slice s n :
  toLowerCase (slice_from s n) = slice_from (toLowerCase s) n.
Proof.
  revert s. induction n as [|n IH]; intros [|c s]; simpl; auto.
Qed.

Lemma lastIndexOf_from_lower s : forall i found,
  lastIndexOf_from "/" (toLowerCase s) i found = lastIndexOf_from "/" s i found.
Proof.
  induction s as [|c s IH]; intros i found; simpl; [reflexivity|].
  now rewrite toLowerCase_char_slash, IH.
Qed.

Lemma after_last_slash_lower path :
  toLowerCase (after_last_slash path) = after_last_slash (toLowerCase path).
Proof.
  unfold after_last_slash, lastIndexOf.
  now rewrite toLowerCase_slice, lastIndexOf_from_lower.
Qed.

Lemma toLowerCase_char_idem c : toLowerCase_char (toLowerCase_char c) = toLowerCase_char c.
Proof.
  unfold toLowerCase_char.
  destruct ((65 <=? nat_of_ascii c)%nat && (nat_of_ascii c <=? 90)%nat) eqn:E.
  - apply andb_true_iff in E as [E1 E2].
    apply Nat.leb_le in E1. apply Nat.leb_le in E2.
    rewrite nat_ascii_embedding by lia.
    replace ((65 <=? nat_of_ascii c + 32)%nat && (nat_of_ascii c + 32 <=? 90)%nat)
      with false; [reflexivity|].
    symmetry. apply andb_false_iff. right. apply Nat.leb_gt. lia.
  - now rewrite E.
Qed.

Lemma toLowerCase_idem s : toLowerCase (toLowerCase s) = toLowerCase s.
Proof.
  induction s as [|c s IH]; simpl; [reflexivity|].
  now rewrite toLowerCase_char_idem, IH.
Qed.

End Paths.

Section Lookup.

Import Registry.

Lemma registerAlias_returned this n app app' :
  _registerAlias this n app = (app', returned tt) ->
  _commandMap app' !! JS.toLowerCase n = Some this.
Proof.
  unfold _registerAlias. intros H. apply bind_inv in H as (app1 & [] & _ & H).
  rewrite get_bind in H.
  destruct (_commandMap app1 !! JS.toLowerCase n) as [previous|] eqn:E.
  - destruct (decide (previous = this)) as [->|]; [|discriminate].
    injection H as <-. exact E.
  - injection H as <-. simpl. apply lookup_insert_eq.
Qed.

Lemma forEach_registerAlias this names : forall app app',
  forEach (_registerAlias this) names app = (app', returned tt) ->
  forall n, n ∈ names -> _commandMap app' !! JS.toLowerCase n = Some this.
Proof.
  induction names as [|n0 names IH]; intros app app' H n Hn.
  - now apply elem_of_nil in Hn.
  - simpl in H. apply bind_inv in H as (app1 & [] & H1 & H2).
    apply elem_of_cons in Hn as [->|Hn]; [|eauto].
    apply registerAlias_returned in H1.
    pose proof (forEach_keeps extends (_registerAlias this) names
                  extends_refl extends_trans
                  (fun x a => registerAlias_extends this x a) app1) as (Hkept & _).
    rewrite H2 in Hkept. now apply Hkept.
Qed.

End Lookup.

(** X19.  Aliases are found.  After [alias(...names)] has returned,
    [_getCommandByRawName] finds the command under each of the names,
    in any spelling of upper and lower case, alone or behind a path
    that ends in ['/']. *)
Theorem alias_then_lookup (this : Registry.CommandRef) (names : list string)
    (app : Registry.App) (n n' front : string) :
  snd (Registry.alias this names app) = Registry.returned this ->
  n ∈ names -> JS.toLowerCase n' = JS.toLowerCase n ->
  all_chars (is_not "/") n' = true ->
  let app' := fst (Registry.alias this names app) in
  Registry._getCommandByRawName n' app' = Some this /\
  Registry._getCommandByRawName (front +:+ String "/" n') app' = Some this.
Proof.
  destruct (Registry.alias this names app) as [app' r] eqn:H. simpl. intros ->.
  intros Hn Hlower Hplain. unfold Registry.alias in H.
  apply bind_inv in H as (app1 & [] & H & [= <-]).
  pose proof (forEach_registerAlias this names app app1 H n Hn) as Hfound.
  unfold Registry._getCommandByRawName.
  fold (after_last_slash n'). fold (after_last_slash (front +:+ String "/" n')).
  rewrite after_last_slash_without, after_last_slash_app by assumption.
  rewrite Hlower. auto.
Qed.

Section Segments.

Import JS.

Lemma split_before_last p s : forall c,
  match last_separator p s with
  | Some t => exists init, init <> [] /\ split_before p (String c s) = init ++ [t]
  | None => split_before p (String c s) = [String c s]
  end.
Proof.
  induction s as [|c' s IH]; intros c; [reflexivity|].
  specialize (IH c'). cbn [last_separator].
  change (split_before p (String c (String c' s)))
    with (if p c' then String c EmptyString :: split_before p (String c' s)
          else match split_before p (String c' s) with
               | seg :: rest => String c seg :: rest
               | [] => [String c EmptyString]
               end).
  destruct (last_separator p s) as [t|].
  - destruct IH as (init & Hinit & ->). destruct (p c').
    + exists (String c "" :: init). split; [discriminate | reflexivity].
    + destruct init as [|seg init]; [contradiction|].
      exists (String c seg :: init). split; [discriminate | reflexivity].
  - rewrite IH. destruct (p c').
    + exists [String c ""]. split; [discriminate | reflexivity].
    + reflexivity.
Qed.

Lemma last_separator_Some p s t :
  last_separator p s = Some t ->
  exists pre c rest, s = pre +:+ String c rest /\ t = String c rest /\ p c = true /\
    all_chars (fun a => negb (p a)) rest = true.
Proof.
  revert t. induction s as [|a s IH]; intros t H; [discriminate|].
  simpl in H. destruct (last_separator p s) as [t'|] eqn:E.
  - injection H as <-. destruct (IH t' eq_refl) as (pre & c & rest & -> & -> & Hc & Hrest).
    exists (String a pre), c, rest. now app_simpl.
  - destruct (p a) eqn:Ha; [|discriminate]. injection H as <-.
    exists "", a, s. app_simpl. repeat split; [assumption|].
    clear -E. induction s as [|b s IH]; [reflexivity|]. simpl in *.
    destruct (last_separator p s); [discriminate|].
    destruct (p b); [discriminate|]. now rewrite IH.
Qed.

Lemma last_separator_None p s :
  last_separator p s = None -> all_chars (fun a => negb (p a)) s = true.
Proof.
  induction s as [|b s IH]; [reflexivity|]. simpl.
  destruct (last_separator p s); [discriminate|].
  destruct (p b); [discriminate|]. intros _. now rewrite IH.
Qed.

Lemma split_before_chars (q p : ascii -> bool) s :
  all_chars q s = true -> Forall (fun seg => all_chars q seg = true) (split_before p s).
Proof.
  induction s as [|c s IH]; intros H; [repeat constructor|].
  simpl in H. apply andb_true_iff in H as [Hc Hs]. specialize (IH Hs).
  destruct s as [|c' s]; [repeat constructor; simpl; now rewrite Hc|].
  change (split_before p (String c (String c' s)))
    with (if p c' then String c EmptyString :: split_before p (String c' s)
          else match split_before p (String c' s) with
               | seg :: rest => String c seg :: rest
               | [] => [String c EmptyString]
               end).
  destruct (p c').
  - constructor; [simpl; now rewrite Hc | assumption].
  - destruct (split_before p (String c' s)) as [|seg rest].
    + repeat constructor. simpl. now rewrite Hc.
    + inversion IH; subst. constructor; [simpl; now rewrite Hc | assumption].
Qed.

Lemma is_separator_slash c :
  negb (Ascii.eqb c "." || Ascii.eqb c "\") = true ->
  Registry.is_separator c = Ascii.eqb c "/".
Proof.
  unfold Registry.is_separator. intros H. apply negb_true_iff, orb_false_elim in H as [H1 H2].
  now rewrite H1, H2.
Qed.

(** The name that the last segment of a path stands for is what follows
    the last ['/'] of the path. *)
Lemma last_segment_name path :
  slashes_only path = true ->
  exists init segment,
    split_before Registry.is_separator path = init ++ [segment] /\
    segment_name segment = after_last_slash path.
Proof.
  intros Hpath. destruct path as [|c s].
  { exists [], "". split; reflexivity. }
  unfold slashes_only in Hpath. simpl in Hpath.
  apply andb_true_iff in Hpath as [Hc Hs].
  pose proof (split_before_last Registry.is_separator s c) as Hsplit.
  destruct (last_separator Registry.is_separator s) as [t|] eqn:E.
  - destruct Hsplit as (init & _ & ->). exists init, t. split; [reflexivity|].
    apply last_separator_Some in E as (pre & c0 & rest & -> & -> & Hc0 & Hrest).
    rewrite all_chars_app in Hs. apply andb_true_iff in Hs as [Hpre Hs].
    simpl in Hs. apply andb_true_iff in Hs as [Hc0' Hrest'].
    rewrite (is_separator_slash _ Hc0') in Hc0. apply Ascii.eqb_eq in Hc0. subst c0.
    assert (Hplain : all_chars (is_not "/") rest = true).
    { clear -Hrest Hrest'. induction rest as [|a rest IH]; [reflexivity|]. simpl in *.
      apply andb_true_iff in Hrest as [Ha Hrest].
      apply andb_true_iff in Hrest' as [Ha' Hrest'].
      rewrite (is_separator_slash _ Ha') in Ha. unfold is_not. rewrite Ha. auto. }
    rewrite <- string_app_cons, after_last_slash_app by assumption. reflexivity.
  - exists [], (String c s). split; [exact Hsplit|].
    apply last_separator_None in E.
    assert (Hplain : all_chars (is_not "/") s = true).
    { clear -E Hs. induction s as [|a s IH]; [reflexivity|]. simpl in *.
      apply andb_true_iff in E as [Ha E]. apply andb_true_iff in Hs as [Ha' Hs].
      rewrite (is_separator_slash _ Ha') in Ha. unfold is_not. rewrite Ha. auto. }
    unfold segment_name. simpl charCodeAt0.
    destruct (decide (Some (nat_of_ascii c) = Some 47%nat)) as [Heq|Hne].
    + injection Heq as Heq. apply (f_equal ascii_of_nat) in Heq.
      rewrite ascii_nat_embedding in Heq. subst c.
      exact (eq_sym (after_last_slash_app "" s Hplain)).
    + rewrite after_last_slash_without; [reflexivity|]. simpl. rewrite Hplain.
      unfold is_not. destruct (Ascii.eqb_spec c "/") as [->|]; [|reflexivity].
      exfalso. apply Hne. reflexivity.
Qed.

End Segments.

Section CommandLookup.

Import Registry.

Lemma lower_case_toLowerCase s : lower_case (JS.toLowerCase s) = true.
Proof.
  unfold lower_case in *. induction s as [|c s IH]; [reflexivity|].
  cbn [JS.toLowerCase all_chars].
  now rewrite toLowerCase_char_idem, Ascii.eqb_refl, IH.
Qed.

Lemma lower_case_fixed s : lower_case s = true -> JS.toLowerCase s = s.
Proof.
  unfold lower_case. induction s as [|c s IH]; [reflexivity|].
  cbn [JS.toLowerCase all_chars].
  rewrite andb_true_iff. intros [Hc Hs]. apply Ascii.eqb_eq in Hc.
  now rewrite Hc, IH.
Qed.

Lemma segment_name_lower segment :
  lower_case segment = true -> JS.toLowerCase (segment_name segment) = segment_name segment.
Proof.
  intros H. unfold segment_name. destruct (decide _).
  - now rewrite toLowerCase_slice, lower_case_fixed.
  - now apply lower_case_fixed.
Qed.

Lemma slashes_only_lower path :
  slashes_only path = true -> slashes_only (JS.toLowerCase path) = true.
Proof.
  unfold slashes_only. induction path as [|c s IH]; [reflexivity|].
  cbn [JS.toLowerCase all_chars].
  rewrite !andb_true_iff. intros [Hc Hs]. split; [|auto].
  unfold JS.toLowerCase_char.
  destruct ((65 <=? nat_of_ascii c)%nat && (nat_of_ascii c <=? 90)%nat) eqn:E;
    [|assumption].
  apply andb_true_iff in E as [E1 E2].
  apply Nat.leb_le in E1. apply Nat.leb_le in E2.
  apply negb_true_iff, orb_false_intro; apply Ascii.eqb_neq; intros H;
    apply (f_equal nat_of_ascii) in H; rewrite nat_ascii_embedding in H by lia;
    [change (nat_of_ascii ".") with 46%nat in H
    | change (nat_of_ascii "\") with 92%nat in H]; lia.
Qed.

(** A sub-computation that only adds keeps a name that is bound. *)
Lemma kept_after {A} (m : M A) app app' (r : Result A) n c :
  extends app (fst (m app)) -> m app = (app', r) ->
  _commandMap app !! n = Some c -> _commandMap app' !! n = Some c.
Proof. intros (Hkept & _) E. rewrite E in Hkept. apply Hkept. Qed.

Lemma new_Command_returned n d ctx cfg app app' c :
  new_Command n d ctx cfg app = (app', returned c) ->
  _commandMap app' !! JS.toLowerCase n = Some c.
Proof.
  unfold new_Command. rewrite get_bind. intros H.
  apply bind_inv in H as (app1 & [] & _ & H).
  apply bind_inv in H as (app2 & [] & Halias & H).
  apply bind_inv in H as (app3 & [] & Hpush & H).
  injection H as <- <-. apply registerAlias_returned in Halias.
  injection Hpush as <-. exact Halias.
Qed.

Lemma command_segment_found this d parent segment app app' r :
  command_segment this d parent segment app = (app', returned r) ->
  JS.charCodeAt0 segment <> Some 46%nat -> lower_case segment = true ->
  exists c, r = Some c /\ _commandMap app' !! segment_name segment = Some c.
Proof.
  intros H Hdot Hlower. unfold command_segment in H.
  rewrite decide_False in H by assumption.
  apply bind_inv in H as (app1 & n & Hname & H).
  assert (Hn : n = segment_name segment /\ app1 = app).
  { unfold segment_name. destruct (decide _); injection Hname as <- <-; auto. }
  destruct Hn as [-> ->]. rewrite get_bind in H.
  destruct (_commandMap app !! segment_name segment) as [c|] eqn:E.
  - apply bind_inv in H as (app2 & [] & Hcheck & [= <- <-]).
    exists c. split; [reflexivity|].
    refine (kept_after _ app app2 (returned tt) _ _ _ Hcheck E).
    destruct parent as [p|]; [|apply extends_refl].
    destruct (decide (c = p)); [apply extends_refl|].
    apply bind_keeps; [apply extends_trans | apply read_extends |].
    intros obj app3 _. destruct (Registry.parent obj) as [p'|].
    + destruct (decide (p' = p)); apply extends_refl.
    + apply bind_keeps; [apply extends_trans | apply read_extends |].
      intros above app4 _.
      destruct (Context.contain _ _) as [[|]|]; [apply adopt_extends | apply extends_refl ..].
  - apply bind_inv in H as (app2 & ctx & _ & H).
    destruct (String.eqb _ _); [discriminate|].
    apply bind_inv in H as (app3 & c & Hnew & H).
    apply bind_inv in H as (app4 & [] & Hadopt & [= <- <-]).
    exists c. split; [reflexivity|].
    apply new_Command_returned in Hnew. rewrite segment_name_lower in Hnew by assumption.
    refine (kept_after _ app3 app4 (returned tt) _ _ _ Hadopt Hnew).
    destruct parent as [p|]; [apply adopt_extends | apply extends_refl].
Qed.

Lemma command_segments_found this d init : forall parent app app' r segment,
  command_segments this d parent (init ++ [segment]) app = (app', returned r) ->
  JS.charCodeAt0 segment <> Some 46%nat -> lower_case segment = true ->
  exists c, r = Some c /\ _commandMap app' !! segment_name segment = Some c.
Proof.
  induction init as [|s init IH]; intros parent app app' r segment H Hdot Hlower.
  - simpl in H. apply bind_inv in H as (app1 & r1 & H1 & [= <- <-]).
    exact (command_segment_found _ _ _ _ _ _ _ H1 Hdot Hlower).
  - simpl in H. apply bind_inv in H as (app1 & r1 & _ & H). eauto.
Qed.

End CommandLookup.

(** X20.  A command is found under its path.  After
    [command(rawName, ...)] has returned a command, for a path (the
    first word of [rawName]) whose segments are set apart by ['/']
    alone, [_getCommandByRawName] of that path finds this command. *)
Theorem command_then_lookup (this : Context.t) (rawName : string)
    (description : option string) (config : option Registry.Config)
    (app : Registry.App) (c : Registry.CommandRef) :
  snd (Registry.command this rawName description config app) = Registry.returned c ->
  slashes_only (path_of rawName) = true ->
  Registry._getCommandByRawName (path_of rawName)
    (fst (Registry.command this rawName description config app)) = Some c.
Proof.
  destruct (Registry.command this rawName description config app) as [app' r] eqn:H.
  simpl. intros ->. revert H.
  unfold Registry.command, path_of.
  destruct (take 1 (JS.split " " rawName)) as [|path ?]; [discriminate|].
  intros H Hpath. apply bind_inv in H as (app1 & r & Hsegments & H).
  apply slashes_only_lower in Hpath.
  destruct (last_segment_name _ Hpath) as (init & segment & Hsplit & Hname).
  rewrite Hsplit in Hsegments.
  assert (Hchars : lower_case segment = true /\ slashes_only segment = true).
  { pose proof (split_before_chars _ Registry.is_separator _
                  (lower_case_toLowerCase path)) as Hl.
    pose proof (split_before_chars _ Registry.is_separator _ Hpath) as Hs.
    rewrite Hsplit in Hl, Hs. apply Forall_app in Hl as [_ Hl], Hs as [_ Hs].
    inversion Hl; inversion Hs; subst. auto. }
  destruct Hchars as [Hlower Hslashes].
  assert (Hdot : JS.charCodeAt0 segment <> Some 46%nat).
  { destruct segment as [|a s]; [discriminate|]. simpl. intros [= Ha].
    apply (f_equal ascii_of_nat) in Ha. rewrite ascii_nat_embedding in Ha. subst a.
    discriminate. }
  destruct (command_segments_found _ _ _ _ _ _ _ _ Hsegments Hdot Hlower)
    as (c' & -> & Hfound).
  apply bind_inv in H as (app2 & [] & Hwrite & [= <- <-]).
  injection Hwrite as <-. unfold Registry._getCommandByRawName.
  fold (after_last_slash path). rewrite after_last_slash_lower, <- Hname. exact Hfound.
Qed.

Lemma command_then_lookup_witness :
  Registry._getCommandByRawName (path_of "Tools/Echo <text>") tools_echo = Some 1%nat.
Proof.
  apply (command_then_lookup everyone "Tools/Echo <text>" None None no_commands 1%nat);
    vm_compute; reflexivity.
Defined.

Lemma alias_then_lookup_witness :
  let app' := fst (Registry.alias 1 ["Say"] tools_echo) in
  Registry._getCommandByRawName "SAY" app' = Some 1%nat /\
  Registry._getCommandByRawName ("tools" +:+ String "/" "SAY") app' = Some 1%nat.
Proof.
  apply (alias_then_lookup 1 ["Say"] tools_echo "Say" "SAY" "tools");
    [vm_compute; reflexivity | constructor | reflexivity | reflexivity].
Defined.

(** ** The command tree *)

Section Tree.

Import Registry.

Lemma intersect_contained A B :
  well_formed A -> well_formed B ->
  exists I, Context.intersect A B = Some I /\ well_formed I /\
    Context.contain B I = Some true.
Proof.
  intros HA HB.
  destruct (binary_law _ _ Context.intersect intersect_sub_combines (fun _ _ => eq_refl)
              A B HA HB) as (I & EI & WI & MI).
  exists I. split; [assumption|]. split; [assumption|].
  destruct (contain_decides B I HB WI) as (holds & -> & Hiff). f_equal.
  apply Hiff. intros e He. destruct (tagged_dec e) as [(m & type & -> & Htype)|Hno].
  - destruct (MI m type Htype) as (a & b & Ea & Eb & Ei).
    rewrite Ei in He. injection He as He. apply andb_true_iff in He as [_ ->]. exact Eb.
  - now apply match_untagged.
Qed.

(** The invariants look at the objects and at the registry of names
    only. *)
Lemma tree_invariant_frame app app' :
  objects app' = objects app -> _commandMap app' = _commandMap app ->
  tree_invariant app -> tree_invariant app'.
Proof.
  intros Ho Hm (I1 & I2 & I3 & I4). unfold tree_invariant. rewrite Ho, Hm. auto.
Qed.

(** Assignments that leave parents, children and contexts alone. *)
Lemma tree_invariant_write c f app :
  (forall obj, context (f obj) = context obj /\ parent (f obj) = parent obj /\
               children (f obj) = children obj) ->
  tree_invariant app -> tree_invariant (fst (write c f app)).
Proof.
  intros Hf (I1 & I2 & I3 & I4). simpl.
  assert (Hlook : forall c' obj', alter f c (objects app) !! c' = Some obj' ->
            exists obj, objects app !! c' = Some obj /\ context obj' = context obj /\
              parent obj' = parent obj /\ children obj' = children obj).
  { intros c' obj' H. destruct (decide (c = c')) as [<-|Hne].
    - rewrite list_lookup_alter, decide_True in H by reflexivity.
      destruct (objects app !! c) as [obj|]; [|discriminate].
      injection H as <-. exists obj. destruct (Hf obj) as (? & ? & ?). auto.
    - rewrite list_lookup_alter_ne in H by assumption. eauto. }
  assert (Hback : forall c' obj, objects app !! c' = Some obj ->
            exists obj', alter f c (objects app) !! c' = Some obj' /\
              context obj' = context obj /\ parent obj' = parent obj /\
              children obj' = children obj).
  { intros c' obj H. destruct (decide (c = c')) as [<-|Hne].
    - exists (f obj). rewrite list_lookup_alter, decide_True, H by reflexivity.
      destruct (Hf obj) as (? & ? & ?). auto.
    - exists obj. rewrite list_lookup_alter_ne by assumption. auto. }
  split; [|split; [|split]]; simpl.
  - intros c' obj' H. destruct (Hlook _ _ H) as (obj & E & -> & _). eauto.
  - intros n c' H. destruct (I2 n c' H) as [obj E].
    destruct (Hback _ _ E) as (obj' & E' & _). eauto.
  - intros c' obj' p H Hp. destruct (Hlook _ _ H) as (obj & E & Hc & Hpar & _).
    rewrite Hpar in Hp. destruct (I3 c' obj p E Hp) as (above & Ea & Hcont & Hin).
    destruct (Hback _ _ Ea) as (above' & Ea' & Hc' & _ & Hch').
    exists above'. rewrite Hc, Hc', Hch'. auto.
  - intros p above' H. destruct (Hlook _ _ H) as (above & E & _ & _ & Hch).
    rewrite Hch. destruct (I4 p above E) as [Hnd Hall]. split; [assumption|].
    intros c' Hin. destruct (Hall c' Hin) as (obj & Eo & Hp).
    destruct (Hback _ _ Eo) as (obj' & Eo' & _ & Hpar' & _).
    exists obj'. rewrite Hpar'. auto.
Qed.

Lemma tree_invariant_register n c app :
  is_Some (objects app !! c) -> tree_invariant app ->
  tree_invariant (set_commandMap (<[n := c]> (_commandMap app)) app).
Proof.
  intros Hc (I1 & I2 & I3 & I4). split; [|split; [|split]]; simpl; auto.
  intros n' c' H. destruct (decide (n = n')) as [<-|Hne].
  - rewrite lookup_insert_eq in H. now injection H as <-.
  - rewrite lookup_insert_ne in H by assumption. eauto.
Qed.

Lemma tree_invariant_registerAlias this n app :
  is_Some (objects app !! this) -> tree_invariant app ->
  tree_invariant (fst (_registerAlias this n app)) /\
  (forall c, is_Some (objects app !! c) ->
             is_Some (objects (fst (_registerAlias this n app)) !! c)).
Proof.
  intros Hthis Hinv. unfold _registerAlias.
  pose proof (tree_invariant_write this
                (fun c => with_aliases (_aliases c ++ [JS.toLowerCase n]) c) app
                (fun obj => conj eq_refl (conj eq_refl eq_refl)) Hinv) as H1.
  assert (Hvalid : forall c, is_Some (objects app !! c) ->
            is_Some (alter (fun c0 => with_aliases (_aliases c0 ++ [JS.toLowerCase n]) c0)
                           this (objects app) !! c)).
  { intros c [obj E]. destruct (decide (this = c)) as [<-|Hne].
    - rewrite list_lookup_alter, decide_True, E by reflexivity. simpl. eauto.
    - rewrite list_lookup_alter_ne by assumption. eauto. }
  unfold mbind, M_bind. simpl. simpl in H1.
  destruct (_commandMap app !! JS.toLowerCase n) as [previous|] eqn:E.
  - destruct (decide (previous = this)); simpl; auto.
  - simpl. split; [|exact Hvalid].
    apply (tree_invariant_register (JS.toLowerCase n) this) in H1; [exact H1|].
    simpl. auto.
Qed.

(** A new object, without parent and children. *)
Lemma tree_invariant_new obj app :
  well_formed (context obj) -> parent obj = None -> children obj = [] ->
  tree_invariant app -> tree_invariant (set_objects (objects app ++ [obj]) app).
Proof.
  intros Hwf Hpar Hch (I1 & I2 & I3 & I4).
  assert (Hlook : forall c o, (objects app ++ [obj]) !! c = Some o ->
            objects app !! c = Some o \/ (c = length (objects app) /\ o = obj)).
  { intros c o H. destruct (decide (c < length (objects app))%nat) as [Hlt|Hge].
    - rewrite lookup_app_l in H by assumption. auto.
    - rewrite lookup_app_r in H by lia.
      destruct (c - length (objects app))%nat as [|k] eqn:Ek; [|destruct k; discriminate].
      injection H as <-. right. split; [lia | reflexivity]. }
  assert (Hold : forall c o, objects app !! c = Some o ->
            (objects app ++ [obj]) !! c = Some o).
  { intros c o H. rewrite lookup_app_l; [assumption|]. now apply lookup_lt_Some in H. }
  split; [|split; [|split]]; simpl.
  - intros c o H. destruct (Hlook _ _ H) as [E|[_ ->]]; eauto.
  - intros n c H. destruct (I2 n c H) as [o E]. eauto.
  - intros c o p H Hp. destruct (Hlook _ _ H) as [E|[_ ->]]; [|congruence].
    destruct (I3 c o p E Hp) as (above & Ea & Hcont & Hin). eauto.
  - intros p above H. destruct (Hlook _ _ H) as [E|[_ ->]].
    + destruct (I4 p above E) as [Hnd Hall]. split; [assumption|].
      intros c Hin. destruct (Hall c Hin) as (o & Eo & Hpo). eauto.
    + rewrite Hch. split; [constructor|]. intros c Hin. now apply elem_of_nil in Hin.
Qed.

Lemma adopt_objects p c app :
  p <> c ->
  forall x,
    objects (fst (adopt p c app)) !! x =
    (fun o => if decide (x = p) then with_children (children o ++ [c]) o
              else if decide (x = c) then with_parent (Some p) o else o)
      <$> objects app !! x.
Proof.
  intros Hne x. simpl.
  destruct (decide (x = p)) as [->|Hp].
  - rewrite list_lookup_alter, decide_True by reflexivity.
    rewrite list_lookup_alter_ne by congruence. reflexivity.
  - rewrite list_lookup_alter_ne by congruence.
    destruct (decide (x = c)) as [->|Hc].
    + rewrite list_lookup_alter, decide_True by reflexivity. reflexivity.
    + rewrite list_lookup_alter_ne by congruence. now destruct (objects app !! x).
Qed.

(** A command without parent gets a parent whose context contains its
    own. *)
Lemma tree_invariant_adopt p c app obj above :
  p <> c -> objects app !! c = Some obj -> parent obj = None ->
  objects app !! p = Some above ->
  Context.contain (context above) (context obj) = Some true ->
  tree_invariant app -> tree_invariant (fst (adopt p c app)).
Proof.
  intros Hne Hc Hnone Hp Hcont (I1 & I2 & I3 & I4).
  pose proof (adopt_objects p c app Hne) as Hlook.
  set (app' := fst (adopt p c app)) in *.
  assert (Hmap : _commandMap app' = _commandMap app) by reflexivity.
  clearbody app'.
  assert (Hfresh : c ∉ children above).
  { intros Hin. destruct (I4 p above Hp) as [_ Hall].
    destruct (Hall c Hin) as (o & Eo & Hpo). congruence. }
  split; [|split; [|split]].
  - intros x o' H. rewrite Hlook in H.
    destruct (objects app !! x) as [o|] eqn:E; [|discriminate]. injection H as <-.
    specialize (I1 x o E). destruct (decide (x = p)); [exact I1|].
    destruct (decide (x = c)); exact I1.
  - intros n x H. rewrite Hmap in H. destruct (I2 n x H) as [o E].
    rewrite Hlook, E. simpl. eauto.
  - intros x o' q H Hq. rewrite Hlook in H.
    destruct (objects app !! x) as [o|] eqn:E; [|discriminate]. injection H as <-.
    destruct (decide (x = c)) as [->|Hxc].
    + assert (o = obj) by congruence. subst o.
      rewrite decide_False in Hq |- * by congruence. simpl in Hq. injection Hq as <-.
      exists (with_children (children above ++ [c]) above).
      rewrite Hlook, Hp. simpl. rewrite decide_True by reflexivity.
      split; [reflexivity|]. split; [exact Hcont|]. simpl.
      apply elem_of_app. right. now apply list_elem_of_singleton.
    + assert (Hpar : parent o = Some q) by (destruct (decide (x = p)); exact Hq).
      destruct (I3 x o q E Hpar) as (ab & Eab & Hcab & Hin).
      assert (Hctx : context (if decide (x = p)
                               then with_children (children o ++ [c]) o else o)
                     = context o) by (now destruct (decide (x = p))).
      rewrite Hctx.
      eexists. rewrite Hlook, Eab. simpl. split; [reflexivity|].
      destruct (decide (q = p)); [|destruct (decide (q = c))]; simpl;
        (split; [exact Hcab|]); try exact Hin.
      apply elem_of_app. now left.
  - intros q ab' H. rewrite Hlook in H.
    destruct (objects app !! q) as [ab|] eqn:E; [|discriminate]. injection H as <-.
    destruct (I4 q ab E) as [Hnd Hall].
    assert (Hkids : forall x, x ∈ children ab ->
              exists o', objects app' !! x = Some o' /\ parent o' = Some q).
    { intros x Hin. destruct (Hall x Hin) as (o & Eo & Hpo).
      assert (x <> c) by congruence.
      eexists. rewrite Hlook, Eo. simpl. split; [reflexivity|].
      rewrite (decide_False (P := x = c)) by assumption.
      now destruct (decide (x = p)). }
    destruct (decide (q = p)) as [->|Hqp].
    + assert (ab = above) by congruence. subst ab. simpl. split.
      * apply NoDup_app. split; [assumption|]. split; [|apply NoDup_singleton].
        intros x Hx Hx'. apply list_elem_of_singleton in Hx'. now subst.
      * intros x Hin. apply elem_of_app in Hin as [Hin|Hin]; [now apply Hkids|].
        apply list_elem_of_singleton in Hin. subst x.
        eexists. rewrite Hlook, Hc. simpl. split; [reflexivity|].
        rewrite decide_False by congruence. rewrite decide_True by reflexivity.
        reflexivity.
    + destruct (decide (q = c)); simpl; (split; [assumption | exact Hkids]).
Qed.

End Tree.

Section TreeInvariant.

Import Registry.

Lemma bind_holds {A B} (P : App -> Prop) (m : M A) (f : A -> M B) app :
  P (fst (m app)) ->
  (forall a app', m app = (app', returned a) -> P app' -> P (fst (f a app'))) ->
  P (fst ((m ≫= f) app)).
Proof.
  intros Hm Hf. unfold mbind, M_bind.
  destruct (m app) as [app' [a|e|]] eqn:E; simpl in *; auto.
Qed.

Lemma read_returned c app app' obj :
  read c app = (app', returned obj) -> app' = app /\ objects app !! c = Some obj.
Proof.
  unfold read. destruct (objects app !! c) as [o|]; intros [= <- <-]; auto.
Qed.

Lemma read_state c app : fst (read c app) = app.
Proof. unfold read. now destruct (objects app !! c). Qed.

Lemma tree_invariant_new_Command n d ctx cfg app :
  well_formed ctx -> tree_invariant app ->
  tree_invariant (fst (new_Command n d ctx cfg app)) /\
  forall app' c, new_Command n d ctx cfg app = (app', returned c) ->
    c = length (objects app) /\
    (exists obj, objects app' !! c = Some obj /\ parent obj = None /\ context obj = ctx) /\
    forall x o, objects app !! x = Some o -> objects app' !! x = Some o.
Proof.
  intros Hwf Hinv. unfold new_Command. rewrite get_bind.
  set (obj0 := {| name := n; declaration := d; context := ctx;
                  config := cfg ∪ defaultConfig; children := []; parent := None;
                  _aliases := []; _shortcuts := [] |}).
  set (app0 := set_objects (objects app ++ [obj0]) app).
  assert (H0 : tree_invariant app0) by (now apply tree_invariant_new).
  assert (Hthis : objects app0 !! length (objects app) = Some obj0).
  { simpl. rewrite lookup_app_r by reflexivity. now rewrite Nat.sub_diag. }
  destruct (tree_invariant_registerAlias (length (objects app)) n app0
              (ex_intro _ _ Hthis) H0) as [H1 _].
  change ((modify (set_objects (objects app ++ [obj0])) ≫= _) app)
    with ((_registerAlias (length (objects app)) n ≫=
            fun _ : unit =>
              modify (fun app2 => set_commands (_commands app2 ++ [length (objects app)]) app2)
              ≫= fun _ : unit => mret (length (objects app))) app0).
  assert (Hobjs : objects (fst (_registerAlias (length (objects app)) n app0))
                  = alter (fun c => with_aliases (_aliases c ++ [JS.toLowerCase n]) c)
                          (length (objects app)) (objects app0)).
  { unfold _registerAlias, mbind, M_bind. simpl.
    destruct (_commandMap app !! JS.toLowerCase n) as [previous|]; [|reflexivity].
    now destruct (decide (previous = length (objects app))). }
  unfold mbind, M_bind.
  destruct (_registerAlias (length (objects app)) n app0) as [app1 [[]|e|]] eqn:E;
    simpl in H1, Hobjs; simpl.
  - split.
    + eapply tree_invariant_frame; [| |exact H1]; reflexivity.
    + intros app' c [= <- <-]. split; [reflexivity|]. simpl. rewrite Hobjs. split.
      * exists (with_aliases (_aliases obj0 ++ [JS.toLowerCase n]) obj0).
        rewrite list_lookup_alter, decide_True by reflexivity.
        change (objects app0) with (objects app ++ [obj0]).
        rewrite lookup_app_r by reflexivity. rewrite Nat.sub_diag. auto.
      * intros x o Hx. pose proof (lookup_lt_Some _ _ _ Hx) as Hlt.
        rewrite list_lookup_alter_ne by lia.
        change (objects app0) with (objects app ++ [obj0]).
        now rewrite lookup_app_l.
  - split; [exact H1 | discriminate].
  - split; [exact H1 | discriminate].
Qed.

Lemma tree_invariant_command_segment this d parent segment app :
  well_formed this -> tree_invariant app ->
  tree_invariant (fst (command_segment this d parent segment app)).
Proof.
  intros Hthis Hinv. unfold command_segment.
  set (naming := if decide (JS.charCodeAt0 segment = Some 46%nat) then _ else _).
  assert (Hnaming : forall app0, fst (naming app0) = app0).
  { intros app0. unfold naming. destruct (decide _).
    - destruct parent as [p|]; [|reflexivity]. unfold mbind, M_bind, read.
      now destruct (objects app0 !! p).
    - now destruct (decide _). }
  apply bind_holds; [now rewrite Hnaming|].
  intros n app1 Hn _. pose proof (Hnaming app) as Hsame. rewrite Hn in Hsame.
  simpl in Hsame. subst app1. clear Hn. rewrite get_bind.
  destruct (_commandMap app !! n) as [c|] eqn:Ec.
  - apply bind_holds; [|intros [] app2 _ H2; exact H2].
    destruct parent as [p|]; [|exact Hinv].
    destruct (decide (c = p)) as [|Hcp]; [exact Hinv|].
    apply bind_holds; [now rewrite read_state|].
    intros obj app2 Hobj _. apply read_returned in Hobj as [-> Hobj].
    destruct (Registry.parent obj) as [p'|] eqn:Hpar.
    + destruct (decide (p' = p)); exact Hinv.
    + apply bind_holds; [now rewrite read_state|].
      intros above app3 Habove _. apply read_returned in Habove as [-> Habove].
      destruct (Context.contain (context above) (context obj)) as [[|]|] eqn:Hcont;
        try exact Hinv.
      eapply tree_invariant_adopt; eauto.
  - set (choosing := match parent with Some _ => _ | None => _ end).
    assert (Hchoosing : forall app0, fst (choosing app0) = app0).
    { intros app0. unfold choosing. destruct parent as [p|]; [|reflexivity].
      unfold mbind, M_bind, read. destruct (objects app0 !! p); [|reflexivity].
      now destruct (Context.intersect _ _). }
    apply bind_holds; [now rewrite Hchoosing|].
    intros ctx app1 Hctx _. pose proof (Hchoosing app) as Hsame. rewrite Hctx in Hsame.
    simpl in Hsame. subst app1.
    assert (Hwf : well_formed ctx /\
                  forall p, parent = Some p ->
                    exists above, objects app !! p = Some above /\
                      Context.contain (context above) ctx = Some true).
    { unfold choosing in Hctx. destruct parent as [p|].
      - apply bind_inv in Hctx as (app2 & above & Habove & Hctx).
        apply read_returned in Habove as [-> Habove].
        destruct Hinv as (I1 & _).
        destruct (intersect_contained this (context above) Hthis (I1 _ _ Habove))
          as (I & EI & WI & CI).
        rewrite EI in Hctx. injection Hctx as <-. split; [assumption|].
        intros p' [= <-]. eauto.
      - injection Hctx as <-. split; [assumption | discriminate]. }
    destruct Hwf as [Hwf Hparent].
    destruct (String.eqb _ _); [exact Hinv|].
    destruct (tree_invariant_new_Command n d ctx ∅ app Hwf Hinv) as [Hnew Hret].
    apply bind_holds; [exact Hnew|].
    intros c app2 Hc Hinv2. destruct (Hret _ _ Hc) as (-> & (obj & Hobj & Hnone & Hctxo) & Hold).
    apply bind_holds; [|intros [] app3 _ H3; exact H3].
    destruct parent as [p|]; [|exact Hinv2].
    destruct (Hparent p eq_refl) as (above & Habove & Hcont).
    eapply (tree_invariant_adopt p (length (objects app)) app2 obj above); eauto.
    + apply lookup_lt_Some in Habove. lia.
    + now rewrite Hctxo.
Qed.

Lemma tree_invariant_command_segments this d segments : forall parent app,
  well_formed this -> tree_invariant app ->
  tree_invariant (fst (command_segments this d parent segments app)).
Proof.
  induction segments as [|segment rest IH]; intros parent app Hthis Hinv; [exact Hinv|].
  simpl. apply bind_holds; [now apply tree_invariant_command_segment|].
  intros p app1 _ H1. now apply IH.
Qed.

Lemma tree_invariant_command this rawName description config app :
  well_formed this -> tree_invariant app ->
  tree_invariant (fst (command this rawName description config app)).
Proof.
  intros Hthis Hinv. unfold command.
  destruct (take 1 (JS.split " " rawName)) as [|path ?]; [exact Hinv|].
  apply bind_holds; [now apply tree_invariant_command_segments|].
  intros [p|] app1 _ H1; [|exact H1].
  apply bind_holds; [|intros [] app2 _ H2; exact H2].
  now apply tree_invariant_write.
Qed.

End TreeInvariant.

(** X21.  The command tree keeps its invariants.  When every command
    has a well-formed context, every registered name stands for a
    command, the context of each parent contains ([contain]) the
    context of its child, and parents and children are linked both
    ways, each child listed once, then the same holds after
    [command(rawName, ...)] on a well-formed context and after
    [subcommand(rawName, ...)], whether they return or throw. *)
Theorem command_keeps_tree_invariant (app : Registry.App) :
  tree_invariant app ->
  (forall this rawName description config,
     well_formed this ->
     tree_invariant (fst (Registry.command this rawName description config app))) /\
  (forall this rawName description config,
     tree_invariant (fst (Registry.subcommand this rawName description config app))).
Proof.
  intros Hinv. split.
  - intros. now apply tree_invariant_command.
  - intros. unfold Registry.subcommand.
    apply bind_holds; [now rewrite read_state|].
    intros obj app1 Hobj _. apply read_returned in Hobj as [-> Hobj].
    apply tree_invariant_command; [|assumption].
    destruct Hinv as (I1 & _). eauto.
Qed.

Lemma command_keeps_tree_invariant_witness :
  (forall this rawName description config,
     well_formed this ->
     tree_invariant (fst (Registry.command this rawName description config tools_echo))) /\
  (forall this rawName description config,
     tree_invariant (fst (Registry.subcommand this rawName description config tools_echo))).
Proof.
  apply (command_keeps_tree_invariant tools_echo).
  apply tree_invariant_command.
  - split; [reflexivity | repeat (constructor; [right; simpl; eauto|]); constructor].
  - repeat split; intros; simpl in *;
      try (rewrite lookup_nil in *); try (rewrite lookup_empty in *); discriminate.
Defined.

(** ** Disposal *)

Section Disposal.

Import Registry.

Lemma only_removes_refl app : only_removes app app.
Proof. split; [auto | eauto 10]. Qed.

Lemma only_removes_trans app1 app2 app3 :
  only_removes app1 app2 -> only_removes app2 app3 -> only_removes app1 app3.
Proof.
  intros [N1 O1] [N2 O2]. split; [auto|].
  intros c obj H. destruct (O1 c obj H) as (o' & E' & Ha' & Hs' & Hp').
  destruct (O2 c o' E') as (o'' & E'' & Ha'' & Hs'' & Hp''). exists o''.
  repeat split; congruence.
Qed.

Lemma write_only_removes c f app :
  (forall obj, _aliases (f obj) = _aliases obj /\ _shortcuts (f obj) = _shortcuts obj /\
               parent (f obj) = parent obj) ->
  only_removes app (fst (write c f app)).
Proof.
  intros Hf. split; [auto|]. intros c' obj H. simpl.
  destruct (decide (c = c')) as [<-|Hne].
  - exists (f obj). rewrite list_lookup_alter, decide_True, H by reflexivity.
    destruct (Hf obj) as (? & ? & ?). auto.
  - exists obj. rewrite list_lookup_alter_ne by assumption. auto.
Qed.

Lemma read_only_removes c app : only_removes app (fst (read c app)).
Proof. rewrite read_state. apply only_removes_refl. Qed.

Lemma modify_only_removes f app :
  objects (f app) = objects app ->
  (forall n, _commandMap app !! n = None -> _commandMap (f app) !! n = None) ->
  only_removes app (fst (modify f app)).
Proof.
  intros Ho Hm. split; [exact Hm|]. intros c obj H. simpl. rewrite Ho. eauto 10.
Qed.

Lemma forEach_delete names : forall app,
  forEach (fun name => modify (fun app => set_commandMap (delete name (_commandMap app)) app))
          names app
  = (set_commandMap (foldl (fun map name => delete name map) (_commandMap app) names) app,
     returned tt).
Proof.
  induction names as [|n names IH]; intros app; simpl.
  - now destruct app.
  - unfold mbind, M_bind, modify. rewrite IH. reflexivity.
Qed.

Lemma foldl_delete_None names : forall (map : gmap string CommandRef) n,
  n ∈ names \/ map !! n = None ->
  foldl (fun map name => delete name map) map names !! n = None.
Proof.
  induction names as [|n0 names IH]; intros map n H; simpl.
  - destruct H as [H|H]; [now apply elem_of_nil in H | exact H].
  - apply IH. destruct H as [H|H].
    + apply elem_of_cons in H as [->|H]; [right; apply lookup_delete_eq | now left].
    + right. destruct (decide (n0 = n)) as [->|Hne];
        [apply lookup_delete_eq | now rewrite lookup_delete_ne].
Qed.

Lemma forEach_shortcuts_map (shortcuts : list (string * ShortcutRef)) : forall app,
  let out :=
    forEach
      (fun '(name, shortcut) =>
         modify (fun app =>
           set_shortcuts (shortcutObjects app) (delete name (_shortcutMap app))
             (JS.splice1 (JS.Array_indexOf (shortcutList app) shortcut)
                         (shortcutList app)) app))
      shortcuts app in
  snd out = returned tt /\ _commandMap (fst out) = _commandMap app /\
  objects (fst out) = objects app /\ _commands (fst out) = _commands app.
Proof.
  induction shortcuts as [|[n s] shortcuts IH]; intros app; simpl; [auto|].
  unfold mbind, M_bind, modify.
  specialize (IH (set_shortcuts (shortcutObjects app) (delete n (_shortcutMap app))
                    (JS.splice1 (JS.Array_indexOf (shortcutList app) s) (shortcutList app))
                    app)).
  simpl in IH. destruct (forEach _ shortcuts _) as [app' r]. simpl in *.
  destruct IH as (-> & ? & ? & ?). auto.
Qed.

(** What [unregister] does to the registry of names, to the objects
    and to [app._commands]. *)
Lemma unregister_returned this app obj :
  objects app !! this = Some obj ->
  let app' := fst (unregister this app) in
  snd (unregister this app) = returned tt /\
  _commandMap app'
    = foldl (fun map name => delete name map) (_commandMap app) (_aliases obj) /\
  _commands app' = JS.splice1 (JS.Array_indexOf (_commands app) this) (_commands app) /\
  objects app'
    = match parent obj with
      | Some p =>
          alter (fun c => with_children
                            (JS.splice1 (JS.Array_indexOf (children c) this) (children c)) c)
                p (objects app)
      | None => objects app
      end.
Proof.
  intros Hobj. cbv zeta. unfold unregister.
  assert (Hread : read this app = (app, returned obj)) by (unfold read; now rewrite Hobj).
  rewrite (bind_returned _ _ _ _ _ Hread).
  pose proof (forEach_shortcuts_map (_shortcuts obj) app) as Hs. cbv zeta in Hs.
  unfold mbind, M_bind.
  destruct (forEach _ (_shortcuts obj) app) as [app1 r1]. simpl in Hs.
  destruct Hs as (-> & Hm1 & Ho1 & Hc1).
  rewrite forEach_delete. unfold modify.
  destruct (parent obj) as [p|]; simpl; rewrite ?Hm1, ?Ho1, ?Hc1; auto.
Qed.

Lemma unregister_only_removes this app : only_removes app (fst (unregister this app)).
Proof.
  unfold unregister.
  apply bind_keeps; [apply only_removes_trans | apply read_only_removes |].
  intros obj app0 _.
  apply bind_keeps; [apply only_removes_trans | |].
  { apply forEach_keeps; [apply only_removes_refl | apply only_removes_trans |].
    intros [n s] a. now apply modify_only_removes. }
  intros [] app1 _. apply bind_keeps; [apply only_removes_trans | |].
  { apply forEach_keeps; [apply only_removes_refl | apply only_removes_trans |].
    intros n a. apply modify_only_removes; [reflexivity|].
    intros n' Hn'. simpl. destruct (decide (n = n')) as [<-|Hne].
    - apply lookup_delete_eq.
    - now rewrite lookup_delete_ne. }
  intros [] app2 _. apply bind_keeps; [apply only_removes_trans | |].
  { now apply modify_only_removes. }
  intros [] app3 _. destruct (parent obj) as [p|]; [|apply only_removes_refl].
  now apply write_only_removes.
Qed.

Lemma dispose_only_removes fuel :
  (forall this app, only_removes app (fst (dispose fuel this app))) /\
  (forall this i app, only_removes app (fst (dispose_children fuel this i app))).
Proof.
  induction fuel as [|fuel [IHd IHc]].
  { split; intros; apply only_removes_refl. }
  split.
  - intros this app. cbn [dispose].
    apply bind_keeps; [apply only_removes_trans | apply IHc |].
    intros [] app1 _. apply unregister_only_removes.
  - intros this i app. cbn [dispose_children].
    apply bind_keeps; [apply only_removes_trans | apply read_only_removes |].
    intros obj app1 _. destruct (children obj !! i) as [cmd|]; [|apply only_removes_refl].
    apply bind_keeps; [apply only_removes_trans | apply IHd |].
    intros [] app2 _. apply IHc.
Qed.

(** When [dispose] returns, the names in the [_aliases] of the command
    are free. *)
Lemma dispose_frees fuel this app obj n :
  objects app !! this = Some obj ->
  snd (dispose fuel this app) = returned tt ->
  n ∈ _aliases obj ->
  _commandMap (fst (dispose fuel this app)) !! n = None.
Proof.
  intros Hobj Hret Hn. destruct fuel as [|fuel]; [discriminate|].
  cbn [dispose] in *. unfold mbind, M_bind in *.
  destruct (dispose_only_removes fuel) as [_ Hloop].
  specialize (Hloop this 0%nat app).
  destruct (dispose_children fuel this 0 app) as [app1 [[]|e|]];
    try discriminate.
  destruct Hloop as [_ Hobjs]. destruct (Hobjs this obj Hobj) as (obj1 & Hobj1 & Hal & _).
  destruct (unregister_returned this app1 obj1 Hobj1) as (_ & Hmap & _).
  rewrite Hmap. apply foldl_delete_None. left. now rewrite Hal.
Qed.

End Disposal.

(** X22.  Disposal frees the names.  When [dispose] returns, none of
    the names in the [_aliases] of the command is registered any more,
    whichever command the name was bound to. *)
Theorem dispose_frees_aliases (fuel : nat) (this : Registry.CommandRef)
    (app : Registry.App) (obj : Registry.Command) (n : string) :
  Registry.objects app !! this = Some obj ->
  snd (Registry.dispose fuel this app) = Registry.returned tt ->
  n ∈ Registry._aliases obj ->
  Registry._commandMap (fst (Registry.dispose fuel this app)) !! n = None.
Proof. exact (dispose_frees fuel this app obj n). Qed.

Lemma dispose_frees_aliases_witness :
  Registry._commandMap (fst (Registry.dispose 3 1 tools_echo)) !! "echo" = None.
Proof.
  eapply (dispose_frees_aliases 3 1 tools_echo _ "echo");
    [vm_compute; reflexivity | vm_compute; reflexivity | simpl; constructor].
Defined.

Section Arrays.

Import JS.

Context {A : Type} `{EqDecision A}.

Lemma Array_indexOf_from_middle (l1 l2 : list A) x : forall i,
  x ∉ l1 -> Array_indexOf_from x (l1 ++ x :: l2) i = i + Z.of_nat (length l1).
Proof.
  induction l1 as [|y l1 IH]; intros i Hx; simpl.
  - rewrite decide_True by reflexivity. lia.
  - rewrite decide_False by (intros ->; apply Hx; now left).
    rewrite IH by (intros H'; apply Hx; now right). lia.
Qed.

Lemma splice1_remove (l1 l2 : list A) x :
  x ∉ l1 -> splice1 (Array_indexOf (l1 ++ x :: l2) x) (l1 ++ x :: l2) = l1 ++ l2.
Proof.
  intros Hx. unfold Array_indexOf, splice1. rewrite Array_indexOf_from_middle by assumption.
  destruct (Z.ltb_spec (0 + Z.of_nat (length l1)) 0) as [?|_]; [lia|].
  rewrite Z.min_l by (rewrite length_app; simpl; lia).
  replace (Z.to_nat (0 + Z.of_nat (length l1))) with (length l1) by lia.
  apply delete_middle.
Qed.

Lemma elem_of_split_first (l : list A) x :
  x ∈ l -> exists l1 l2, l = l1 ++ x :: l2 /\ x ∉ l1.
Proof.
  induction l as [|y l IH]; intros Hx; [now apply elem_of_nil in Hx|].
  destruct (decide (y = x)) as [->|Hne].
  - exists [], l. split; [reflexivity | apply not_elem_of_nil].
  - apply elem_of_cons in Hx as [->|Hx]; [contradiction|].
    destruct (IH Hx) as (l1 & l2 & -> & Hl1). exists (y :: l1), l2.
    split; [reflexivity|]. intros H'. apply elem_of_cons in H' as [->|H']; auto.
Qed.

(** Taking out an element that is there leaves the others. *)
Lemma splice1_others (l : list A) x y :
  x ∈ l -> y <> x -> y ∈ l -> y ∈ splice1 (Array_indexOf l x) l.
Proof.
  intros Hx Hne Hy. destruct (elem_of_split_first l x Hx) as (l1 & l2 & -> & Hl1).
  rewrite splice1_remove by assumption.
  apply elem_of_app in Hy as [Hy|Hy]; apply elem_of_app; [now left|].
  apply elem_of_cons in Hy as [->|Hy]; [contradiction | now right].
Qed.

End Arrays.

Section DisposeChildren.

Import Registry.

Lemma alternate_subset {A} (l : list A) x : x ∈ alternate l -> x ∈ l.
Proof.
  revert x. induction l as [l IH] using (induction_ltof1 _ (@length _)).
  destruct l as [|a [|b l]]; intros x Hx; try now apply elem_of_nil in Hx.
  simpl in Hx. apply elem_of_cons in Hx as [->|Hx].
  - right. now left.
  - do 2 right. apply IH; [unfold ltof; simpl; lia | assumption].
Qed.

(** A child without children of its own is disposed: it leaves the
    children of its parent and [app._commands]. *)
Lemma dispose_leaf fuel x p app o po done rest :
  objects app !! x = Some o -> children o = [] -> parent o = Some p ->
  objects app !! p = Some po -> children po = done ++ x :: rest -> x ∉ done ->
  x ∈ _commands app ->
  let out := dispose (S (S fuel)) x app in
  snd out = returned tt /\
  objects (fst out) !! p = Some (with_children (done ++ rest) po) /\
  (forall y, y <> p -> objects (fst out) !! y = objects app !! y) /\
  (forall y, y <> x -> y ∈ _commands app -> y ∈ _commands (fst out)).
Proof.
  intros Hx Hleaf Hpar Hp Hkids Hdone Hin. cbv zeta. cbn [dispose dispose_children].
  assert (Hread : read x app = (app, returned o)) by (unfold read; now rewrite Hx).
  assert (Hloop : (read x ≫= fun obj =>
                     match children obj !! 0%nat with
                     | Some cmd => dispose fuel cmd ;; dispose_children fuel x 1
                     | None => mret tt
                     end) app = (app, returned tt)).
  { rewrite (bind_returned _ _ _ _ _ Hread). now rewrite Hleaf. }
  rewrite (bind_returned _ _ _ _ _ Hloop).
  destruct (unregister_returned x app o Hx) as (Hret & _ & Hcmds & Hobjs).
  rewrite Hpar in Hobjs. split; [exact Hret|]. rewrite Hobjs, Hcmds. split; [|split].
  - rewrite list_lookup_alter, decide_True, Hp by reflexivity. simpl.
    rewrite Hkids, splice1_remove by assumption. reflexivity.
  - intros y Hy. now rewrite list_lookup_alter_ne by congruence.
  - intros y Hy Hyin. now apply splice1_others.
Qed.

Lemma dispose_children_turn fuel p i app po :
  objects app !! p = Some po ->
  dispose_children (S fuel) p i app =
  match children po !! i with
  | Some cmd => (dispose fuel cmd ;; dispose_children fuel p (S i)) app
  | None => (app, returned tt)
  end.
Proof.
  intros Hp. cbn [dispose_children].
  assert (Hread : read p app = (app, returned po)) by (unfold read; now rewrite Hp).
  rewrite (bind_returned _ _ _ _ _ Hread). now destruct (children po !! i).
Qed.

(** The loop over the children of [p], from position [length done] on,
    when the children from there on are [rem]: every second one of them
    is disposed, the others stay. *)
Lemma dispose_children_alternate p n : forall rem done app fuel po,
  (length rem <= n)%nat ->
  objects app !! p = Some po -> children po = done ++ rem -> NoDup (done ++ rem) ->
  (forall c, c ∈ rem ->
     exists o, objects app !! c = Some o /\ children o = [] /\ parent o = Some p) ->
  (forall c, c ∈ rem -> c ∈ _commands app) ->
  (length rem + 3 <= fuel)%nat ->
  let out := dispose_children fuel p (length done) app in
  snd out = returned tt /\
  objects (fst out) !! p = Some (with_children (done ++ alternate rem) po) /\
  (forall y, y <> p -> objects (fst out) !! y = objects app !! y) /\
  (forall y, y ∈ _commands app -> y ∈ alternate rem \/ y ∉ rem ->
             y ∈ _commands (fst out)).
Proof.
  induction n as [n IH] using lt_wf_ind.
  intros rem done app fuel po Hlen Hp Hkids Hnd Hleaves Hcmds Hfuel. cbv zeta.
  destruct fuel as [|fuel]; [lia|]. rewrite (dispose_children_turn _ _ _ _ _ Hp), Hkids.
  destruct rem as [|x rem].
  { rewrite app_nil_r, lookup_ge_None_2 by lia. simpl. rewrite app_nil_r.
    rewrite app_nil_r in Hkids. repeat split; auto. rewrite Hp. f_equal.
    rewrite <- Hkids. now destruct po. }
  rewrite lookup_app_r by reflexivity. rewrite Nat.sub_diag. simpl lookup.
  destruct (Hleaves x ltac:(now left)) as (o & Hx & Hleaf & Hpar).
  assert (Hxdone : x ∉ done).
  { apply NoDup_app in Hnd as (_ & Hdisj & _). intros H. apply (Hdisj x H). now left. }
  assert (Hxrem : x ∉ rem).
  { apply NoDup_app in Hnd as (_ & _ & Hrem). now inversion Hrem. }
  destruct fuel as [|[|fuel]]; [simpl in Hfuel; lia | simpl in Hfuel; lia |].
  destruct (dispose_leaf fuel x p app o po done rem Hx Hleaf Hpar Hp Hkids Hxdone
              (Hcmds x ltac:(now left))) as (Hret & Hp1 & Hothers1 & Hcmds1).
  cbv zeta in Hret, Hp1, Hothers1, Hcmds1.
  unfold mbind, M_bind.
  destruct (dispose (S (S fuel)) x app) as [app1 r1]. simpl in Hret, Hp1, Hothers1, Hcmds1.
  subst r1.
  assert (Hpx : p <> x).
  { intros ->. assert (o = po) by congruence. subst o. rewrite Hleaf in Hkids.
    now destruct done. }
  assert (Hleaves1 : forall c, c ∈ rem ->
            exists o', objects app1 !! c = Some o' /\ children o' = [] /\
                       parent o' = Some p).
  { intros c Hc. destruct (Hleaves c ltac:(now right)) as (o' & Hc' & Hl' & Hp').
    exists o'. rewrite Hothers1; [auto|]. intros ->.
    assert (o' = po) by congruence. subst o'. rewrite Hl' in Hkids. now destruct done. }
  destruct rem as [|y rem].
  - rewrite (dispose_children_turn _ _ _ _ _ Hp1). simpl children.
    rewrite app_nil_r, lookup_ge_None_2 by lia. simpl. rewrite app_nil_r.
    rewrite app_nil_r in Hp1. repeat split; auto.
    intros z Hz Hsurv. apply Hcmds1; [|assumption].
    intros ->. destruct Hsurv as [H|H]; [now apply elem_of_nil in H | apply H; now left].
  - assert (Hy : y ∉ rem).
    { apply NoDup_app in Hnd as (_ & _ & Hrem). inversion Hrem as [|? ? _ Hrem']; subst.
      now inversion Hrem'. }
    specialize (IH (length rem) ltac:(simpl in Hlen; lia) rem (done ++ [y]) app1
                   (S (S fuel)) (with_children (done ++ y :: rem) po) (le_n _) Hp1).
    cbv zeta in IH. rewrite length_app in IH. change (length [y]) with 1%nat in IH.
    rewrite Nat.add_1_r in IH.
    destruct IH as (Hret2 & Hp2 & Hothers2 & Hcmds2).
    + simpl. now rewrite <- app_assoc.
    + rewrite <- app_assoc. simpl. apply NoDup_app in Hnd as (Hd & Hdisj & Hrem).
      apply NoDup_app. split; [assumption|]. split.
      * intros z Hz Hz'. apply (Hdisj z Hz). now right.
      * now inversion Hrem.
    + intros c Hc. apply Hleaves1. now right.
    + intros c Hc. apply Hcmds1; [|apply Hcmds; now do 2 right].
      intros ->. apply Hxrem. now right.
    + simpl in Hfuel. lia.
    + split; [exact Hret2|]. split; [|split].
      * rewrite Hp2. simpl. now rewrite <- app_assoc.
      * intros z Hz. now rewrite Hothers2, Hothers1.
      * intros z Hz Hsurv. apply Hcmds2.
        -- apply Hcmds1; [|assumption]. intros ->.
           destruct Hsurv as [H|H]; [|apply H; now left].
           simpl in H. apply elem_of_cons in H as [->|H]; apply Hxrem; [now left|].
           right. now apply alternate_subset.
        -- destruct Hsurv as [H|H].
           ++ simpl in H. apply elem_of_cons in H as [->|H]; [now right | now left].
           ++ right. intros H'. apply H. now do 2 right.
Qed.

End DisposeChildren.

Section DisposeSkips.

Import Registry.

(** Disposal of a command whose children have no children of their own. *)
Lemma dispose_flat fuel p app po :
  objects app !! p = Some po ->
  parent po <> Some p ->
  p ∈ _commands app ->
  NoDup (children po) ->
  (forall c, c ∈ children po ->
     c ∈ _commands app /\
     exists o, objects app !! c = Some o /\ children o = [] /\ parent o = Some p) ->
  (length (children po) + 4 <= fuel)%nat ->
  let out := dispose fuel p app in
  snd out = returned tt /\
  (exists po', objects (fst out) !! p = Some po' /\
               children po' = alternate (children po)) /\
  (forall c, c ∈ alternate (children po) ->
     c ∈ _commands (fst out) /\
     exists o, objects (fst out) !! c = Some o /\ children o = [] /\ parent o = Some p).
Proof.
  intros Hp Hself Hin Hnd Hleaves Hfuel. cbv zeta.
  destruct fuel as [|fuel]; [lia|]. cbn [dispose].
  pose proof (dispose_children_alternate p (length (children po)) (children po) [] app fuel po
                (le_n _) Hp eq_refl Hnd
                (fun c Hc => proj2 (Hleaves c Hc)) (fun c Hc => proj1 (Hleaves c Hc))
                ltac:(lia)) as Hloop.
  cbv zeta in Hloop. change (length (@nil CommandRef)) with 0%nat in Hloop.
  change ([] ++ alternate (children po)) with (alternate (children po)) in Hloop.
  unfold mbind, M_bind.
  destruct (dispose_children fuel p 0 app) as [app1 r1]. simpl in Hloop.
  destruct Hloop as (-> & Hp1 & Hothers & Hcmds).
  assert (Hnot : forall c, c ∈ children po -> c <> p).
  { intros c Hc ->. destruct (Hleaves p Hc) as (_ & o & Ho & Hleaf & _).
    assert (o = po) by congruence. subst o. rewrite Hleaf in Hc.
    now apply elem_of_nil in Hc. }
  destruct (unregister_returned p app1 _ Hp1) as (Hret & _ & Hcmds' & Hobjs).
  simpl parent in Hobjs. split; [exact Hret|]. split.
  - exists (with_children (alternate (children po)) po). split; [|reflexivity].
    rewrite Hobjs. destruct (parent po) as [q|]; [|exact Hp1].
    rewrite list_lookup_alter_ne by congruence. exact Hp1.
  - intros c Hc. pose proof (alternate_subset _ _ Hc) as Hc'.
    destruct (Hleaves c Hc') as (Hcin & o & Ho & Hleaf & Hpar). split.
    + rewrite Hcmds'. apply splice1_others.
      * apply Hcmds; [assumption|]. right. intros H. now apply (Hnot p).
      * now apply Hnot.
      * apply Hcmds; [assumption | now left].
    + rewrite Hobjs. rewrite <- (Hothers c (Hnot c Hc')) in Ho.
      destruct (parent po) as [q|]; [|eauto].
      destruct (decide (q = c)) as [->|Hne].
      * rewrite list_lookup_alter, decide_True, Ho by reflexivity. simpl.
        eexists. split; [reflexivity|]. simpl. rewrite Hleaf. split; [reflexivity|assumption].
      * rewrite list_lookup_alter_ne by assumption. eauto.
Qed.

(** An alias that another command owns: the call throws and the
    registry of names is as before, but the name is among the aliases
    of the command. *)
Lemma alias_taken this d n names app obj :
  objects app !! this = Some obj ->
  _commandMap app !! JS.toLowerCase n = Some d -> d <> this ->
  let out := alias this (n :: names) app in
  snd out = threw (duplicate_command_names (JS.toLowerCase n)) /\
  _commandMap (fst out) = _commandMap app /\
  objects (fst out) = alter (fun c => with_aliases (_aliases c ++ [JS.toLowerCase n]) c)
                            this (objects app).
Proof.
  intros Hobj Hd Hne. cbv zeta. unfold alias. cbn [forEach].
  unfold _registerAlias, write, modify, get, mbind, M_bind. simpl.
  rewrite Hd. rewrite decide_False by assumption. simpl. auto.
Qed.

End DisposeSkips.

(** X23.  Disposal passes over every second child.  The loop of
    [dispose] goes through [this.children] by position while every
    child that is disposed takes itself out of that array.  For a
    registered command that is not its own parent and whose children
    are registered and have no children of their own: [dispose] returns;
    the children at the second, fourth, ... places are never disposed:
    they are still in [app._commands], still have the command as their
    parent, and they are what is left of its [children]. *)
Theorem dispose_skips_every_other_child (fuel : nat) (this : Registry.CommandRef)
    (app : Registry.App) (obj : Registry.Command) :
  Registry.objects app !! this = Some obj ->
  Registry.parent obj <> Some this ->
  this ∈ Registry._commands app ->
  NoDup (Registry.children obj) ->
  (forall c, c ∈ Registry.children obj ->
     c ∈ Registry._commands app /\
     exists o, Registry.objects app !! c = Some o /\ Registry.children o = [] /\
               Registry.parent o = Some this) ->
  (length (Registry.children obj) + 4 <= fuel)%nat ->
  let out := Registry.dispose fuel this app in
  snd out = Registry.returned tt /\
  (exists obj', Registry.objects (fst out) !! this = Some obj' /\
                Registry.children obj' = alternate (Registry.children obj)) /\
  (forall c, c ∈ alternate (Registry.children obj) ->
     c ∈ Registry._commands (fst out) /\
     exists o, Registry.objects (fst out) !! c = Some o /\ Registry.children o = [] /\
               Registry.parent o = Some this).
Proof. exact (dispose_flat fuel this app obj). Qed.

Lemma dispose_skips_every_other_child_witness :
  exists obj,
    Registry.objects four_subcommands !! 0%nat = Some obj /\
    Registry.children obj = [1; 2; 3; 4]%nat /\
    let out := Registry.dispose 8 0 four_subcommands in
    snd out = Registry.returned tt /\
    (exists obj', Registry.objects (fst out) !! 0%nat = Some obj' /\
                  Registry.children obj' = alternate (Registry.children obj)) /\
    (forall c, c ∈ alternate (Registry.children obj) ->
       c ∈ Registry._commands (fst out) /\
       exists o, Registry.objects (fst out) !! c = Some o /\ Registry.children o = [] /\
                 Registry.parent o = Some 0%nat).
Proof.
  assert (exists obj, Registry.objects four_subcommands !! 0%nat = Some obj /\
                      Registry.children obj = [1; 2; 3; 4]%nat /\
                      Registry.parent obj = None) as (obj & E & Hkids & Hpar).
  { vm_compute. eexists. split; [reflexivity | split; reflexivity]. }
  exists obj. split; [exact E|]. split; [exact Hkids|].
  apply (dispose_skips_every_other_child 8 0 four_subcommands obj E).
  - rewrite Hpar. discriminate.
  - vm_compute. repeat constructor.
  - rewrite Hkids. apply (bool_decide_unpack _). vm_compute. exact I.
  - rewrite Hkids. clear E Hkids Hpar. intros c Hc.
    repeat (apply elem_of_cons in Hc as [->|Hc]); [..|now apply elem_of_nil in Hc];
      (split;
       [vm_compute; repeat constructor
       |eexists; split; [vm_compute; reflexivity | split; reflexivity]]).
  - rewrite Hkids. simpl. lia.
Defined.

(** X24.  An alias that fails is still freed by disposal.
    [_registerAlias] puts the name into [_aliases] before it looks at
    the registry.  So [alias], called with a name that another command
    owns, throws and leaves [app._commandMap] as it was; and when the
    command is then disposed and [dispose] returns, the name is no
    longer registered: the other command has lost its name. *)
Theorem failed_alias_frees_the_name (this d : Registry.CommandRef) (n : string)
    (names : list string) (app : Registry.App) (fuel : nat) :
  is_Some (Registry.objects app !! this) ->
  Registry._commandMap app !! JS.toLowerCase n = Some d -> d <> this ->
  let out := Registry.alias this (n :: names) app in
  snd out = Registry.threw (Registry.duplicate_command_names (JS.toLowerCase n)) /\
  Registry._commandMap (fst out) = Registry._commandMap app /\
  (snd (Registry.dispose fuel this (fst out)) = Registry.returned tt ->
   Registry._commandMap (fst (Registry.dispose fuel this (fst out))) !! JS.toLowerCase n
     = None).
Proof.
  intros [obj Hobj] Hd Hne. cbv zeta.
  destruct (alias_taken this d n names app obj Hobj Hd Hne) as (Hthrow & Hmap & Hobjs).
  split; [exact Hthrow|]. split; [exact Hmap|]. intros Hret.
  apply (dispose_frees fuel this _
           (Registry.with_aliases (Registry._aliases obj ++ [JS.toLowerCase n]) obj)).
  - rewrite Hobjs, list_lookup_alter, decide_True, Hobj by reflexivity. reflexivity.
  - exact Hret.
  - simpl. apply elem_of_app. right. now left.
Qed.

Lemma failed_alias_frees_the_name_witness :
  let out := Registry.alias 1 ["Tools"] tools_echo in
  snd out = Registry.threw (Registry.duplicate_command_names "tools") /\
  Registry._commandMap (fst out) = Registry._commandMap tools_echo /\
  Registry._commandMap tools_echo !! "tools" = Some 0%nat /\
  Registry._commandMap (fst (Registry.dispose 3 1 (fst out))) !! "tools" = None.
Proof.
  destruct (failed_alias_frees_the_name 1 0 "Tools" [] tools_echo 3) as (H1 & H2 & H3);
    [vm_compute; eauto | vm_compute; reflexivity | discriminate |].
  split; [exact H1|]. split; [exact H2|]. split; [vm_compute; reflexivity|].
  apply H3. vm_compute. reflexivity.
Defined.

(** ** Registration and disposal *)

Section RegisterDispose.

Import Registry.

Lemma split_before_whole p s :
  all_chars (fun c => negb (p c)) s = true -> JS.split_before p s = [s].
Proof.
  induction s as [|c s IH]; [reflexivity|]. intros H.
  cbn [all_chars] in H. apply andb_true_iff in H as [_ H].
  destruct s as [|c' s]; [reflexivity|].
  change (JS.split_before p (String c (String c' s)))
    with (if p c' then String c EmptyString :: JS.split_before p (String c' s)
          else match JS.split_before p (String c' s) with
               | seg :: rest => String c seg :: rest
               | [] => [String c EmptyString]
               end).
  rewrite (IH H). cbn [all_chars] in H. apply andb_true_iff in H as [Hc _].
  apply negb_true_iff in Hc. now rewrite Hc.
Qed.

Lemma no_separators path :
  slashes_only path = true -> all_chars (is_not "/") path = true ->
  all_chars (fun c => negb (is_separator c)) path = true.
Proof.
  unfold slashes_only, is_separator, is_not.
  induction path as [|c s IH]; [reflexivity|]. cbn [all_chars].
  rewrite !andb_true_iff. intros [H1 H2] [H3 H4]. split; [|auto].
  apply negb_true_iff in H1, H3. apply orb_false_elim in H1 as [H1 H1'].
  now rewrite H1, H1', H3.
Qed.

Lemma no_separator_code segment :
  all_chars (fun c => negb (is_separator c)) segment = true ->
  JS.charCodeAt0 segment <> Some 46%nat /\ JS.charCodeAt0 segment <> Some 47%nat.
Proof.
  destruct segment as [|c s]; [split; discriminate|]. cbn [all_chars JS.charCodeAt0].
  intros H. apply andb_true_iff in H as [H _]. apply negb_true_iff in H.
  unfold is_separator in H. apply orb_false_elim in H as [H H47].
  apply orb_false_elim in H as [_ H46].
  apply Ascii.eqb_neq in H46, H47.
  split; intros [= E]; apply (f_equal ascii_of_nat) in E;
    rewrite ascii_nat_embedding in E; subst c; [now apply H46 | now apply H47].
Qed.

(** [command] with a path of one segment whose name is not registered
    yet: the new command is the next object, registered under its name
    and listed last. *)
Lemma command_fresh this rawName description config app :
  slashes_only (path_of rawName) = true ->
  all_chars (is_not "/") (path_of rawName) = true ->
  Context.identifier this <> noopIdentifier ->
  _commandMap app !! JS.toLowerCase (path_of rawName) = None ->
  let c := length (objects app) in
  let out := command this rawName description config app in
  snd out = returned c /\
  _commandMap (fst out) = <[JS.toLowerCase (path_of rawName) := c]> (_commandMap app) /\
  _commands (fst out) = _commands app ++ [c] /\
  (exists obj, objects (fst out) = objects app ++ [obj] /\
     children obj = [] /\ parent obj = None /\
     _aliases obj = [JS.toLowerCase (path_of rawName)] /\ _shortcuts obj = []) /\
  _shortcutMap (fst out) = _shortcutMap app /\ shortcutList (fst out) = shortcutList app.
Proof.
  intros Hslashes Hplain Hnoop Hfree. cbv zeta. unfold command, path_of in *.
  destruct (take 1 (JS.split " " rawName)) as [|path ?] eqn:Hsplit.
  { destruct (JS.split " " rawName) eqn:E; [now apply split_nonempty in E | discriminate]. }
  pose proof (no_separators _ (slashes_only_lower _ Hslashes)) as Hsep.
  assert (Hplain' : all_chars (is_not "/") (JS.toLowerCase path) = true).
  { clear -Hplain. induction path as [|a s IH]; [reflexivity|].
    cbn [JS.toLowerCase all_chars] in *. apply andb_true_iff in Hplain as [Ha Hs].
    rewrite (IH Hs), andb_true_r. unfold is_not in *.
    now rewrite toLowerCase_char_slash. }
  specialize (Hsep Hplain'). rewrite (split_before_whole _ _ Hsep).
  destruct (no_separator_code _ Hsep) as [H46 H47].
  cbn [command_segments]. unfold command_segment.
  rewrite decide_False by assumption. rewrite decide_False by assumption.
  apply String.eqb_neq in Hnoop.
  unfold new_Command, _registerAlias, adopt, write, modify, get, mbind, M_bind, mret, M_ret.
  cbn beta iota. rewrite Hfree. cbn beta iota. rewrite Hnoop. cbn beta iota.
  cbn [set_objects set_commandMap set_commands objects _commandMap _commands
       _shortcutMap shortcutList fst snd].
  rewrite toLowerCase_idem, Hfree. cbn beta iota.
  cbn [set_objects set_commandMap set_commands objects _commandMap _commands
       _shortcutMap shortcutList fst snd].
  split; [reflexivity|]. split; [reflexivity|]. split; [reflexivity|].
  split; [|split; reflexivity].
  eexists. split.
  - rewrite <- (Nat.add_0_r (length (objects app))), !alter_app_r. reflexivity.
  - repeat split.
Qed.

(** Registering a new command at the top and disposing it. *)
Lemma command_dispose this rawName description config app fuel :
  slashes_only (path_of rawName) = true ->
  all_chars (is_not "/") (path_of rawName) = true ->
  Context.identifier this <> noopIdentifier ->
  _commandMap app !! JS.toLowerCase (path_of rawName) = None ->
  length (objects app) ∉ _commands app ->
  (2 <= fuel)%nat ->
  let registered := command this rawName description config app in
  let disposed := dispose fuel (length (objects app)) (fst registered) in
  snd registered = returned (length (objects app)) /\
  snd disposed = returned tt /\
  _commandMap (fst disposed) = _commandMap app /\
  _commands (fst disposed) = _commands app /\
  (forall c obj, objects app !! c = Some obj -> objects (fst disposed) !! c = Some obj).
Proof.
  intros Hslashes Hplain Hnoop Hfree Hnew Hfuel. cbv zeta.
  destruct (command_fresh this rawName description config app Hslashes Hplain Hnoop Hfree)
    as (Hret & Hmap & Hcmds & (obj & Hobjs & Hleaf & Hpar & Hal & _) & _).
  destruct (command this rawName description config app) as [app1 r]. simpl in *.
  split; [exact Hret|].
  assert (Hobj : objects app1 !! length (objects app) = Some obj).
  { rewrite Hobjs. now apply list_lookup_middle. }
  destruct fuel as [|[|fuel]]; [lia | lia |].
  assert (Hd : dispose (S (S fuel)) (length (objects app)) app1
               = unregister (length (objects app)) app1).
  { change (dispose (S (S fuel)) (length (objects app)))
      with (dispose_children (S fuel) (length (objects app)) 0 ;;
            unregister (length (objects app))).
    unfold mbind, M_bind. now rewrite (dispose_children_turn _ _ _ _ _ Hobj), Hleaf. }
  rewrite Hd.
  destruct (unregister_returned _ app1 obj Hobj) as (Hret' & Hmap' & Hcmds' & Hobjs').
  rewrite Hpar in Hobjs'. split; [exact Hret'|].
  rewrite Hmap', Hcmds', Hobjs', Hal, Hmap, Hcmds, Hobjs. simpl foldl.
  split; [now apply delete_insert_id|]. split.
  - rewrite (splice1_remove (_commands app) []) by assumption. apply app_nil_r.
  - intros c o Ho. now apply lookup_app_l_Some.
Qed.

End RegisterDispose.


(** ** Shortcuts *)

Section Shortcuts.

Import Registry.

Lemma forEach_shortcuts (shortcuts : list (string * ShortcutRef)) : forall app,
  forEach
    (fun '(name, shortcut) =>
       modify (fun app =>
         set_shortcuts (shortcutObjects app) (delete name (_shortcutMap app))
           (JS.splice1 (JS.Array_indexOf (shortcutList app) shortcut)
                       (shortcutList app)) app))
    shortcuts app
  = (set_shortcuts (shortcutObjects app)
       (foldl (fun map ns => delete ns.1 map) (_shortcutMap app) shortcuts)
       (foldl (fun l ns => JS.splice1 (JS.Array_indexOf l ns.2) l) (shortcutList app)
              shortcuts)
       app,
     returned tt).
Proof.
  induction shortcuts as [|[n s] shortcuts IH]; intros app; simpl.
  - now destruct app.
  - unfold mbind, M_bind, modify. rewrite IH. reflexivity.
Qed.

(** What [unregister] does to the registries of shortcuts. *)
Lemma unregister_shortcuts this app obj :
  objects app !! this = Some obj ->
  let app' := fst (unregister this app) in
  _shortcutMap app'
    = foldl (fun map ns => delete ns.1 map) (_shortcutMap app) (_shortcuts obj) /\
  shortcutList app'
    = foldl (fun l ns => JS.splice1 (JS.Array_indexOf l ns.2) l) (shortcutList app)
            (_shortcuts obj).
Proof.
  intros Hobj. cbv zeta. unfold unregister.
  assert (Hread : read this app = (app, returned obj)) by (unfold read; now rewrite Hobj).
  rewrite (bind_returned _ _ _ _ _ Hread).
  unfold mbind, M_bind. rewrite forEach_shortcuts, forEach_delete. unfold modify.
  destruct (parent obj) as [p|]; simpl; auto.
Qed.

(** A shortcut of a command without children and without shortcuts,
    and the disposal of the command. *)
Lemma shortcut_dispose this name config app obj fuel :
  objects app !! this = Some obj ->
  children obj = [] -> _shortcuts obj = [] ->
  _shortcutMap app !! name = None ->
  length (shortcutObjects app) ∉ shortcutList app ->
  (2 <= fuel)%nat ->
  let added := shortcut this name config app in
  let disposed := dispose fuel this (fst added) in
  snd added = returned this /\
  _shortcutMap (fst added) !! name = Some this /\
  shortcutList (fst added) = shortcutList app ++ [length (shortcutObjects app)] /\
  snd disposed = returned tt /\
  _shortcutMap (fst disposed) = _shortcutMap app /\
  shortcutList (fst disposed) = shortcutList app.
Proof.
  intros Hobj Hleaf Hnone Hfree Hnew Hfuel. cbv zeta.
  assert (Hread : read this app = (app, returned obj)) by (unfold read; now rewrite Hobj).
  unfold shortcut. rewrite (bind_returned _ _ _ _ _ Hread), get_bind.
  unfold write, modify, mbind, M_bind, mret, M_ret. cbn beta iota.
  cbn [fst snd set_shortcuts set_objects objects shortcutObjects _shortcutMap shortcutList].
  split; [reflexivity|]. split; [apply lookup_insert_eq|]. split; [reflexivity|].
  set (app1 := set_shortcuts _ _ _ _).
  set (obj1 := with_shortcuts
                 (assign_shortcut name (length (shortcutObjects app)) (_shortcuts obj)) obj).
  assert (Hobj1 : objects app1 !! this = Some obj1).
  { unfold app1. simpl. now rewrite list_lookup_alter, decide_True, Hobj by reflexivity. }
  destruct fuel as [|[|fuel]]; [lia | lia |].
  assert (Hd : dispose (S (S fuel)) this app1 = unregister this app1).
  { change (dispose (S (S fuel)) this)
      with (dispose_children (S fuel) this 0 ;; unregister this).
    unfold mbind, M_bind. rewrite (dispose_children_turn _ _ _ _ _ Hobj1).
    unfold obj1. simpl children. now rewrite Hleaf. }
  rewrite Hd.
  destruct (unregister_returned this app1 obj1 Hobj1) as (Hret & _).
  destruct (unregister_shortcuts this app1 obj1 Hobj1) as (Hmap & Hlist).
  split; [exact Hret|]. rewrite Hmap, Hlist. unfold obj1, app1. simpl.
  rewrite Hnone. simpl. split; [now apply delete_insert_id|].
  rewrite (splice1_remove (shortcutList app) []) by assumption. apply app_nil_r.
Qed.

End Shortcuts.


